(** * ProtT5 incremental embedder: batch packing, out-of-memory recovery and
      TSV persistence

    A shallow embedding of
    [PIPELINE_non_functionnal/Partie_3_Embedding/prott5_embedder.py]:
    [safe_embed] (recursive halving on a GPU out-of-memory error, CPU fallback
    for a single sequence), the packing loop of [embed_fasta], and
    [save_ids_and_embeddings_tsv].

    The encoder, the tokenizer and the tensor operations are external: they
    are taken as operations on an abstract world [W] that return a value or a
    Python exception.  Floating-point numbers are an abstract type [F] with
    the reduction [Fmean] (what [Tensor.mean] computes on one column) and the
    printer [Fstr] (what [str] gives on one value).  Writing the destination
    file is taken to complete: [save_ids_and_embeddings_tsv] is the effect of
    a flush whose [open] and [write] calls all succeed. *)

From Stdlib Require Import ZArith String Ascii List Lia.
From Stdlib Require OrderedTypeEx.
From stdpp Require Import base option list gmap strings sorting pretty.

Local Open Scope string_scope.

(** ** Python exceptions *)

Module Py.

Inductive exn_class :=
| RuntimeError
| CudaOutOfMemoryError      (* torch.cuda.OutOfMemoryError <: RuntimeError *)
| IndexError
| ZeroDivisionError
| ValueError
| MemoryError
| RecursionError.

Record exn := Exn { exn_cls : exn_class; exn_msg : string }.

Inductive result (A : Type) :=
| Ok (a : A)
| Raise (e : exn).
Arguments Ok {A} a.
Arguments Raise {A} e.

(** [isinstance(e, RuntimeError)], what [except RuntimeError] catches. *)
Definition is_RuntimeError (e : exn) : bool :=
  match exn_cls e with
  | RuntimeError | CudaOutOfMemoryError => true
  | _ => false
  end.

(** [c.lower()] on one ASCII character. *)
Definition lower_ascii (c : ascii) : ascii :=
  let n := nat_of_ascii c in
  if (65 <=? n)%nat && (n <=? 90)%nat then ascii_of_nat (n + 32) else c.

(** [s.lower()] *)
Fixpoint lower (s : string) : string :=
  match s with
  | EmptyString => EmptyString
  | String c s' => String (lower_ascii c) (lower s')
  end.

(** [s.startswith(p)] *)
Fixpoint startswith (p s : string) : bool :=
  match p, s with
  | EmptyString, _ => true
  | String a p', String b s' => if Ascii.eqb a b then startswith p' s' else false
  | String _ _, EmptyString => false
  end.

(** [needle in hay] *)
Fixpoint contains (needle hay : string) : bool :=
  startswith needle hay ||
  match hay with
  | EmptyString => false
  | String _ hay' => contains needle hay'
  end.

(** [s.replace(a, b)] for one-character [a] and [b]. *)
Fixpoint replace_char (a b : ascii) (s : string) : string :=
  match s with
  | EmptyString => EmptyString
  | String c s' => String (if Ascii.eqb c a then b else c) (replace_char a b s')
  end.

(** [sep.join(parts)] *)
Fixpoint join (sep : string) (parts : list string) : string :=
  match parts with
  | [] => ""
  | [p] => p
  | p :: ps => p ++ sep ++ join sep ps
  end.

(** The characters of a string, as one-character strings: what iterating
    over a [str] yields. *)
Fixpoint chars (s : string) : list string :=
  match s with
  | EmptyString => []
  | String c s' => String c EmptyString :: chars s'
  end.

Definition tab : string := String (ascii_of_nat 9) EmptyString.
Definition newline : string := String (ascii_of_nat 10) EmptyString.

End Py.

Export Py.

(** The test of line 128: [except RuntimeError as e] followed by
    ["out of memory" in str(e).lower()]. *)
Definition is_oom (e : exn) : bool :=
  is_RuntimeError e && contains "out of memory" (lower (exn_msg e)).

(** Indexing a Python list out of range ([lens[b]], [ids[0]]). *)
Definition list_index_error : exn := Exn IndexError "list index out of range".

(** Indexing a tensor of [size] rows at row [b] ([reps[b, :len]]). *)
Definition tensor_index_error (b size : nat) : exn :=
  Exn IndexError
    ("index " ++ pretty b ++ " is out of bounds for dimension 0 with size "
     ++ pretty size).

Definition recursion_error : exn :=
  Exn RecursionError "maximum recursion depth exceeded".

(** ** Arrays *)

Section Arrays.

Variable F : Type.

(** What [Tensor.mean] returns on the values of one column. *)
Variable Fmean : list F -> F.

(** Encoder output [last_hidden_state], of shape [B, L, H]: one list of
    position vectors per batch member.  [H] is kept apart because a slice
    with no position still has [H] columns. *)
Record tensor3 := Tensor3 { t_hidden : nat; t_rows : list (list (list F)) }.

(** A numpy array of rank at most 2, as stored in [emb_dict]. *)
Inductive ndarray :=
| Arr0 (x : F)
| Arr1 (v : list F)
| Arr2 (ncols : nat) (rows : list (list F)).

(** Column [j] of a matrix given by its rows. *)
Definition column (j : nat) (rows : list (list F)) : list F :=
  omap (fun r : list F => r !! j) rows.

(** [emb.mean(dim=0)] on a matrix of shape [len, H]. *)
Definition mean_dim0 (H : nat) (rows : list (list F)) : list F :=
  map (fun j => Fmean (column j rows)) (seq 0 H).

(** [squeeze()] drops every axis of size 1. *)
Definition squeeze1 (v : list F) : ndarray :=
  match v with
  | [x] => Arr0 x
  | _ => Arr1 v
  end.

Definition squeeze2 (H : nat) (rows : list (list F)) : ndarray :=
  match rows with
  | [r] => squeeze1 r
  | _ => if (H =? 1)%nat then Arr1 (concat rows) else Arr2 H rows
  end.

(** [arr.reshape(-1)] *)
Definition reshape_flat (a : ndarray) : list F :=
  match a with
  | Arr0 x => [x]
  | Arr1 v => v
  | Arr2 _ rows => concat rows
  end.

(** [reps[b, :len]] once row [b] is known: the first [len] positions. *)
Definition truncate (len : nat) (rep : list (list F)) : list (list F) :=
  take len rep.

(** Lines 123-126 (and 142-145 on the CPU path): truncate to the true
    length, average over the positions when [per_protein], squeeze. *)
Definition pool (per_protein : bool) (H len : nat) (rep : list (list F)) : ndarray :=
  let emb := truncate len rep in
  if per_protein then squeeze1 (mean_dim0 H emb) else squeeze2 H emb.

End Arrays.

Arguments Tensor3 {F} _ _.
Arguments t_hidden {F} _.
Arguments t_rows {F} _.
Arguments Arr0 {F} _.
Arguments Arr1 {F} _.
Arguments Arr2 {F} _ _.
Arguments column {F} _ _.
Arguments mean_dim0 {F} _ _ _.
Arguments squeeze1 {F} _.
Arguments squeeze2 {F} _ _.
Arguments reshape_flat {F} _.
Arguments truncate {F} _ _.
Arguments pool {F} _ _ _ _ _.

(** From the words of the specification: the arithmetic mean of a list of
    numbers, their sum divided by their count, for numbers given by their
    addition [Fadd], their zero [Fzero] and their division by a count
    [Fdiv].  It is what [Fmean] is compared with. *)
Definition arithmetic_mean {F : Type} (Fadd : F → F → F) (Fzero : F)
    (Fdiv : F → nat → F) (l : list F) : F :=
  Fdiv (foldr Fadd Fzero l) (length l).

(** ** The recovery engine, the store and the main loop *)

Section Embedder.

Variable F : Type.
Variable Fmean : list F -> F.
Variable Fstr : F -> string.

(** The external world: GPU and CPU memory, the placement and the dtype of
    the model.  Each operation may change it. *)
Variable W : Type.

(** Lines 117-121: tokenize, move to [device], run the encoder there. *)
Variable gpu_forward : W -> list string -> result (tensor3 F) * W.
(** Lines 123-126, the tensor operations made on the device for one member
    once its row is known: the slice, [mean(dim=0)] when [per_protein],
    [.cpu().numpy().squeeze()].  They may raise; the value they give when
    they do not is [pool].  Arguments: [per_protein], the row, the length. *)
Variable gpu_extract : W -> bool -> list (list F) -> nat -> option exn * W.
(** Line 129: [torch.cuda.empty_cache()]. *)
Variable empty_cache : W -> W.
(** Lines 137-141: tokenize, move the model to the CPU in float32, run it. *)
Variable cpu_forward : W -> list string -> result (tensor3 F) * W.
(** Lines 142-145, the same tensor operations on the CPU copy. *)
Variable cpu_extract : W -> bool -> list (list F) -> nat -> option exn * W.
(** Line 146: [model.to(device)]. *)
Variable to_device : W -> option exn * W.

(** Ghost trace of what a run did, in order.  A member whose vector was
    extracted and assigned leaves a [Put]; one for which lines 123-126
    (resp. 142-145) raised leaves a [GpuStoreFail] (resp. [CpuStoreFail])
    with the exception. *)
Inductive event :=
| GpuCall (seqs_spaced : list string) (failure : option exn)
| CpuCall (seqs_spaced : list string) (failure : option exn)
| ToDevice (failure : option exn)
| Put (uid : string)
| Submit (ids : list string) (lens : list nat)
| Flush (snapshot : gmap string (ndarray F))
| GpuStoreFail (uid : string) (e : exn)
| CpuStoreFail (uid : string) (e : exn).

Record state := State {
  emb_dict : gmap string (ndarray F);
  world : W;
  fs : gmap string string;          (* path -> file content *)
  trace : list event;               (* most recent event last *)
}.

Definition log (ev : event) (st : state) : state :=
  State (emb_dict st) (world st) (fs st) (trace st ++ [ev])%list.

Definition set_world (w : W) (st : state) : state :=
  State (emb_dict st) w (fs st) (trace st).

(** [emb_dict[uid] = emb]: a plain dictionary assignment. *)
Definition put (uid : string) (emb : ndarray F) (st : state) : state :=
  log (Put uid) (State (<[uid := emb]> (emb_dict st)) (world st) (fs st) (trace st)).

(** Lines 122-126: [for b, uid in enumerate(ids)], started at index [b].
    On line 123 [lens[b]] is evaluated first, then the tensor is indexed. *)
Fixpoint store_loop (b : nat) (ids : list string) (reps : tensor3 F)
    (lens : list nat) (per_protein : bool) (st : state) : state * option exn :=
  match ids with
  | [] => (st, None)
  | uid :: ids' =>
      match lens !! b with
      | None =>
          (log (GpuStoreFail uid list_index_error) st, Some list_index_error)
      | Some len =>
          match t_rows reps !! b with
          | None =>
              let e := tensor_index_error b (length (t_rows reps)) in
              (log (GpuStoreFail uid e) st, Some e)
          | Some rep =>
              let '(r, w) := gpu_extract (world st) per_protein rep len in
              match r with
              | Some e => (log (GpuStoreFail uid e) (set_world w st), Some e)
              | None =>
                  store_loop (S b) ids' reps lens per_protein
                    (put uid (pool Fmean per_protein (t_hidden reps) len rep)
                       (set_world w st))
              end
          end
      end
  end.

(** Lines 117-126: the body of the [try].  It holds the encoder call and the
    storing loop, so an exception of either reaches the handler of line
    127. *)
Definition try_block (ids seqs_spaced : list string) (lens : list nat)
    (per_protein : bool) (st : state) : state * option exn :=
  let '(r, w) := gpu_forward (world st) seqs_spaced in
  match r with
  | Ok reps =>
      store_loop 0 ids reps lens per_protein
        (log (GpuCall seqs_spaced None) (set_world w st))
  | Raise e => (log (GpuCall seqs_spaced (Some e)) (set_world w st), Some e)
  end.

(** Lines 135-146: the CPU fallback of the [else] branch. *)
Definition cpu_fallback (ids seqs_spaced : list string) (lens : list nat)
    (per_protein : bool) (st : state) : state * option exn :=
  match ids with
  | [] => (st, Some list_index_error)                      (* ids[0] *)
  | uid :: _ =>
      let '(r, w) := cpu_forward (world st) seqs_spaced in
      match r with
      | Raise e => (log (CpuCall seqs_spaced (Some e)) (set_world w st), Some e)
      | Ok reps_cpu =>
          let st1 := log (CpuCall seqs_spaced None) (set_world w st) in
          match lens !! 0%nat with
          | None =>
              (log (CpuStoreFail uid list_index_error) st1,
               Some list_index_error)
          | Some len =>
              match t_rows reps_cpu !! 0%nat with
              | None =>
                  let e := tensor_index_error 0 (length (t_rows reps_cpu)) in
                  (log (CpuStoreFail uid e) st1, Some e)
              | Some rep =>
                  let '(rx, wx) := cpu_extract (world st1) per_protein rep len in
                  match rx with
                  | Some e =>
                      (log (CpuStoreFail uid e) (set_world wx st1), Some e)
                  | None =>
                      let st2 :=
                        put uid
                          (pool Fmean per_protein (t_hidden reps_cpu) len rep)
                          (set_world wx st1) in
                      let '(r', w') := to_device (world st2) in
                      (log (ToDevice r') (set_world w' st2), r')
                  end
              end
          end
      end
  end.

(** [safe_embed], lines 101-148.  An exception of the [try] body that is a
    [RuntimeError] whose message holds "out of memory" is handled: the unit
    is halved, or sent to the CPU when it has one member; any other
    exception leaves the function.  The recursion halves [ids]; [fuel]
    bounds its depth.  The [depth] argument of the source is only passed
    along and is left out. *)
Fixpoint safe_embed_rec (fuel : nat) (ids seqs_spaced : list string)
    (lens : list nat) (per_protein : bool) (st : state) : state * option exn :=
  let '(st1, r) := try_block ids seqs_spaced lens per_protein st in
  match r with
  | None => (st1, None)
  | Some e =>
      if is_oom e then
        let st2 := set_world (empty_cache (world st1)) st1 in
        if (1 <? length ids)%nat then
          match fuel with
          | O => (st2, Some recursion_error)
          | S fuel' =>
              let mid := (length ids / 2)%nat in
              let '(st3, r1) :=
                safe_embed_rec fuel' (take mid ids) (take mid seqs_spaced)
                  (take mid lens) per_protein st2 in
              match r1 with
              | Some e1 => (st3, Some e1)
              | None =>
                  safe_embed_rec fuel' (drop mid ids) (drop mid seqs_spaced)
                    (drop mid lens) per_protein st3
              end
          end
        else cpu_fallback ids seqs_spaced lens per_protein st2
      else (st1, Some e)
  end.

Definition safe_embed (ids seqs_spaced : list string) (lens : list nat)
    (per_protein : bool) (st : state) : state * option exn :=
  safe_embed_rec (length ids) ids seqs_spaced lens per_protein st.

(** ** Persistence *)

(** [sorted(emb_dict.keys())]: strings ordered by code point. *)
Definition str_le (a b : string) : Prop := String.leb a b = true.

#[local] Instance str_le_dec (a b : string) : Decision (str_le a b).
Proof. unfold str_le. apply _. Defined.

Definition sorted_keys (d : gmap string (ndarray F)) : list string :=
  merge_sort str_le (elements (dom d)).

(** One line of the file: [f"{uid}\t{vec}\n"] with
    [vec = " ".join(map(str, emb.reshape(-1)))]. *)
Definition tsv_line (uid : string) (emb : ndarray F) : string :=
  uid ++ tab ++ join " " (map Fstr (reshape_flat emb)) ++ newline.

Definition tsv_of (d : gmap string (ndarray F)) : string :=
  String.concat "" (omap (fun uid => tsv_line uid <$> d !! uid) (sorted_keys d)).

(** [save_ids_and_embeddings_tsv], lines 55-62, when [open] and every
    [write] succeed.  Opening with mode ["w"] creates or truncates the
    file. *)
Definition save_ids_and_embeddings_tsv (d : gmap string (ndarray F))
    (tsv_path : string) (files : gmap string string) : gmap string string :=
  if decide (d = ∅) then files
  else <[tsv_path := tsv_of d]> files.

(** ** The main loop *)

Record config := Config {
  max_residues : Z;
  max_seq_len : Z;
  max_batch : Z;
  save_every : Z;
  auto_shrink : bool;
}.

(** Line 171: [sorted(seqs.items(), key=lambda kv: len(kv[1]), reverse=True)],
    a stable sort by decreasing length. *)
Fixpoint insert_by_len (x : string * string) (l : list (string * string))
    : list (string * string) :=
  match l with
  | [] => [x]
  | y :: l' =>
      if (String.length x.2 <? String.length y.2)%nat
      then y :: insert_by_len x l'
      else x :: l
  end.

Definition sort_by_len_desc (items : list (string * string))
    : list (string * string) :=
  foldr insert_by_len [] items.

(** Line 181: the non-standard residues U, Z and O become X. *)
Definition normalize (seq : string) : string :=
  replace_char "O" "X" (replace_char "Z" "X" (replace_char "U" "X" seq)).

(** Line 185: [sum(l for _, _, l in batch)]. *)
Definition res_ct (batch : list (string * string * nat)) : Z :=
  foldr (fun m acc => (Z.of_nat m.2 + acc)%Z) 0%Z batch.

(** Line 186: the test made once the sequence has been appended; [i] is
    its 1-based rank and [n] is [len(entries)]. *)
Definition flush_cond (cfg : config) (batch : list (string * string * nat))
    (i n : nat) (seq : string) : bool :=
  (max_batch cfg <=? Z.of_nat (length batch))%Z
  || (max_residues cfg <=? res_ct batch)%Z
  || (i =? n)%nat
  || (max_seq_len cfg <? Z.of_nat (String.length seq))%Z.

Record loop_state := LoopState {
  ls_state : state;
  ls_batch : list (string * string * nat);
  ls_batch_idx : Z;
}.

Definition zero_division : exn :=
  Exn ZeroDivisionError "integer modulo by zero".

(** Lines 199-200, after [safe_embed] has returned. *)
Definition checkpoint (cfg : config) (out_npz : string) (i n : nat)
    (batch_idx : Z) (st : state) : state * option exn :=
  if (save_every cfg =? 0)%Z then (st, Some zero_division)
  else if ((batch_idx mod save_every cfg =? 0)%Z || (i =? n)%nat) then
    (log (Flush (emb_dict st))
       (State (emb_dict st) (world st)
          (save_ids_and_embeddings_tsv (emb_dict st) out_npz (fs st))
          (trace st)), None)
  else (st, None).

(** Lines 178-200: one iteration of the [for] loop. *)
Definition loop_body (cfg : config) (out_npz : string) (per_protein : bool)
    (n i : nat) (entry : string * string) (ls : loop_state)
    : loop_state * option exn :=
  let seq := normalize entry.2 in
  let batch :=
    (ls_batch ls ++ [(entry.1, join " " (chars seq), String.length seq)])%list in
  if negb (flush_cond cfg batch i n seq)
  then (LoopState (ls_state ls) batch (ls_batch_idx ls), None)
  else
    let ids := map (fun m => m.1.1) batch in
    let spaced := map (fun m => m.1.2) batch in
    let lens := map (fun m => m.2) batch in
    let batch_idx := (ls_batch_idx ls + 1)%Z in
    let '(st1, r) :=
      safe_embed ids spaced lens per_protein (log (Submit ids lens) (ls_state ls)) in
    match r with
    | Some e => (LoopState st1 [] batch_idx, Some e)
    | None =>
        let '(st2, r') := checkpoint cfg out_npz i n batch_idx st1 in
        (LoopState st2 [] batch_idx, r')
    end.

(** [for i, (pid, seq) in enumerate(entries, i)]. *)
Fixpoint for_loop (cfg : config) (out_npz : string) (per_protein : bool)
    (n i : nat) (entries : list (string * string)) (ls : loop_state)
    : loop_state * option exn :=
  match entries with
  | [] => (ls, None)
  | entry :: rest =>
      let '(ls', r) := loop_body cfg out_npz per_protein n i entry ls in
      match r with
      | Some e => (ls', Some e)
      | None => for_loop cfg out_npz per_protein n (S i) rest ls'
      end
  end.

(** [embed_fasta], lines 151-203.  [seqs] is what [read_fasta] returned
    (the items of the dictionary, in insertion order), [w0] the world once
    [load_model] has run, [files] the file system. *)
Definition embed_fasta (seqs : list (string * string)) (out_npz : string)
    (per_protein : bool) (cfg : config) (w0 : W) (files : gmap string string)
    : state * option exn :=
  let st0 := State ∅ w0 files [] in
  match seqs with
  | [] => (st0, Some (Exn ValueError "Empty FASTA or no IDs matched"))
  | _ =>
      let entries := sort_by_len_desc seqs in
      let '(ls, r) :=
        for_loop cfg out_npz per_protein (length entries) 1 entries
          (LoopState st0 [] 0) in
      (ls_state ls, r)
  end.

End Embedder.

Arguments GpuCall {F} _ _.
Arguments CpuCall {F} _ _.
Arguments ToDevice {F} _.
Arguments Put {F} _.
Arguments Submit {F} _ _.
Arguments Flush {F} _.
Arguments GpuStoreFail {F} _ _.
Arguments CpuStoreFail {F} _ _.
Arguments State {F W} _ _ _ _.
Arguments emb_dict {F W} _.
Arguments world {F W} _.
Arguments fs {F W} _.
Arguments trace {F W} _.
Arguments log {F W} _ _.
Arguments set_world {F W} _ _.
Arguments put {F W} _ _ _.
Arguments sorted_keys {F} _.
Arguments tsv_line {F} _ _ _.
Arguments tsv_of {F} _ _.
Arguments save_ids_and_embeddings_tsv {F} _ _ _ _.
Arguments LoopState {F W} _ _ _.
Arguments ls_state {F W} _.
Arguments ls_batch {F W} _.
Arguments ls_batch_idx {F W} _.

(** ** A deterministic stub encoder

    Integers stand for the floating-point values.  The GPU refuses, with the
    message CUDA gives, every batch of more than [T] residues; the CPU always
    answers; the tensor operations that follow never raise.  The world
    counts the encoder calls made. *)

Module Stub.

Definition Fmean (l : list Z) : Z :=
  (foldr Z.add 0 l / Z.of_nat (length l))%Z.

Definition Fstr (x : Z) : string := pretty x.

(** Residues of a spaced sequence ["A B C"]. *)
Definition residues (spaced : string) : list ascii :=
  filter (fun c => c ≠ " "%char) (list_ascii_of_string spaced).

Definition n_residues (batch : list string) : nat :=
  foldr (fun s acc => (length (residues s) + acc)%nat) 0%nat batch.

Definition longest (batch : list string) : nat :=
  foldr (fun s acc => Nat.max (length (residues s)) acc) 0%nat batch.

(** Two values per position (the residue code and the position), then
    rows of zeros for the end marker and the padding. *)
Definition encode_one (L : nat) (spaced : string) : list (list Z) :=
  let rs := residues spaced in
  (imap (fun p c => [Z.of_nat (nat_of_ascii c); Z.of_nat p]) rs
    ++ replicate (S L - length rs) [0; 0]%Z)%list.

Definition encode (batch : list string) : tensor3 Z :=
  Tensor3 2 (map (encode_one (longest batch)) batch).

Definition cuda_oom : exn :=
  Exn CudaOutOfMemoryError "CUDA out of memory. Tried to allocate 2.00 GiB".

Definition gpu_forward (T : nat) (w : nat) (batch : list string)
    : result (tensor3 Z) * nat :=
  if (T <? n_residues batch)%nat then (Raise cuda_oom, S w)
  else (Ok (encode batch), S w).

Definition gpu_extract (w : nat) (per_protein : bool) (rep : list (list Z))
    (len : nat) : option exn * nat :=
  (None, w).

Definition empty_cache (w : nat) : nat := w.

Definition cpu_forward (w : nat) (batch : list string)
    : result (tensor3 Z) * nat :=
  (Ok (encode batch), S w).

Definition cpu_extract (w : nat) (per_protein : bool) (rep : list (list Z))
    (len : nat) : option exn * nat :=
  (None, w).



Definition to_device (w : nat) : option exn * nat := (None, w).

(** Moving the model back to the GPU fails. *)
Definition to_device_failing (w : nat) : option exn * nat :=
  (Some cuda_oom, w).

(** The device runs out of memory once, in the storing loop: on the first
    member of length 2 met after exactly one encoder call. *)
Definition gpu_extract_exhausted_once (w : nat) (per_protein : bool)
    (rep : list (list Z)) (len : nat) : option exn * nat :=
  if ((w =? 1)%nat && (len =? 2)%nat)%bool then (Some cuda_oom, w)
  else (None, w).

(** An encoder whose output for a sequence depends on the call: every value
    is shifted by the number of calls made before. *)
Definition gpu_forward_drifting (w : nat) (batch : list string)
    : result (tensor3 Z) * nat :=
  (Ok (Tensor3 2 (map (map (map (Z.add (Z.of_nat w)))) (t_rows (encode batch)))),
   S w).

Definition safe_embed (T : nat) :=
  safe_embed Z Fmean nat (gpu_forward T) gpu_extract empty_cache
    cpu_forward cpu_extract to_device.

Definition embed_fasta (T : nat) :=
  embed_fasta Z Fmean Fstr nat (gpu_forward T) gpu_extract empty_cache
    cpu_forward cpu_extract to_device.

Definition st0 : state Z nat := State ∅ 0%nat ∅ [].

End Stub.

(** ** Reading the FASTA file

    [read_fasta], lines 71-87.  The text is ASCII; a file is the list of
    its lines, as iterating over the file object yields them.  The returned
    dictionary is the list of its items in insertion order, which is the
    order [embed_fasta] sees. *)

Module Fasta.

(** [c.isspace()] on an ASCII character. *)
Definition is_space (c : ascii) : bool :=
  let n := nat_of_ascii c in
  ((9 <=? n)%nat && (n <=? 13)%nat) || ((28 <=? n)%nat && (n <=? 32)%nat).

(** [s.lstrip()], [s.rstrip()], [s.strip()] *)
Fixpoint lstrip (s : string) : string :=
  match s with
  | EmptyString => EmptyString
  | String c s' => if is_space c then lstrip s' else s
  end.

Fixpoint rstrip (s : string) : string :=
  match s with
  | EmptyString => EmptyString
  | String c s' =>
      match rstrip s' with
      | EmptyString => if is_space c then EmptyString else String c EmptyString
      | r => String c r
      end
  end.

Definition strip (s : string) : string := rstrip (lstrip s).

(** [c.upper()] on one ASCII character, and [s.upper()]. *)
Definition upper_ascii (c : ascii) : ascii :=
  let n := nat_of_ascii c in
  if (97 <=? n)%nat && (n <=? 122)%nat then ascii_of_nat (n - 32) else c.

Fixpoint upper (s : string) : string :=
  match s with
  | EmptyString => EmptyString
  | String c s' => String (upper_ascii c) (upper s')
  end.

(** [s.replace(a, "")] for a one-character [a]. *)
Fixpoint remove_char (a : ascii) (s : string) : string :=
  match s with
  | EmptyString => EmptyString
  | String c s' => if Ascii.eqb c a then remove_char a s' else String c (remove_char a s')
  end.

(** The leading run of non-space characters. *)
Fixpoint take_nonspace (s : string) : string :=
  match s with
  | EmptyString => EmptyString
  | String c s' => if is_space c then EmptyString else String c (take_nonspace s')
  end.

(** [s.split()[0]]: the first whitespace-delimited token; [None] stands for
    the [IndexError] raised when there is none. *)
Definition first_token (s : string) : option string :=
  match lstrip s with
  | EmptyString => None
  | t => Some (take_nonspace t)
  end.

(** [line[1:]] *)
Definition tail (line : string) : string :=
  match line with
  | EmptyString => EmptyString
  | String _ r => r
  end.

(** Line 83: [uid.replace("/", "_").replace(".", "_")]. *)
Definition sanitize (uid : string) : string :=
  replace_char "." "_" (replace_char "/" "_" uid).

(** Line 86: [line.strip().upper().replace("-", "")]. *)
Definition clean (line : string) : string :=
  remove_char "-" (upper (strip line)).

(** A [Dict[str, str]] as the list of its items in insertion order. *)
Fixpoint dict_get (k : string) (d : list (string * string)) : option string :=
  match d with
  | [] => None
  | (k', v) :: d' => if String.eqb k k' then Some v else dict_get k d'
  end.

(** [d[k] = v]: an existing key keeps its place. *)
Fixpoint dict_set (k v : string) (d : list (string * string))
    : list (string * string) :=
  match d with
  | [] => [(k, v)]
  | (k', v') :: d' =>
      if String.eqb k k' then (k, v) :: d' else (k', v') :: dict_set k v d'
  end.

Inductive error :=
| IndexError      (* [split()[0]] on a header without identifier *)
| KeyError.       (* [seqs[uid] += ...] on a missing key *)

Record reader := Reader {
  seqs : list (string * string);
  keep : bool;
  uid : string;
}.

(** Lines 78-86: the body of [for line in fh]. *)
Definition step (ids_keep : gset string) (line : string) (r : reader)
    : error + reader :=
  if startswith ">" line then
    match first_token (tail line) with
    | None => inl IndexError
    | Some u =>
        if bool_decide (u ∈ ids_keep)
        then inr (Reader (dict_set (sanitize u) "" (seqs r)) true (sanitize u))
        else inr (Reader (seqs r) false u)
    end
  else if keep r then
    match dict_get (uid r) (seqs r) with
    | None => inl KeyError
    | Some v => inr (Reader (dict_set (uid r) (v ++ clean line) (seqs r)) true (uid r))
    end
  else inr r.

Fixpoint loop (ids_keep : gset string) (lines : list string) (r : reader)
    : error + reader :=
  match lines with
  | [] => inr r
  | line :: rest =>
      match step ids_keep line r with
      | inl e => inl e
      | inr r' => loop ids_keep rest r'
      end
  end.

Definition read_fasta (lines : list string) (ids_keep : gset string)
    : error + list (string * string) :=
  match loop ids_keep lines (Reader [] false "") with
  | inl e => inl e
  | inr r => inr (seqs r)
  end.

(** Lines 65-67: [IDs = {l.strip() for l in f}]. *)
Definition load_ids (lines : list string) : gset string :=
  list_to_set (strip <$> lines).

End Fasta.

(** A header line without identifier: [">"] followed by white space only. *)
Definition blank_header (line : string) : Prop :=
  startswith ">" line = true ∧ Fasta.first_token (Fasta.tail line) = None.

(** [line] is a header whose identifier is [u]. *)
Definition header_of (u line : string) : Prop :=
  startswith ">" line = true ∧ Fasta.first_token (Fasta.tail line) = Some u.

(** An ASCII lower-case letter. *)
Definition is_lower (c : ascii) : bool :=
  (97 <=? nat_of_ascii c)%nat && (nat_of_ascii c <=? 122)%nat.

(** Lines 192 and 199: unit number [k] of [m] (counted from 1) is followed
    by a flush when [k % save_every == 0] or when it is the last one. *)
Definition flush_due (se : Z) (m k : nat) : bool :=
  (Z.of_nat k mod se =? 0)%Z || (k =? m)%nat.

(** ** Example inputs *)

Module Example.

(** A sequence of [n] copies of one residue. *)
Definition rep_str (n : nat) (c : ascii) : string :=
  string_of_list_ascii (replicate n c).

(** Five sequences of lengths 50, 40, 10, 10 and 5. *)
Definition seqs : list (string * string) :=
  [("s1", rep_str 50 "A"); ("s2", rep_str 40 "C"); ("s3", rep_str 10 "D");
   ("s4", rep_str 10 "E"); ("s5", rep_str 5 "G")].

(** [max_residues = 60], [max_batch = 5], the other options at their
    defaults; [--auto_shrink] not given. *)
Definition cfg : config := Config 60 1000 5 10000 false.

(** Two short sequences and the default options, [--auto_shrink] not
    given. *)
Definition two_seqs : list (string * string) := [("p1", "MKV"); ("p2", "AC")].
Definition default_cfg : config := Config 4000 1000 256 10000 false.

(** A store that already holds a vector for ["p1"]. *)
Definition st_with_p1 : state Z nat :=
  State {["p1" := Arr1 [7; 7]%Z]} 0%nat ∅ [].

(** A file system in which the destination already exists. *)
Definition old_files : gmap string string := {["out.tsv" := "stale"]}.


(** A unit of two sequences on a device whose encoder answers and that
    runs out of memory once, while the second result is being stored. *)
Definition retried_unit : state Z nat * option exn :=
  safe_embed Z Stub.Fmean nat (Stub.gpu_forward 10)
    Stub.gpu_extract_exhausted_once Stub.empty_cache Stub.cpu_forward
    Stub.cpu_extract Stub.to_device
    ["p1"; "p2"] ["M K V"; "A C"] [3; 2]%nat true Stub.st0.

(** The same device with an encoder whose output drifts from call to call:
    the whole run on [two_seqs], and the first attempt of that run on its
    only unit. *)
Definition drifting_run : state Z nat * option exn :=
  embed_fasta Z Stub.Fmean Stub.Fstr nat Stub.gpu_forward_drifting
    Stub.gpu_extract_exhausted_once Stub.empty_cache Stub.cpu_forward
    Stub.cpu_extract Stub.to_device
    two_seqs "out.tsv" true default_cfg 0%nat ∅.

Definition drifting_first_attempt : state Z nat * option exn :=
  try_block Z Stub.Fmean nat Stub.gpu_forward_drifting
    Stub.gpu_extract_exhausted_once
    ["p1"; "p2"] ["M K V"; "A C"] [3; 2]%nat true
    (log (Submit ["p1"; "p2"] [3; 2]%nat) (State ∅ 0%nat ∅ [])).

(** A one-member unit that does not fit the GPU, with a CPU path whose
    last step, moving the model back, fails. *)
Definition fallback_then_failure : state Z nat * option exn :=
  safe_embed Z Stub.Fmean nat (Stub.gpu_forward 0) Stub.gpu_extract
    Stub.empty_cache Stub.cpu_forward Stub.cpu_extract Stub.to_device_failing
    ["P12345"] ["M K"] [2%nat] true Stub.st0.

End Example.

(** ** A sample FASTA file *)

Module Sample.

(** Three records; the identifiers of the first and of the third are both
    sanitized to [a_b_1], the second is not in the allow-list. *)
Definition lines : list string :=
  [">a/b.1 first record" ++ newline; "acg-t" ++ newline;
   ">zz" ++ newline; "AAA" ++ newline;
   ">a.b/1" ++ newline; "cc" ++ newline; "g-g"].

Definition ids_keep : gset string := {["a/b.1"; "a.b/1"]}.

(** An allow-list file with a blank line and a line holding two words. *)
Definition ids_lines : list string :=
  ["a/b.1" ++ newline; newline; "a.b/1" ++ newline; "x y" ++ newline].

(** Default options but [--save_every 0]. *)
Definition cfg_save_every_0 : config := Config 4000 1000 256 0 false.

(** The encoding the stub gives a sequence taken alone. *)
Definition enc (spaced : string) : list (list Z) :=
  imap (fun p c => [Z.of_nat (nat_of_ascii c); Z.of_nat p]) (Stub.residues spaced).

End Sample.

Local Open Scope list_scope.

(** ** Reading a trace *)

Section Traces.

Context {F : Type}.

(** The identifiers written to [emb_dict], in order. *)
Fixpoint put_ids (tr : list (event F)) : list string :=
  match tr with
  | [] => []
  | Put uid :: tr' => uid :: put_ids tr'
  | _ :: tr' => put_ids tr'
  end.

(** Number of encoder invocations on the primary device. *)
Fixpoint gpu_calls (tr : list (event F)) : nat :=
  match tr with
  | [] => 0
  | GpuCall _ _ :: tr' => S (gpu_calls tr')
  | _ :: tr' => gpu_calls tr'
  end.

(** Number of encoder invocations on the secondary (CPU) path. *)
Fixpoint cpu_calls (tr : list (event F)) : nat :=
  match tr with
  | [] => 0
  | CpuCall _ _ :: tr' => S (cpu_calls tr')
  | _ :: tr' => cpu_calls tr'
  end.

(** The work units handed to [safe_embed] by the main loop, as lists of
    sequence lengths. *)
Fixpoint submitted (tr : list (event F)) : list (list nat) :=
  match tr with
  | [] => []
  | Submit _ lens :: tr' => lens :: submitted tr'
  | _ :: tr' => submitted tr'
  end.

(** The stores handed to [save_ids_and_embeddings_tsv], in order. *)
Fixpoint flushed (tr : list (event F)) : list (gmap string (ndarray F)) :=
  match tr with
  | [] => []
  | Flush d :: tr' => d :: flushed tr'
  | _ :: tr' => flushed tr'
  end.

(** The event is a failed step of the secondary path (the encoder call on
    the CPU, the tensor operations on its output, moving the model back)
    and carries the exception [e]. *)
Definition secondary_failure (e : exn) (ev : event F) : Prop :=
  match ev with
  | CpuCall _ (Some e') => e' = e
  | CpuStoreFail _ e' => e' = e
  | ToDevice (Some e') => e' = e
  | _ => False
  end.

(** An event of the [try] body: it comes from the primary device. *)
Definition primary_event (ev : event F) : Prop :=
  match ev with
  | GpuCall _ _ | Put _ | GpuStoreFail _ _ => True
  | _ => False
  end.

(** Number of times the storing loop of lines 122-126 was left by an
    out-of-memory error, that is, a unit was taken up again after some of
    its members may have been stored. *)
Fixpoint storing_exhaustions (tr : list (event F)) : nat :=
  match tr with
  | [] => 0
  | GpuStoreFail _ e :: tr' =>
      ((if is_oom e then 1 else 0) + storing_exhaustions tr')%nat
  | _ :: tr' => storing_exhaustions tr'
  end.

End Traces.

(** ** What a piece of a run did to the state *)

Section Effects.

Context {F W : Type}.

(** [st'] is [st] after the events [tr]: the trace grew by [tr], no file
    changed, and the store changed at most at the identifiers put. *)
Definition writes (st st' : state F W) (tr : list (event F)) : Prop :=
  trace st' = trace st ++ tr
  ∧ fs st' = fs st
  ∧ dom (emb_dict st') = dom (emb_dict st) ∪ list_to_set (put_ids tr)
  ∧ ∀ uid, uid ∉ put_ids tr → emb_dict st' !! uid = emb_dict st !! uid.

(** The encoder on the primary device either answers, with one row per
    batch member, or signals resource exhaustion. *)
Definition succeeds_or_exhausts
    (gpu_forward : W -> list string -> result (tensor3 F) * W) : Prop :=
  ∀ w batch,
    match (gpu_forward w batch).1 with
    | Ok reps => length (t_rows reps) = length batch
    | Raise e => is_oom e = true
    end.

(** When the secondary path answers, it gives one row per batch member. *)
Definition well_shaped
    (cpu_forward : W -> list string -> result (tensor3 F) * W) : Prop :=
  ∀ w batch reps,
    (cpu_forward w batch).1 = Ok reps → length (t_rows reps) = length batch.

(** The encoder on the primary device signals exhaustion on every batch. *)
Definition always_exhausts
    (gpu_forward : W -> list string -> result (tensor3 F) * W) : Prop :=
  ∀ w batch, ∃ e, (gpu_forward w batch).1 = Raise e ∧ is_oom e = true.

(** The secondary path never fails. *)
Definition never_fails
    (cpu_forward : W -> list string -> result (tensor3 F) * W)
    (cpu_extract : W -> bool -> list (list F) -> nat -> option exn * W)
    (to_device : W -> option exn * W) : Prop :=
  (∀ w batch, ∃ reps, (cpu_forward w batch).1 = Ok reps)
  ∧ (∀ w pp rep len, (cpu_extract w pp rep len).1 = None)
  ∧ (∀ w, (to_device w).1 = None).


(** The tensor operations of the storing loop, like the encoder, either
    succeed or signal resource exhaustion. *)
Definition extract_succeeds_or_exhausts
    (gpu_extract : W -> bool -> list (list F) -> nat -> option exn * W) : Prop :=
  ∀ w pp rep len e, (gpu_extract w pp rep len).1 = Some e → is_oom e = true.

End Effects.

(** ** More ways to read a run *)

Section Encoders.

Context {F W : Type}.

(** The event is a step on the primary device (the encoder call or the
    storing loop) that raised [e], and [e] is not an out-of-memory error. *)
Definition primary_failure (e : exn) (ev : event F) : Prop :=
  match ev with
  | GpuCall _ (Some e') => e' = e ∧ is_oom e = false
  | GpuStoreFail _ e' => e' = e ∧ is_oom e = false
  | _ => False
  end.

(** An encoder that works member by member: when it answers, the hidden
    size is [H] and the row of each member is the encoding [enc] of that
    member alone, followed by padding. *)
Definition memberwise (H : nat) (enc : string → list (list F))
    (forward : W → list string → result (tensor3 F) * W) : Prop :=
  ∀ w batch reps w',
    forward w batch = (Ok reps, w') →
    t_hidden reps = H
    ∧ Forall2 (fun s rep => ∃ pad, rep = enc s ++ pad) batch (t_rows reps).

End Encoders.

(** ** The packing decisions of the main loop, on lengths alone *)

(** Line 185 on the lengths of the open unit. *)
Definition sum_lens (lens : list nat) : Z :=
  foldr (fun l acc => (Z.of_nat l + acc)%Z) 0%Z lens.

(** The three tests of line 186 that look at the open unit; the sequence
    just added is its last member. *)
Definition closes (cfg : config) (lens : list nat) : bool :=
  (max_batch cfg <=? Z.of_nat (length lens))%Z
  || (max_residues cfg <=? sum_lens lens)%Z
  || (max_seq_len cfg <? Z.of_nat (default 0%nat (last lens)))%Z.

(** Lines 178-191 with the embedding left out: [unit] is the open unit,
    [todo] the lengths still to come; the unit is closed when one of the
    tests holds or when nothing is left ([i == len(entries)]). *)
Fixpoint pack_lens (cfg : config) (unit todo : list nat) : list (list nat) :=
  match todo with
  | [] => []
  | l :: rest =>
      if closes cfg (unit ++ [l]) || bool_decide (rest = [])
      then (unit ++ [l]) :: pack_lens cfg [] rest
      else pack_lens cfg (unit ++ [l]) rest
  end.

(** A closed unit [u] grown from the open unit [base]: it holds more than
    [base]; unless it is the last one, one of the tests holds on it; and
    none held while it was growing. *)
Definition unit_ok (cfg : config) (base u : list nat) (is_last : bool) : Prop :=
  (∃ q, u = base ++ q ∧ q ≠ [])
  ∧ (is_last = false → closes cfg u = true)
  ∧ ∀ p q, u = p ++ q → (length base < length p)%nat → q ≠ [] →
      closes cfg p = false.

(** The length the loop records for an entry: [len(seq)] after line 181. *)
Definition entry_len (entry : string * string) : nat :=
  String.length (normalize entry.2).

(** ** Invariant of a run *)

Section Invariant.

Context {F W : Type}.

(** Successive snapshots only grow, as maps: no key is lost and no value
    changes. *)
Definition chain (snaps : list (gmap string (ndarray F))) : Prop :=
  ∀ k d d', snaps !! k = Some d → snaps !! S k = Some d' → d ⊆ d'.

(** [pending] are the identifiers not yet handed to [safe_embed]: they are
    pairwise distinct and none of them has been written; the store holds
    every snapshot flushed so far.  As long as the storing loop was never
    left by an out-of-memory error, no identifier was written twice. *)
Definition run_inv (st : state F W) (pending : list string) : Prop :=
  NoDup pending
  ∧ (∀ uid, uid ∈ put_ids (trace st) → uid ∉ pending)
  ∧ (storing_exhaustions (trace st) = 0%nat →
     NoDup (put_ids (trace st) ++ pending))
  ∧ dom (emb_dict st) = list_to_set (put_ids (trace st))
  ∧ (∀ d, d ∈ flushed (trace st) → d ⊆ emb_dict st)
  ∧ chain (flushed (trace st)).

(** The position vectors held by an array stored in per-position mode, for
    an encoder of hidden size [H]: [squeeze] undone. *)
Definition positions (H : nat) (a : ndarray F) : list (list F) :=
  match a with
  | Arr0 x => [[x]]
  | Arr1 v => if (H =? 1)%nat then map (fun x => [x]) v else [v]
  | Arr2 _ rows => rows
  end.

End Invariant.

(** Strict code-point order on identifiers. *)
Definition str_lt (a b : string) : Prop := String.ltb a b = true.

(** ** Facts about traces *)

Section TraceFacts.

Context {F : Type}.
Implicit Types tr : list (event F).

Lemma put_ids_app tr1 tr2 : put_ids (tr1 ++ tr2) = put_ids tr1 ++ put_ids tr2.
Proof.
  induction tr1 as [|[] tr1 IH]; simpl; rewrite ?IH; reflexivity.
Qed.

Lemma gpu_calls_app tr1 tr2 :
  gpu_calls (tr1 ++ tr2) = (gpu_calls tr1 + gpu_calls tr2)%nat.
Proof.
  induction tr1 as [|[] tr1 IH]; simpl; rewrite ?IH; reflexivity.
Qed.

Lemma cpu_calls_app tr1 tr2 :
  cpu_calls (tr1 ++ tr2) = (cpu_calls tr1 + cpu_calls tr2)%nat.
Proof.
  induction tr1 as [|[] tr1 IH]; simpl; rewrite ?IH; reflexivity.
Qed.

Lemma submitted_app tr1 tr2 :
  submitted (tr1 ++ tr2) = submitted tr1 ++ submitted tr2.
Proof.
  induction tr1 as [|[] tr1 IH]; simpl; rewrite ?IH; reflexivity.
Qed.

Lemma flushed_app tr1 tr2 :
  flushed (tr1 ++ tr2) = flushed tr1 ++ flushed tr2.
Proof.
  induction tr1 as [|[] tr1 IH]; simpl; rewrite ?IH; reflexivity.
Qed.

Lemma storing_exhaustions_app tr1 tr2 :
  storing_exhaustions (tr1 ++ tr2)
  = (storing_exhaustions tr1 + storing_exhaustions tr2)%nat.
Proof.
  induction tr1 as [|[] tr1 IH]; simpl; rewrite ?IH; try reflexivity.
  apply Nat.add_assoc.
Qed.

End TraceFacts.

Section EffectFacts.

Context {F W : Type}.
Implicit Types st : state F W.
Implicit Types tr : list (event F).

Lemma writes_refl st : writes st st [].
Proof.
  unfold writes; simpl. rewrite app_nil_r.
  repeat split; auto. set_solver.
Qed.

Lemma writes_trans st1 st2 st3 tr1 tr2 :
  writes st1 st2 tr1 → writes st2 st3 tr2 → writes st1 st3 (tr1 ++ tr2).
Proof.
  intros (Ht1 & Hf1 & Hd1 & Hl1) (Ht2 & Hf2 & Hd2 & Hl2).
  unfold writes. rewrite put_ids_app.
  repeat split.
  - rewrite Ht2, Ht1, app_assoc. reflexivity.
  - congruence.
  - rewrite Hd2, Hd1, list_to_set_app_L. set_solver.
  - intros uid Hn. rewrite elem_of_app in Hn.
    rewrite Hl2, Hl1; tauto.
Qed.

Lemma writes_set_world w st : writes st (set_world w st) [].
Proof.
  unfold writes; simpl. rewrite app_nil_r.
  repeat split; auto. set_solver.
Qed.

Lemma writes_log ev st :
  put_ids [ev] = [] → writes st (log ev st) [ev].
Proof.
  intros Hp. unfold writes. rewrite Hp; simpl.
  repeat split; auto. set_solver.
Qed.

Lemma writes_put uid emb st : writes st (put uid emb st) [Put uid].
Proof.
  unfold writes; simpl. repeat split.
  - rewrite dom_insert_L. set_solver.
  - intros u Hu. apply lookup_insert_ne. set_solver.
Qed.

Lemma writes_trace st st' tr tr' :
  writes st st' tr → trace st' = trace st ++ tr' → tr' = tr.
Proof.
  intros (Ht & _) Ht'. rewrite Ht in Ht'.
  apply app_inv_head in Ht'. congruence.
Qed.

End EffectFacts.

(** ** The recovery engine: what every call does, whatever the encoder does *)

Section EngineFacts.

Variable F : Type.
Variable Fmean : list F -> F.
Variable W : Type.
Variable gpu_forward : W -> list string -> result (tensor3 F) * W.
Variable gpu_extract : W -> bool -> list (list F) -> nat -> option exn * W.
Variable empty_cache : W -> W.
Variable cpu_forward : W -> list string -> result (tensor3 F) * W.
Variable cpu_extract : W -> bool -> list (list F) -> nat -> option exn * W.
Variable to_device : W -> option exn * W.

Local Abbreviation store_loop := (store_loop F Fmean W gpu_extract).
Local Abbreviation try_block := (try_block F Fmean W gpu_forward gpu_extract).
Local Abbreviation cpu_fallback :=
  (cpu_fallback F Fmean W cpu_forward cpu_extract to_device).
Local Abbreviation safe_embed_rec :=
  (safe_embed_rec F Fmean W gpu_forward gpu_extract empty_cache
   cpu_forward cpu_extract to_device).
Local Abbreviation safe_embed :=
  (safe_embed F Fmean W gpu_forward gpu_extract empty_cache
   cpu_forward cpu_extract to_device).

Implicit Types st : state F W.
Implicit Types tr : list (event F).

Lemma put_ids_Put (p : list string) : put_ids (F:=F) (Put <$> p) = p.
Proof. induction p as [|u p IH]; csimpl; congruence. Qed.

Lemma gpu_calls_Put (p : list string) : gpu_calls (F:=F) (Put <$> p) = 0%nat.
Proof. induction p as [|u p IH]; csimpl; congruence. Qed.

Lemma cpu_calls_Put (p : list string) : cpu_calls (F:=F) (Put <$> p) = 0%nat.
Proof. induction p as [|u p IH]; csimpl; congruence. Qed.

Lemma submitted_Put (p : list string) : submitted (F:=F) (Put <$> p) = [].
Proof. induction p as [|u p IH]; csimpl; congruence. Qed.

Lemma flushed_Put (p : list string) : flushed (F:=F) (Put <$> p) = [].
Proof. induction p as [|u p IH]; csimpl; congruence. Qed.

Lemma storing_exhaustions_Put (p : list string) :
  storing_exhaustions (F:=F) (Put <$> p) = 0%nat.
Proof. induction p as [|u p IH]; csimpl; congruence. Qed.

(** One event that is neither a write nor a flush, after a change of the
    world. *)
Lemma writes_step w ev st :
  put_ids [ev] = [] → writes st (log ev (set_world w st)) [ev].
Proof.
  intros Hp. change [ev] with ([] ++ [ev]).
  eapply writes_trans; [apply (writes_set_world w)|apply writes_log; exact Hp].
Qed.

(** The loop writes a prefix of [ids], one [Put] each; it stops early only
    when line 123-126 raise for the next member, and the exception is then
    the last event. *)
Lemma store_loop_effect b ids reps lens pp st st' r :
  store_loop b ids reps lens pp st = (st', r) →
  ∃ p tl, writes st st' ((Put <$> p) ++ tl)
    ∧ p `prefix_of` ids
    ∧ match r with
      | None => p = ids ∧ tl = []
      | Some e => ∃ uid, ids !! length p = Some uid ∧ tl = [GpuStoreFail uid e]
      end.
Proof.
  revert b st. induction ids as [|uid ids IH]; intros b st Hrun; simpl in Hrun.
  - inversion Hrun; subst. exists [], []. split; [apply writes_refl|].
    split; [apply prefix_nil|]. auto.
  - destruct (lens !! b) as [len|].
    2:{ inversion Hrun; subst. exists [], [GpuStoreFail uid list_index_error].
        split; [apply writes_log; reflexivity|].
        split; [apply prefix_nil|]. exists uid. auto. }
    destruct (t_rows reps !! b) as [rep|].
    2:{ inversion Hrun; subst.
        exists [], [GpuStoreFail uid (tensor_index_error b (length (t_rows reps)))].
        split; [apply writes_log; reflexivity|].
        split; [apply prefix_nil|]. exists uid. auto. }
    destruct (gpu_extract (world st) pp rep len) as [[e|] w] eqn:Hx.
    { inversion Hrun; subst. exists [], [GpuStoreFail uid e].
      split; [apply writes_step; reflexivity|].
      split; [apply prefix_nil|]. exists uid. auto. }
    apply IH in Hrun as (p & tl & Hw & Hp & Hr).
    exists (uid :: p), tl. split.
    + change ((Put <$> uid :: p) ++ tl)
        with ([] ++ [Put (F:=F) uid] ++ ((Put <$> p) ++ tl)).
      eapply writes_trans; [apply (writes_set_world w)|].
      eapply writes_trans; [apply writes_put|exact Hw].
    + split; [apply prefix_cons; exact Hp|].
      destruct r as [e|].
      * destruct Hr as (u & Hu & ->). exists u. auto.
      * destruct Hr as [-> ->]. auto.
Qed.


(** What the [try] body does: one encoder call, then a prefix of the
    members written.  When it raises, the raising step is the last event;
    when the exception is an out-of-memory error that does not come from
    the storing loop, nothing was written. *)
Lemma try_block_effect ids seqs lens pp st st' r :
  try_block ids seqs lens pp st = (st', r) →
  ∃ tr, writes st st' tr
    ∧ put_ids tr `prefix_of` ids
    ∧ gpu_calls tr = 1%nat ∧ cpu_calls tr = 0%nat
    ∧ submitted tr = [] ∧ flushed tr = []
    ∧ Forall primary_event tr
    ∧ match r with
      | None => put_ids tr = ids ∧ storing_exhaustions tr = 0%nat
      | Some e =>
          (∃ tr0 ev, tr = tr0 ++ [ev]
                     ∧ (is_oom e = false → primary_failure e ev))
          ∧ (is_oom e = true → storing_exhaustions tr = 0%nat → put_ids tr = [])
      end.
Proof.
  unfold try_block. intros Hrun.
  destruct (gpu_forward (world st) seqs) as [[reps|e] w] eqn:Hg.
  - apply store_loop_effect in Hrun as (p & tl & Hw & Hp & Hr).
    exists ([GpuCall seqs None] ++ (Put <$> p) ++ tl). split.
    { eapply writes_trans; [apply writes_step; reflexivity|exact Hw]. }
    assert (Forall (primary_event (F:=F)) (Put <$> p)) as Hputs
      by (apply Forall_fmap, Forall_forall; intros u _; exact I).
    destruct r as [e|].
    + destruct Hr as (uid & _ & ->). simpl.
      rewrite put_ids_app, gpu_calls_app, cpu_calls_app, submitted_app,
        flushed_app, storing_exhaustions_app, put_ids_Put, gpu_calls_Put,
        cpu_calls_Put, submitted_Put, flushed_Put, storing_exhaustions_Put.
      simpl. rewrite app_nil_r.
      repeat (split; [done|]). split; [|split].
      * constructor; [exact I|]. apply Forall_app. split; [exact Hputs|].
        repeat constructor.
      * exists (GpuCall seqs None :: (Put <$> p)), (GpuStoreFail uid e).
        split; [reflexivity|]. simpl. auto.
      * intros ->. simpl. discriminate.
    + destruct Hr as [-> ->]. simpl.
      rewrite !app_nil_r, put_ids_Put, gpu_calls_Put, cpu_calls_Put,
        submitted_Put, flushed_Put, storing_exhaustions_Put.
      repeat (split; [done|]). split; [|done].
      constructor; [exact I|exact Hputs].
  - inversion Hrun; subst. exists [GpuCall seqs (Some e)].
    split; [apply writes_step; reflexivity|]. simpl.
    split; [apply prefix_nil|].
    repeat (split; [done|]). split; [repeat constructor|]. split; [|done].
    exists [], (GpuCall seqs (Some e)). split; [reflexivity|]. simpl. auto.
Qed.

(** The CPU fallback of a unit of at most one member. *)
Lemma cpu_fallback_effect ids seqs lens pp st st' r :
  (length ids ≤ 1)%nat →
  cpu_fallback ids seqs lens pp st = (st', r) →
  ∃ tr, writes st st' tr
        ∧ put_ids tr `prefix_of` ids
        ∧ (r = None → put_ids tr = ids)
        ∧ gpu_calls tr = 0%nat
        ∧ (cpu_calls tr ≤ length ids)%nat
        ∧ submitted tr = [] ∧ flushed tr = []
        ∧ storing_exhaustions tr = 0%nat.
Proof.
  intros Hlen Hrun. unfold cpu_fallback in Hrun.
  destruct ids as [|uid ids].
  { inversion Hrun; subst. exists []. split; [apply writes_refl|].
    repeat split; auto; discriminate. }
  assert (ids = []) as -> by (destruct ids; [reflexivity|simpl in Hlen; lia]).
  destruct (cpu_forward (world st) seqs) as [[reps|e] w] eqn:Hc.
  2:{ inversion Hrun; subst. exists [CpuCall seqs (Some e)].
      split; [apply writes_step; reflexivity|].
      simpl. repeat split; auto; try discriminate; try apply prefix_nil. }
  assert (writes st (log (CpuCall seqs None) (set_world w st)) [CpuCall seqs None])
    as Hw1 by (apply writes_step; reflexivity).
  destruct (lens !! 0%nat) as [len|].
  2:{ inversion Hrun; subst.
      exists ([CpuCall seqs None] ++ [CpuStoreFail uid list_index_error]).
      split; [eapply writes_trans; [exact Hw1|apply writes_log; reflexivity]|].
      simpl. repeat split; auto; try discriminate; try apply prefix_nil. }
  destruct (t_rows reps !! 0%nat) as [rep|].
  2:{ inversion Hrun; subst.
      exists ([CpuCall seqs None]
              ++ [CpuStoreFail uid (tensor_index_error 0 (length (t_rows reps)))]).
      split; [eapply writes_trans; [exact Hw1|apply writes_log; reflexivity]|].
      simpl. repeat split; auto; try discriminate; try apply prefix_nil. }
  simpl in Hrun.
  destruct (cpu_extract w pp rep len) as [[e|] wx] eqn:Hx.
  { inversion Hrun; subst.
    exists ([CpuCall seqs None] ++ [CpuStoreFail uid e]).
    split; [eapply writes_trans; [exact Hw1|apply writes_step; reflexivity]|].
    simpl. repeat split; auto; try discriminate; try apply prefix_nil. }
  match type of Hrun with context [to_device ?x] =>
    destruct (to_device x) as [r' w'] eqn:Ht end.
  inversion Hrun; subst.
  exists ([CpuCall seqs None] ++ ([] ++ [Put uid]) ++ [ToDevice r]).
  split.
  - eapply writes_trans; [exact Hw1|].
    eapply writes_trans;
      [eapply writes_trans; [apply (writes_set_world wx)|apply writes_put]|].
    apply writes_step; reflexivity.
  - simpl. repeat split; auto.
Qed.

(** What a call of [safe_embed] does, for every encoder: it writes members
    of [ids] only, all of them when it returns normally; as long as the
    storing loop is not left by an out-of-memory error the members are
    written once each and in order; it calls the GPU at most
    [2 * len(ids) - 1] times and the CPU at most [len(ids)] times. *)
Lemma safe_embed_rec_effect fuel ids seqs lens pp st st' r :
  (length ids ≤ fuel)%nat →
  safe_embed_rec fuel ids seqs lens pp st = (st', r) →
  ∃ tr, writes st st' tr
        ∧ (∀ uid, uid ∈ put_ids tr → uid ∈ ids)
        ∧ (r = None → ∀ uid, uid ∈ ids → uid ∈ put_ids tr)
        ∧ (storing_exhaustions tr = 0%nat →
           put_ids tr `prefix_of` ids ∧ (r = None → put_ids tr = ids))
        ∧ (gpu_calls tr + 1 ≤ 2 * Nat.max 1 (length ids))%nat
        ∧ (cpu_calls tr ≤ length ids)%nat
        ∧ submitted tr = [] ∧ flushed tr = [].
Proof.
  revert ids seqs lens st st' r.
  induction fuel as [|fuel IH]; intros ids seqs lens st st' r Hfuel Hrun;
    simpl in Hrun;
    destruct (try_block ids seqs lens pp st) as [st1 [e|]] eqn:Htry;
    apply try_block_effect in Htry
      as (tr0 & Hw0 & Hp0 & Hg0 & Hc0 & Hs0 & Hf0 & _ & Hr0).
  2,4: inversion Hrun; subst; destruct Hr0 as [Hall Hx0];
    exists tr0; rewrite Hg0, Hc0, Hall;
    (split; [exact Hw0|]); repeat split; auto; lia.
  all: destruct Hr0 as [_ Hnone].
  all: assert (∀ uid, uid ∈ put_ids tr0 → uid ∈ ids) as Hin0
    by (intros uid Hin; eapply elem_of_prefix; eauto).
  all: destruct (is_oom e) eqn:Hoom;
    [| inversion Hrun; subst; exists tr0; rewrite Hg0, Hc0;
       (split; [exact Hw0|]); repeat split; auto; try discriminate; lia ].
  all: specialize (Hnone eq_refl).
  all: destruct (1 <? length ids)%nat eqn:Hlen;
    [ apply Nat.ltb_lt in Hlen | apply Nat.ltb_ge in Hlen ].
  - lia.
  - apply cpu_fallback_effect in Hrun
      as (tr & Hw & Hp & Hall & Hg & Hc & Hs & Hf & Hx); [|exact Hlen].
    exists (tr0 ++ [] ++ tr). split.
    + eapply writes_trans; [exact Hw0|].
      eapply writes_trans; [apply writes_set_world|exact Hw].
    + simpl. rewrite put_ids_app, gpu_calls_app, cpu_calls_app, submitted_app,
        flushed_app, storing_exhaustions_app, Hg0, Hc0, Hs0, Hf0, Hg, Hs, Hf, Hx.
      split; [|split; [|split]].
      * intros uid Hin. apply elem_of_app in Hin as [Hin|Hin]; [auto|].
        eapply elem_of_prefix; eauto.
      * intros Hr uid Hin. apply elem_of_app. right.
        rewrite (Hall Hr). exact Hin.
      * intros Hz. rewrite Nat.add_0_r in Hz. rewrite (Hnone Hz). simpl. auto.
      * repeat split; auto; lia.
  - change (Nat.divmod (length ids) 1 0 1).1 with (length ids / 2)%nat in Hrun.
    set (mid := (length ids / 2)%nat) in *.
    assert (1 ≤ mid ∧ mid < length ids)%nat as [Hm1 Hm2]
      by (subst mid; split; [apply Nat.div_le_lower_bound|apply Nat.div_lt]; lia).
    match type of Hrun with context [safe_embed_rec fuel ?a ?b ?c ?d ?s] =>
      destruct (safe_embed_rec fuel a b c d s) as [st3 r1] eqn:Hleft end.
    apply IH in Hleft
      as (tr1 & Hwl & Hinl & Halll & Hxl & Hgl & Hcl & Hsl & Hfl);
      [|rewrite length_take; lia].
    rewrite length_take in Hgl, Hcl.
    destruct r1 as [e1|].
    + inversion Hrun; subst.
      exists (tr0 ++ [] ++ tr1). split.
      * eapply writes_trans; [exact Hw0|].
        eapply writes_trans; [apply writes_set_world|exact Hwl].
      * simpl. rewrite put_ids_app, gpu_calls_app, cpu_calls_app, submitted_app,
          flushed_app, storing_exhaustions_app, Hg0, Hc0, Hs0, Hf0, Hsl, Hfl.
        split; [|split; [|split]].
        -- intros uid Hin. apply elem_of_app in Hin as [Hin|Hin]; [auto|].
           apply (subseteq_take mid ids), Hinl, Hin.
        -- discriminate.
        -- intros Hz.
           assert (storing_exhaustions tr0 = 0 ∧ storing_exhaustions tr1 = 0)%nat
             as [Hz0 Hz1] by lia.
           rewrite (Hnone Hz0). simpl. split; [|discriminate].
           etransitivity; [apply (Hxl Hz1)|apply prefix_take].
        -- repeat split; auto; lia.
    + apply IH in Hrun
        as (tr2 & Hwr & Hinr & Hallr & Hxr & Hgr & Hcr & Hsr & Hfr);
        [|rewrite length_drop; lia].
      rewrite length_drop in Hgr, Hcr.
      exists (tr0 ++ [] ++ tr1 ++ tr2). split.
      * eapply writes_trans; [exact Hw0|].
        eapply writes_trans; [apply writes_set_world|].
        eapply writes_trans; [exact Hwl|exact Hwr].
      * simpl. rewrite !put_ids_app, !gpu_calls_app, !cpu_calls_app,
          !submitted_app, !flushed_app, !storing_exhaustions_app,
          Hg0, Hc0, Hs0, Hf0, Hsl, Hsr, Hfl, Hfr.
        split; [|split; [|split]].
        -- intros uid Hin. rewrite !elem_of_app in Hin.
           destruct Hin as [Hin|[Hin|Hin]]; [auto| |].
           ++ apply (subseteq_take mid ids), Hinl, Hin.
           ++ apply (subseteq_drop mid ids), Hinr, Hin.
        -- intros Hr uid Hin. rewrite <- (take_drop mid ids) in Hin.
           rewrite !elem_of_app. apply elem_of_app in Hin as [Hin|Hin].
           ++ right. left. apply (Halll eq_refl), Hin.
           ++ right. right. apply (Hallr Hr), Hin.
        -- intros Hz.
           assert (storing_exhaustions tr0 = 0 ∧ storing_exhaustions tr1 = 0
                   ∧ storing_exhaustions tr2 = 0)%nat
             as (Hz0 & Hz1 & Hz2) by lia.
           rewrite (Hnone Hz0). simpl.
           destruct (Hxl Hz1) as [_ Hel]. rewrite (Hel eq_refl).
           destruct (Hxr Hz2) as [[k Hk] Her]. split.
           ++ exists k. rewrite <- (take_drop mid ids) at 1.
              rewrite Hk, app_assoc. reflexivity.
           ++ intros Hr. rewrite (Her Hr). apply take_drop.
        -- repeat split; auto; lia.
  - apply cpu_fallback_effect in Hrun
      as (tr & Hw & Hp & Hall & Hg & Hc & Hs & Hf & Hx); [|exact Hlen].
    exists (tr0 ++ [] ++ tr). split.
    + eapply writes_trans; [exact Hw0|].
      eapply writes_trans; [apply writes_set_world|exact Hw].
    + simpl. rewrite put_ids_app, gpu_calls_app, cpu_calls_app, submitted_app,
        flushed_app, storing_exhaustions_app, Hg0, Hc0, Hs0, Hf0, Hg, Hs, Hf, Hx.
      split; [|split; [|split]].
      * intros uid Hin. apply elem_of_app in Hin as [Hin|Hin]; [auto|].
        eapply elem_of_prefix; eauto.
      * intros Hr uid Hin. apply elem_of_app. right.
        rewrite (Hall Hr). exact Hin.
      * intros Hz. rewrite Nat.add_0_r in Hz. rewrite (Hnone Hz). simpl. auto.
      * repeat split; auto; lia.
Qed.

(** The recursion never runs out of fuel: any fuel of at least [len(ids)]
    gives the same run, so [recursion_error] is never raised by
    [safe_embed]. *)
Lemma safe_embed_rec_fuel fuel fuel' ids seqs lens pp st :
  (length ids ≤ fuel)%nat → (length ids ≤ fuel')%nat →
  safe_embed_rec fuel ids seqs lens pp st
  = safe_embed_rec fuel' ids seqs lens pp st.
Proof.
  revert fuel' ids seqs lens st.
  induction fuel as [|fuel IH]; intros [|fuel'] ids seqs lens st Hf Hf';
    simpl; try reflexivity;
    destruct (try_block ids seqs lens pp st) as [st1 [e|]]; try reflexivity;
    destruct (is_oom e); try reflexivity;
    destruct (1 <? length ids)%nat eqn:Hlen; try reflexivity;
    apply Nat.ltb_lt in Hlen; try lia.
  change (Nat.divmod (length ids) 1 0 1).1 with (length ids / 2)%nat.
  set (mid := (length ids / 2)%nat).
  assert (1 ≤ mid ∧ mid < length ids)%nat as [Hm1 Hm2]
    by (subst mid; split; [apply Nat.div_le_lower_bound|apply Nat.div_lt]; lia).
  rewrite (IH fuel') by (rewrite length_take; lia).
  destruct (safe_embed_rec fuel' (take mid ids) (take mid seqs) (take mid lens)
              pp _) as [st3 [e1|]]; [reflexivity|].
  apply IH; rewrite length_drop; lia.
Qed.


(** When the fallback fails, the failing step is the last one. *)
Lemma cpu_fallback_cause ids seqs lens pp st st' e :
  cpu_fallback ids seqs lens pp st = (st', Some e) →
  (ids = [] ∧ e = list_index_error)
  ∨ ∃ tr0 ev, trace st' = trace st ++ tr0 ++ [ev] ∧ secondary_failure e ev.
Proof.
  unfold cpu_fallback. intros Hrun.
  destruct ids as [|uid ids]; [inversion Hrun; auto|]. right.
  destruct (cpu_forward (world st) seqs) as [[reps|e0] w] eqn:Hc.
  2:{ inversion Hrun; subst. exists [], (CpuCall seqs (Some e)).
      split; reflexivity. }
  destruct (lens !! 0%nat) as [len|].
  2:{ inversion Hrun; subst.
      exists [CpuCall seqs None], (CpuStoreFail uid list_index_error).
      split; [|reflexivity]. simpl. rewrite <- !app_assoc. reflexivity. }
  destruct (t_rows reps !! 0%nat) as [rep|].
  2:{ inversion Hrun; subst.
      exists [CpuCall seqs None],
        (CpuStoreFail uid (tensor_index_error 0 (length (t_rows reps)))).
      split; [|reflexivity]. simpl. rewrite <- !app_assoc. reflexivity. }
  simpl in Hrun.
  destruct (cpu_extract w pp rep len) as [[e1|] wx] eqn:Hx.
  { inversion Hrun; subst. exists [CpuCall seqs None], (CpuStoreFail uid e).
    split; [|reflexivity]. simpl. rewrite <- !app_assoc. reflexivity. }
  match type of Hrun with context [to_device ?x] =>
    destruct (to_device x) as [r' w'] eqn:Ht end.
  inversion Hrun; subst.
  exists [CpuCall seqs None; Put uid], (ToDevice (Some e)).
  split; [|reflexivity]. simpl. rewrite <- !app_assoc. reflexivity.
Qed.


(** Why a call fails, whatever the encoder does: the exception is the one
    raised by the last step of the run, unchanged.  That step is one of the
    primary device that raised something else than an out-of-memory error,
    or a step of the CPU fallback. *)
Lemma safe_embed_rec_cause fuel ids seqs lens pp st st' e :
  (length ids ≤ fuel)%nat →
  safe_embed_rec fuel ids seqs lens pp st = (st', Some e) →
  (ids = [] ∧ e = list_index_error)
  ∨ ∃ tr0 ev, trace st' = trace st ++ tr0 ++ [ev]
              ∧ (primary_failure e ev ∨ secondary_failure e ev).
Proof.
  revert ids seqs lens st st'.
  induction fuel as [|fuel IH]; intros ids seqs lens st st' Hfuel Hrun;
    simpl in Hrun;
    destruct (try_block ids seqs lens pp st) as [st1 [e0|]] eqn:Htry;
    try discriminate;
    apply try_block_effect in Htry
      as (tr0 & (Ht0 & _) & _ & _ & _ & _ & _ & _ & (tr00 & ev0 & -> & Hev0) & _).
  all: destruct (is_oom e0) eqn:Hoom;
    [| inversion Hrun; subst; right; exists tr00, ev0; split; [exact Ht0|];
       left; apply Hev0; reflexivity ].
  all: destruct (1 <? length ids)%nat eqn:Hlen;
    [ apply Nat.ltb_lt in Hlen | apply Nat.ltb_ge in Hlen ].
  1: lia.
  2:{ change (Nat.divmod (length ids) 1 0 1).1 with (length ids / 2)%nat in Hrun.
      set (mid := (length ids / 2)%nat) in *.
      assert (1 ≤ mid ∧ mid < length ids)%nat as [Hm1 Hm2]
        by (subst mid; split; [apply Nat.div_le_lower_bound|apply Nat.div_lt]; lia).
      match type of Hrun with context [safe_embed_rec fuel ?a ?b ?c ?d ?s] =>
        destruct (safe_embed_rec fuel a b c d s) as [st3 r1] eqn:Hleft end.
      right. destruct r1 as [e1|].
      - inversion Hrun; subst.
        apply IH in Hleft as [[Hnil _]|(tr1 & ev & Ht & Hev)];
          [| |rewrite length_take; lia].
        { apply (f_equal length) in Hnil. rewrite length_take in Hnil.
          simpl in Hnil. lia. }
        exists ((tr00 ++ [ev0]) ++ tr1), ev. split; [|exact Hev].
        rewrite Ht. simpl. rewrite Ht0, <- !app_assoc. reflexivity.
      - apply safe_embed_rec_effect in Hleft as (tr1 & (Ht1 & _) & _);
          [|rewrite length_take; lia].
        apply IH in Hrun as [[Hnil _]|(tr2 & ev & Ht & Hev)];
          [| |rewrite length_drop; lia].
        { apply (f_equal length) in Hnil. rewrite length_drop in Hnil.
          simpl in Hnil. lia. }
        exists ((tr00 ++ [ev0]) ++ tr1 ++ tr2), ev. split; [|exact Hev].
        rewrite Ht, Ht1. simpl. rewrite Ht0, <- !app_assoc. reflexivity. }
  all: apply cpu_fallback_cause in Hrun as [?|(tr1 & ev & Ht & Hev)];
    [left; assumption|].
  all: right; exists ((tr00 ++ [ev0]) ++ tr1), ev;
    split; [|right; exact Hev];
    rewrite Ht; simpl; rewrite Ht0, <- !app_assoc; reflexivity.
Qed.



(** With an encoder that signals exhaustion on every batch and a secondary
    path that never fails, the recursion goes down to every singleton. *)
Lemma safe_embed_rec_worst fuel ids seqs lens pp st st' r :
  always_exhausts gpu_forward → never_fails cpu_forward cpu_extract to_device →
  well_shaped cpu_forward →
  (length ids ≤ fuel)%nat → ids ≠ [] →
  length seqs = length ids → length lens = length ids →
  safe_embed_rec fuel ids seqs lens pp st = (st', r) →
  r = None
  ∧ ∃ tr, trace st' = trace st ++ tr
          ∧ gpu_calls tr = (2 * length ids - 1)%nat
          ∧ cpu_calls tr = length ids.
Proof.
  intros Hgpu (Hcpu & Hext & Hdev) Hshape. revert ids seqs lens st st' r.
  induction fuel as [|fuel IH];
    intros ids seqs lens st st' r Hfuel Hne Hs Hl Hrun; simpl in Hrun;
    unfold try_block in Hrun;
    destruct (Hgpu (world st) seqs) as (e0 & Hg1 & Hoom);
    destruct (gpu_forward (world st) seqs) as [r0 w] eqn:Hg;
    simpl in Hg1; subst r0; rewrite Hoom in Hrun.
  all: destruct (1 <? length ids)%nat eqn:Hlen;
    [ apply Nat.ltb_lt in Hlen | apply Nat.ltb_ge in Hlen ].
  1: lia.
  2:{ change (Nat.divmod (length ids) 1 0 1).1 with (length ids / 2)%nat in Hrun.
      set (mid := (length ids / 2)%nat) in *.
      assert (1 ≤ mid ∧ mid < length ids)%nat as [Hm1 Hm2]
        by (subst mid; split; [apply Nat.div_le_lower_bound|apply Nat.div_lt]; lia).
      match type of Hrun with context [safe_embed_rec fuel ?a ?b ?c ?d ?s] =>
        destruct (safe_embed_rec fuel a b c d s) as [st3 r1] eqn:Hleft end.
      apply IH in Hleft as (-> & tr1 & Ht1 & Hg1 & Hc1);
        rewrite ?length_take; try lia.
      2:{ intros Hnil. apply (f_equal length) in Hnil.
          rewrite length_take in Hnil. simpl in Hnil. lia. }
      apply IH in Hrun as (-> & tr2 & Ht2 & Hg2 & Hc2);
        rewrite ?length_drop; try lia.
      2:{ intros Hnil. apply (f_equal length) in Hnil.
          rewrite length_drop in Hnil. simpl in Hnil. lia. }
      split; [reflexivity|].
      exists (GpuCall seqs (Some e0) :: tr1 ++ tr2).
      rewrite Ht2, Ht1. simpl.
      rewrite gpu_calls_app, cpu_calls_app, Hg1, Hg2, Hc1, Hc2,
        length_take, length_drop, <- !app_assoc.
      split; [reflexivity|]. lia. }
  all: destruct ids as [|uid [|]]; [congruence| |simpl in Hlen; lia].
  all: unfold cpu_fallback in Hrun; simpl in Hrun.
  all: destruct (Hcpu (empty_cache w) seqs) as [reps Hc1].
  all: pose proof (Hshape (empty_cache w) seqs reps Hc1) as Hrows.
  all: destruct (cpu_forward (empty_cache w) seqs) as [rc w1] eqn:Hc;
    simpl in Hc1; subst rc.
  all: destruct (lookup_lt_is_Some_2 lens 0%nat) as [len Hlen0];
    [simpl in Hl; lia|].
  all: destruct (lookup_lt_is_Some_2 (t_rows reps) 0%nat) as [rep Hrep];
    [simpl in Hs; lia|].
  all: rewrite Hlen0, Hrep in Hrun; simpl in Hrun.
  all: pose proof (Hext w1 pp rep len) as Hx1.
  all: destruct (cpu_extract w1 pp rep len) as [rx wx] eqn:Hx;
    simpl in Hx1; subst rx.
  all: pose proof (Hdev wx) as Hd1.
  all: destruct (to_device wx) as [rd w2] eqn:Hd; simpl in Hd1; subst rd.
  all: inversion Hrun; subst; split; [reflexivity|].
  all: exists [GpuCall seqs (Some e0); CpuCall seqs None; Put uid; ToDevice None].
  all: simpl; rewrite <- !app_assoc; auto.
Qed.


(** C4: on a work unit of [n >= 1] members, [safe_embed] invokes the encoder
    on the primary device at most [2 * n - 1] times, whatever the encoder
    does; the bound is reached when every invocation signals exhaustion and
    the secondary path answers every singleton.  The calls of the secondary
    path are counted apart: there are at most [n] of them. *)
Theorem safe_embed_gpu_calls_bound ids seqs lens pp st :
  (1 ≤ length ids)%nat →
  ∃ tr, trace (safe_embed ids seqs lens pp st).1 = trace st ++ tr
    ∧ (gpu_calls tr ≤ 2 * length ids - 1)%nat
    ∧ (cpu_calls tr ≤ length ids)%nat
    ∧ (always_exhausts gpu_forward →
       never_fails cpu_forward cpu_extract to_device →
       well_shaped cpu_forward →
       length seqs = length ids → length lens = length ids →
       gpu_calls tr = (2 * length ids - 1)%nat).
Proof.
  intros Hn. unfold safe_embed.
  destruct (safe_embed_rec (length ids) ids seqs lens pp st) as [st' r] eqn:Hrun.
  simpl. pose proof Hrun as Hrun'.
  apply safe_embed_rec_effect in Hrun
    as (tr & Hw & _ & _ & _ & Hg & Hc & _); [|lia].
  exists tr. split; [apply Hw|]. split; [lia|]. split; [exact Hc|].
  intros Hgpu Hcpu Hshape Hs Hl.
  apply safe_embed_rec_worst in Hrun' as (_ & tr' & Ht' & Hg' & _); auto.
  - rewrite <- (writes_trace _ _ _ _ Hw Ht'). exact Hg'.
  - intros ->. simpl in Hn. lia.
Qed.






(** C5, amended: storing a result under an identifier that is already in the
    store raises nothing and replaces the entry (the last write wins): when
    the encoder answers for a one-member unit and the vector is extracted,
    [safe_embed] returns normally and the store holds the new result,
    whatever was there before. *)
Theorem put_overwrites_silently uid seq len pp st old reps w rep w' :
  emb_dict st !! uid = Some old →
  gpu_forward (world st) [seq] = (Ok reps, w) →
  t_rows reps !! 0%nat = Some rep →
  gpu_extract w pp rep len = (None, w') →
  (safe_embed [uid] [seq] [len] pp st).2 = None
  ∧ emb_dict (safe_embed [uid] [seq] [len] pp st).1 !! uid
    = Some (pool Fmean pp (t_hidden reps) len rep)
  ∧ ∀ u, u ≠ uid →
      emb_dict (safe_embed [uid] [seq] [len] pp st).1 !! u = emb_dict st !! u.
Proof.
  intros _ Hg Hrep Hx. unfold safe_embed. simpl. unfold try_block.
  rewrite Hg. simpl. rewrite Hrep. simpl. rewrite Hx. simpl.
  split; [reflexivity|]. split.
  - apply lookup_insert_eq.
  - intros u Hu. apply lookup_insert_ne. congruence.
Qed.

(** What the loop leaves in the store for each member. *)
Lemma store_loop_lookup b ids reps lens pp st st' :
  store_loop b ids reps lens pp st = (st', None) → NoDup ids →
  ∀ k uid, ids !! k = Some uid →
    ∃ len rep, lens !! (b + k)%nat = Some len
      ∧ t_rows reps !! (b + k)%nat = Some rep
      ∧ emb_dict st' !! uid = Some (pool Fmean pp (t_hidden reps) len rep).
Proof.
  revert b st. induction ids as [|u ids IH]; intros b st Hrun Hnd k uid Hk.
  - rewrite lookup_nil in Hk. discriminate.
  - simpl in Hrun.
    destruct (lens !! b) as [len|] eqn:Hlen; [|discriminate].
    destruct (t_rows reps !! b) as [rep|] eqn:Hrep; [|discriminate].
    destruct (gpu_extract (world st) pp rep len) as [[e|] w] eqn:Hx;
      [discriminate|].
    apply NoDup_cons in Hnd as [Hu Hnd].
    destruct k as [|k]; simpl in Hk.
    + inversion Hk; subst u. rewrite Nat.add_0_r.
      exists len, rep. split; [exact Hlen|]. split; [exact Hrep|].
      apply store_loop_effect in Hrun
        as (p & tl & (_ & _ & _ & Hkeep) & _ & -> & ->).
      rewrite Hkeep by (rewrite app_nil_r, put_ids_Put; exact Hu).
      apply lookup_insert_eq.
    + replace (b + S k)%nat with (S b + k)%nat by lia.
      eapply IH; eauto.
Qed.

(** Rows past the true length do not count. *)
Lemma pool_padding pp H len (rep pad : list (list F)) :
  (len ≤ length rep)%nat →
  pool Fmean pp H len (rep ++ pad) = pool Fmean pp H len rep.
Proof.
  intros Hlen. unfold pool, truncate. rewrite take_app_le by exact Hlen.
  reflexivity.
Qed.

(** With encoders that work member by member, a call that returns has left
    for each member the pooling of its own encoding, whatever was stored
    and overwritten on the way. *)
Lemma safe_embed_rec_values H enc fuel ids seqs lens pp st st' :
  memberwise H enc gpu_forward → memberwise H enc cpu_forward →
  (length ids ≤ fuel)%nat → NoDup ids →
  length seqs = length ids → length lens = length ids →
  Forall2 (fun s len => (len ≤ length (enc s))%nat) seqs lens →
  safe_embed_rec fuel ids seqs lens pp st = (st', None) →
  ∀ k uid s len,
    ids !! k = Some uid → seqs !! k = Some s → lens !! k = Some len →
    emb_dict st' !! uid = Some (pool Fmean pp H len (enc s)).
Proof.
  intros Hgpu Hcpu. revert ids seqs lens st st'.
  induction fuel as [|fuel IH];
    intros ids seqs lens st st' Hfuel Hnd Hs Hl Hfit Hrun k uid s len Hk Hsk Hlk;
    simpl in Hrun;
    destruct (try_block ids seqs lens pp st) as [st1 [e0|]] eqn:Htry.
  2,4: inversion Hrun; subst st1; unfold try_block in Htry;
    destruct (gpu_forward (world st) seqs) as [[reps|e0] w] eqn:Hg;
    [|discriminate];
    destruct (Hgpu _ _ _ _ Hg) as [HH Hrows];
    destruct (store_loop_lookup _ _ _ _ _ _ _ Htry Hnd k uid Hk)
      as (len' & rep & Hlen' & Hrep & Hv);
    simpl in Hlen', Hrep; rewrite Hlk in Hlen'; inversion Hlen'; subst len';
    destruct (Forall2_lookup_lr _ _ _ _ _ _ Hrows Hsk Hrep) as [pad ->];
    rewrite Hv, HH, pool_padding; [reflexivity|];
    apply (Forall2_lookup_lr _ _ _ _ _ _ Hfit Hsk Hlk).
  all: destruct (is_oom e0); [|discriminate].
  all: destruct (1 <? length ids)%nat eqn:Hlen;
    [ apply Nat.ltb_lt in Hlen | apply Nat.ltb_ge in Hlen ].
  1: lia.
  2:{ change (Nat.divmod (length ids) 1 0 1).1 with (length ids / 2)%nat in Hrun.
      set (mid := (length ids / 2)%nat) in *.
      assert (1 ≤ mid ∧ mid < length ids)%nat as [Hm1 Hm2]
        by (subst mid; split; [apply Nat.div_le_lower_bound|apply Nat.div_lt]; lia).
      match type of Hrun with context [safe_embed_rec fuel ?a ?b ?c ?d ?s] =>
        destruct (safe_embed_rec fuel a b c d s) as [st3 r1] eqn:Hleft end.
      destruct r1 as [e1|]; [discriminate|].
      rewrite <- (take_drop mid ids) in Hnd.
      apply NoDup_app in Hnd as (Hndl & Hdisj & Hndr).
      destruct (decide (k < mid)%nat) as [Hlt|Hge].
      - pose proof Hrun as Hright.
        apply safe_embed_rec_effect in Hright
          as (tr2 & (_ & _ & _ & Hkeep) & Hin2 & _);
          [|rewrite length_drop; lia].
        rewrite Hkeep.
        + apply (IH (take mid ids) (take mid seqs) (take mid lens) _ st3
                   ltac:(rewrite length_take; lia) Hndl
                   ltac:(rewrite !length_take; lia)
                   ltac:(rewrite !length_take; lia)
                   ltac:(apply Forall2_take; exact Hfit) Hleft k);
            rewrite lookup_take_lt by exact Hlt; assumption.
        + intros Hin. apply Hin2 in Hin. revert Hin. apply Hdisj.
          apply list_elem_of_lookup. exists k.
          rewrite lookup_take_lt by exact Hlt. exact Hk.
      - apply (IH (drop mid ids) (drop mid seqs) (drop mid lens) st3 st'
                 ltac:(rewrite length_drop; lia) Hndr
                 ltac:(rewrite !length_drop; lia)
                 ltac:(rewrite !length_drop; lia)
                 ltac:(apply Forall2_drop; exact Hfit) Hrun (k - mid)%nat);
          rewrite lookup_drop;
          (replace (mid + (k - mid))%nat with k by lia); assumption. }
  all: destruct ids as [|uid0 [|]]; try (simpl in Hlen; lia);
    [rewrite lookup_nil in Hk; discriminate|].
  all: destruct k as [|k]; [|rewrite lookup_cons, lookup_nil in Hk; discriminate].
  all: simpl in Hk; inversion Hk; subst uid0.
  all: unfold cpu_fallback in Hrun; simpl in Hrun.
  all: match type of Hrun with context [cpu_forward ?x ?y] =>
         destruct (cpu_forward x y) as [[reps|e1] w1] eqn:Hc end;
    [|discriminate].
  all: destruct (Hcpu _ _ _ _ Hc) as [HH Hrows].
  all: rewrite Hlk in Hrun.
  all: destruct (t_rows reps !! 0%nat) as [rep|] eqn:Hrep; [|discriminate].
  all: destruct (Forall2_lookup_lr _ _ _ _ _ _ Hrows Hsk Hrep) as [pad ->].
  all: simpl in Hrun.
  all: match type of Hrun with context [cpu_extract ?a ?b ?c ?d] =>
         destruct (cpu_extract a b c d) as [[ex|] wx] end; [discriminate|].
  all: match type of Hrun with context [to_device ?x] =>
         destruct (to_device x) as [r' w'] end.
  all: inversion Hrun; subst; simpl.
  all: rewrite lookup_insert_eq, pool_padding; [reflexivity|].
  all: apply (Forall2_lookup_lr _ _ _ _ _ _ Hfit Hsk Hlk).
Qed.

End EngineFacts.

(** ** Pooling *)

Section PoolingFacts.

Variable F : Type.
Variable Fmean : list F -> F.

Implicit Types rows rep : list (list F).

Lemma singletons_concat rows :
  Forall (fun r => length r = 1%nat) rows →
  map (fun x : F => [x]) (concat rows) = rows.
Proof.
  induction 1 as [|r rows Hr _ IH]; simpl; [reflexivity|].
  destruct r as [|x [|]]; simpl in Hr; try discriminate.
  simpl. rewrite IH. reflexivity.
Qed.

(** Undoing [squeeze] on a well-formed matrix gives its rows back. *)
Lemma positions_squeeze2 H rows :
  Forall (fun r => length r = H) rows →
  positions H (squeeze2 H rows) = rows.
Proof.
  intros Hwf. destruct rows as [|r [|r' rows]]; simpl.
  - destruct (H =? 1)%nat eqn:HH; simpl; rewrite ?HH; reflexivity.
  - apply Forall_inv in Hwf.
    destruct r as [|x [|y r]]; simpl in *; subst H; reflexivity.
  - destruct (H =? 1)%nat eqn:HH; simpl; [|reflexivity].
    rewrite HH. apply Nat.eqb_eq in HH. subst H.
    apply (singletons_concat (r :: r' :: rows)). exact Hwf.
Qed.

(** Column [j] of a well-formed matrix holds the [j]-th coordinate of every
    row, in order. *)
Lemma column_spec H j rows :
  Forall (fun r => length r = H) rows → (j < H)%nat →
  Forall2 (fun r x => r !! j = Some x) rows (column j rows).
Proof.
  intros Hwf Hj. induction Hwf as [|r rows Hr _ IH]; unfold column; simpl.
  - constructor.
  - destruct (lookup_lt_is_Some_2 r j) as [x Hx]; [lia|].
    rewrite Hx. simpl. constructor; [exact Hx|exact IH].
Qed.

Lemma mean_dim0_lookup H j rows :
  (j < H)%nat → mean_dim0 Fmean H rows !! j = Some (Fmean (column j rows)).
Proof.
  intros Hj. unfold mean_dim0.
  change (map ?f ?l) with (f <$> l). rewrite list_lookup_fmap.
  rewrite lookup_seq_lt by exact Hj. reflexivity.
Qed.

Lemma mean_dim0_length H rows : length (mean_dim0 Fmean H rows) = H.
Proof. unfold mean_dim0. rewrite length_map, length_seq. reflexivity. Qed.

(** The two modes of the pooling stage on the same encoder output. *)
Lemma pool_modes H len rep :
  Forall (fun r => length r = H) rep →
  positions H (pool Fmean false H len rep) = take len rep
  ∧ pool Fmean true H len rep
    = squeeze1 (mean_dim0 Fmean H (positions H (pool Fmean false H len rep)))
  ∧ ∀ j, (j < H)%nat →
      mean_dim0 Fmean H (take len rep) !! j
      = Some (Fmean (column j (take len rep)))
      ∧ Forall2 (fun r x => r !! j = Some x) (take len rep)
          (column j (take len rep)).
Proof.
  intros Hwf.
  assert (Forall (fun r => length r = H) (take len rep)) as Hwf'
    by (apply Forall_take; exact Hwf).
  assert (positions H (pool Fmean false H len rep) = take len rep) as Hpos
    by (apply positions_squeeze2; exact Hwf').
  split; [exact Hpos|]. split.
  - rewrite Hpos. reflexivity.
  - intros j Hj. split; [apply mean_dim0_lookup; exact Hj|].
    apply (column_spec H); assumption.
Qed.

End PoolingFacts.

Section OutputFacts.

Variable F : Type.
Variable Fmean : list F -> F.
Variable W : Type.
Variable gpu_forward : W -> list string -> result (tensor3 F) * W.
Variable gpu_extract : W -> bool -> list (list F) -> nat -> option exn * W.
Variable empty_cache : W -> W.
Variable cpu_forward : W -> list string -> result (tensor3 F) * W.
Variable cpu_extract : W -> bool -> list (list F) -> nat -> option exn * W.
Variable to_device : W -> option exn * W.

Local Abbreviation safe_embed :=
  (safe_embed F Fmean W gpu_forward gpu_extract empty_cache
   cpu_forward cpu_extract to_device).

(** C8: let [Tensor.mean] be the arithmetic mean of the number type (the
    sum of the values divided by their count) and let the encoders work
    member by member, with [H] coordinates per position.  Take a unit
    embedded once in per-protein mode and once in per-position mode, each
    time through whatever splits and CPU fallbacks.  For each member the
    per-position result is the encoding of its sequence cut to its true
    length, and the per-protein result is, coordinate by coordinate, the
    arithmetic mean over these positions. *)
Theorem per_protein_output_is_mean (Fadd : F → F → F) (Fzero : F)
    (Fdiv : F → nat → F) H enc ids seqs lens stA stB k uid s :
  (∀ l, Fmean l = arithmetic_mean Fadd Fzero Fdiv l) →
  memberwise H enc gpu_forward → memberwise H enc cpu_forward →
  Forall (fun r => length r = H) (enc s) →
  NoDup ids → length seqs = length ids → length lens = length ids →
  Forall2 (fun s len => (len ≤ length (enc s))%nat) seqs lens →
  (safe_embed ids seqs lens true stA).2 = None →
  (safe_embed ids seqs lens false stB).2 = None →
  ids !! k = Some uid → seqs !! k = Some s →
  ∃ len pooled per_position,
    lens !! k = Some len
    ∧ emb_dict (safe_embed ids seqs lens true stA).1 !! uid = Some pooled
    ∧ emb_dict (safe_embed ids seqs lens false stB).1 !! uid
      = Some per_position
    ∧ positions H per_position = take len (enc s)
    ∧ pooled
      = squeeze1
          (map (fun j =>
                  arithmetic_mean Fadd Fzero Fdiv
                    (column j (positions H per_position)))
             (seq 0 H))
    ∧ ∀ j, (j < H)%nat →
        Forall2 (fun r x => r !! j = Some x) (positions H per_position)
          (column j (positions H per_position)).
Proof.
  intros Hmean Hgpu Hcpu Hwf Hnd Hs Hl Hfit HokA HokB Hk Hsk.
  destruct (lookup_lt_is_Some_2 lens k) as [len Hlk].
  { rewrite Hl. eapply lookup_lt_Some; eauto. }
  unfold safe_embed in *.
  destruct (safe_embed_rec F Fmean W gpu_forward gpu_extract empty_cache
              cpu_forward cpu_extract to_device (length ids) ids seqs lens
              true stA) as [stA' rA] eqn:HrunA.
  destruct (safe_embed_rec F Fmean W gpu_forward gpu_extract empty_cache
              cpu_forward cpu_extract to_device (length ids) ids seqs lens
              false stB) as [stB' rB] eqn:HrunB.
  simpl in *. subst rA rB.
  pose proof (safe_embed_rec_values F Fmean W gpu_forward gpu_extract
                empty_cache cpu_forward cpu_extract to_device H enc _ _ _ _ _
                _ _ Hgpu Hcpu (Nat.le_refl _) Hnd Hs Hl Hfit HrunA
                k uid s len Hk Hsk Hlk) as HvA.
  pose proof (safe_embed_rec_values F Fmean W gpu_forward gpu_extract
                empty_cache cpu_forward cpu_extract to_device H enc _ _ _ _ _
                _ _ Hgpu Hcpu (Nat.le_refl _) Hnd Hs Hl Hfit HrunB
                k uid s len Hk Hsk Hlk) as HvB.
  destruct (pool_modes F Fmean H len (enc s) Hwf) as (Hpos & Hpool & Hcols).
  exists len, (pool Fmean true H len (enc s)),
    (pool Fmean false H len (enc s)).
  split; [exact Hlk|]. split; [exact HvA|]. split; [exact HvB|].
  split; [exact Hpos|]. split.
  - rewrite Hpool. unfold mean_dim0. f_equal.
    apply map_ext. intros j. apply Hmean.
  - intros j Hj. rewrite Hpos. apply (Hcols j Hj).
Qed.

End OutputFacts.

(** ** Persistence *)

Section PersistenceFacts.

Variable F : Type.
Variable Fstr : F -> string.

Implicit Types d : gmap string (ndarray F).

Lemma str_lt_trans a b c : str_lt a b → str_lt b c → str_lt a c.
Proof.
  unfold str_lt, String.ltb. intros Hab Hbc.
  destruct (String.compare a b) eqn:Eab; try discriminate.
  destruct (String.compare b c) eqn:Ebc; try discriminate.
  apply OrderedTypeEx.String_as_OT.cmp_lt in Eab, Ebc.
  pose proof (OrderedTypeEx.String_as_OT.lt_trans _ _ _ Eab Ebc) as Hac.
  apply OrderedTypeEx.String_as_OT.cmp_lt in Hac.
  unfold OrderedTypeEx.String_as_OT.cmp in Hac. rewrite Hac. reflexivity.
Qed.

Lemma str_le_lt a b : str_le a b → a ≠ b → str_lt a b.
Proof.
  unfold str_le, str_lt, String.leb, String.ltb. intros Hle Hne.
  destruct (String.compare a b) eqn:E; try discriminate; [|reflexivity].
  apply String.compare_eq_iff in E. contradiction.
Qed.

#[local] Instance str_le_total : Total str_le.
Proof. intros a b. apply String.leb_total. Qed.

#[local] Instance str_lt_transitive : Transitive str_lt.
Proof. intros a b c. apply str_lt_trans. Qed.

Lemma Sorted_le_NoDup_lt (l : list string) :
  Sorted str_le l → NoDup l → StronglySorted str_lt l.
Proof.
  intros Hs Hnd. apply Sorted_StronglySorted; [apply _|].
  induction Hs as [|a l Hs IH Hhd]; constructor.
  - apply IH. apply NoDup_cons in Hnd. tauto.
  - destruct Hhd as [|b l Hab]; constructor.
    apply str_le_lt; [exact Hab|].
    apply NoDup_cons in Hnd as [Hn _]. set_solver.
Qed.

(** The keys are written in strictly increasing order, each one once. *)
Lemma sorted_keys_spec d :
  StronglySorted str_lt (sorted_keys d)
  ∧ ∀ k, k ∈ sorted_keys d ↔ k ∈ dom d.
Proof.
  unfold sorted_keys. split.
  - apply Sorted_le_NoDup_lt; [apply Sorted_merge_sort; apply _|].
    rewrite merge_sort_Permutation. apply NoDup_elements.
  - intros k. rewrite merge_sort_Permutation. apply elem_of_elements.
Qed.

(** The entries of the store in the order of [sorted_keys]. *)
Lemma sorted_items d (keys : list string) :
  (∀ k, k ∈ keys → k ∈ dom d) →
  ∃ kvs : list (string * ndarray F),
    kvs.*1 = keys
    ∧ Forall (fun kv => d !! kv.1 = Some kv.2) kvs
    ∧ omap (fun uid => tsv_line Fstr uid <$> d !! uid) keys
      = map (fun kv => tsv_line Fstr kv.1 kv.2) kvs.
Proof.
  induction keys as [|k keys IH]; intros Hin.
  - exists []. repeat split; constructor.
  - destruct IH as (kvs & Hk & Hl & Ho); [intros; apply Hin; set_solver|].
    assert (k ∈ dom d) as Hd by (apply Hin; set_solver).
    apply elem_of_dom in Hd as [v Hv].
    exists ((k, v) :: kvs). csimpl. rewrite Hv. csimpl.
    split; [rewrite Hk; reflexivity|].
    split; [constructor; auto|rewrite Ho; reflexivity].
Qed.

(** C10: with an empty store [save_ids_and_embeddings_tsv] returns before
    opening the destination: the file system is unchanged, so the file is
    neither created nor truncated and what it held is still there. *)
Theorem flush_empty_store_untouched tsv_path (files : gmap string string) :
  save_ids_and_embeddings_tsv Fstr ∅ tsv_path files = files
  ∧ save_ids_and_embeddings_tsv Fstr ∅ tsv_path files !! tsv_path
    = files !! tsv_path.
Proof.
  unfold save_ids_and_embeddings_tsv.
  destruct (decide ((∅ : gmap string (ndarray F)) = ∅)); [auto|contradiction].
Qed.

(** C7, amended: with a non-empty store, [save_ids_and_embeddings_tsv]
    replaces whatever the destination held by the whole store: one line
    [uid TAB values NEWLINE] per entry, the values of the flattened array
    printed by [str] and separated by one space, the lines in strictly
    increasing order of identifier; no other file changes. *)
Theorem flush_rewrites_whole_store d tsv_path (files : gmap string string) :
  d ≠ ∅ →
  ∃ kvs : list (string * ndarray F),
    save_ids_and_embeddings_tsv Fstr d tsv_path files !! tsv_path
    = Some (String.concat ""
              (map (fun kv =>
                      kv.1 ++ tab
                      ++ join " " (map Fstr (reshape_flat kv.2)) ++ newline)%string
                 kvs))
    ∧ (∀ k v, (k, v) ∈ kvs ↔ d !! k = Some v)
    ∧ StronglySorted str_lt (kvs.*1)
    ∧ ∀ p, p ≠ tsv_path →
        save_ids_and_embeddings_tsv Fstr d tsv_path files !! p = files !! p.
Proof.
  intros Hne. unfold save_ids_and_embeddings_tsv.
  destruct (decide (d = ∅)) as [|_]; [contradiction|].
  destruct (sorted_keys_spec d) as [Hsorted Hkeys].
  destruct (sorted_items d (sorted_keys d)) as (kvs & Hk & Hl & Ho);
    [intros k; apply Hkeys|].
  exists kvs. rewrite lookup_insert_eq. unfold tsv_of. rewrite Ho.
  split; [reflexivity|]. split; [|split].
  - intros k v. rewrite Forall_forall in Hl. split.
    + intros Hin. apply (Hl _ Hin).
    + intros Hv.
      assert (k ∈ kvs.*1) as Hin
        by (rewrite Hk; apply Hkeys, elem_of_dom; eauto).
      apply list_elem_of_fmap in Hin as ([k' v'] & -> & Hin).
      pose proof (Hl _ Hin) as Hv'. simpl in *.
      rewrite Hv in Hv'. inversion Hv'; subst. exact Hin.
  - rewrite Hk. exact Hsorted.
  - intros p Hp. apply lookup_insert_ne. congruence.
Qed.

End PersistenceFacts.

(** ** Packing *)

Section PackingFacts.

Variable cfg : config.

Lemma pack_lens_nil base todo : pack_lens cfg base todo = [] → todo = [].
Proof.
  revert base. induction todo as [|l rest IH]; intros base; simpl; [auto|].
  destruct (closes cfg (base ++ [l]) || bool_decide (rest = [])) eqn:Hc.
  - discriminate.
  - intros Hp. apply IH in Hp. subst rest.
    rewrite bool_decide_eq_true_2 in Hc by reflexivity.
    rewrite orb_true_r in Hc. discriminate.
Qed.

(** Every sequence is in exactly one unit, and the order is kept. *)
Lemma pack_lens_concat base todo :
  todo ≠ [] → concat (pack_lens cfg base todo) = base ++ todo.
Proof.
  revert base. induction todo as [|l rest IH]; intros base Hne; [congruence|].
  simpl. destruct (closes cfg (base ++ [l]) || bool_decide (rest = [])) eqn:Hc.
  - simpl. destruct rest as [|l' rest'].
    + simpl. rewrite app_nil_r. reflexivity.
    + rewrite IH by discriminate. simpl. rewrite <- app_assoc. reflexivity.
  - destruct rest as [|l' rest'].
    + rewrite bool_decide_eq_true_2 in Hc by reflexivity.
      rewrite orb_true_r in Hc. discriminate.
    + rewrite IH by discriminate. rewrite <- app_assoc. reflexivity.
Qed.

(** Each unit is closed at the first sequence at which a test holds, or at
    the end of the input. *)
Lemma pack_lens_units base todo pre u post :
  pack_lens cfg base todo = pre ++ u :: post →
  unit_ok cfg (if pre is [] then base else []) u (bool_decide (post = [])).
Proof.
  revert base pre. induction todo as [|l rest IH]; intros base pre Hp; simpl in Hp.
  { destruct pre; discriminate. }
  destruct (closes cfg (base ++ [l]) || bool_decide (rest = [])) eqn:Hc.
  - destruct pre as [|x pre]; simpl in Hp; inversion Hp as [[Hu Hpost]].
    + split; [exists [l]; split; [reflexivity|discriminate]|]. split.
      * intros Hlast. apply bool_decide_eq_false in Hlast.
        apply orb_true_iff in Hc as [Hc|Hc]; [exact Hc|].
        apply bool_decide_eq_true in Hc. subst rest. contradiction.
      * intros p q Hpq Hlen Hq. apply (f_equal length) in Hpq.
        rewrite !length_app in Hpq. simpl in Hpq.
        destruct q; [contradiction|simpl in Hpq; lia].
    + apply IH in Hpost. destruct pre; exact Hpost.
  - apply IH in Hp. destruct pre as [|x pre]; [|exact Hp].
    destruct Hp as ((q & Hu & Hq) & Hclose & Hopen).
    apply orb_false_iff in Hc as [Hc _].
    split; [exists (l :: q); split; [rewrite Hu, <- app_assoc; reflexivity|discriminate]|].
    split; [exact Hclose|].
    intros p q' Hpq Hlen Hq'.
    destruct (decide (length p = S (length base))) as [Heq|Hneq].
    + assert (p = base ++ [l]) as ->; [|exact Hc].
      rewrite Hu in Hpq.
      apply (f_equal (take (length p))) in Hpq.
      rewrite take_app_length in Hpq.
      rewrite take_app_le in Hpq by (rewrite length_app; simpl; lia).
      rewrite take_ge in Hpq by (rewrite length_app; simpl; lia).
      congruence.
    + apply (Hopen p q' Hpq); [rewrite length_app; simpl; lia|exact Hq'].
Qed.

End PackingFacts.

(** ** The invariant of a run is kept by each of its steps *)

Section InvariantFacts.

Context {F W : Type}.
Implicit Types st : state F W.
Implicit Types tr : list (event F).

Lemma chain_snoc (snaps : list (gmap string (ndarray F))) s :
  chain snaps → (∀ d, d ∈ snaps → d ⊆ s) → chain (snaps ++ [s]).
Proof.
  intros Hc Hall k d d' Hk HSk.
  destruct (decide (S k < length snaps)%nat) as [Hlt|Hge].
  - rewrite lookup_app_l in Hk by lia. rewrite lookup_app_l in HSk by lia.
    eapply Hc; eauto.
  - assert (k < length snaps)%nat as Hk'.
    { apply lookup_lt_Some in HSk. rewrite length_app in HSk. simpl in HSk. lia. }
    rewrite lookup_app_l in Hk by lia.
    rewrite lookup_app_r in HSk by lia.
    replace (S k - length snaps)%nat with 0%nat in HSk by lia.
    simpl in HSk. inversion HSk; subst d'.
    apply Hall. apply list_elem_of_lookup. eauto.
Qed.

(** An event that is neither a write nor a flush. *)
Lemma run_inv_log ev st pending :
  put_ids [ev] = [] → flushed [ev] = [] →
  run_inv st pending → run_inv (log ev st) pending.
Proof.
  intros Hp Hf (Hnd & Hnew & Honce & Hdom & Hsub & Hch). unfold run_inv. simpl.
  rewrite put_ids_app, flushed_app, storing_exhaustions_app, Hp, Hf, !app_nil_r.
  repeat split; auto. intros Hz. apply Honce. lia.
Qed.

(** A call of the engine on the identifiers [ids]: it wrote members of
    [ids] only, and a prefix of [ids] when the storing loop was not left by
    an out-of-memory error. *)
Lemma run_inv_engine st st' tr ids rest :
  run_inv st (ids ++ rest) → writes st st' tr →
  (∀ uid, uid ∈ put_ids tr → uid ∈ ids) →
  (storing_exhaustions tr = 0%nat → put_ids tr `prefix_of` ids) →
  flushed tr = [] →
  run_inv st' rest.
Proof.
  intros (Hnd & Hnew & Honce & Hdom & Hsub & Hch) (Ht & _ & Hd & Hkeep)
    Hin Hpre Hf.
  assert (emb_dict st ⊆ emb_dict st') as Hgrow.
  { apply map_subseteq_spec. intros uid v Hv.
    rewrite Hkeep; [exact Hv|].
    intros Hput. apply (Hnew uid).
    - apply (elem_of_list_to_set (C:=gset string)). rewrite <- Hdom.
      apply elem_of_dom. eauto.
    - apply elem_of_app. left. auto. }
  apply NoDup_app in Hnd as (_ & Hdis & Hndr).
  unfold run_inv.
  rewrite Ht, put_ids_app, flushed_app, storing_exhaustions_app, Hf, app_nil_r.
  split; [exact Hndr|]. split; [|split; [|split; [|split]]].
  - intros uid Hput Hrest. apply elem_of_app in Hput as [Hput|Hput].
    + apply (Hnew uid Hput). apply elem_of_app. auto.
    + apply (Hdis uid); auto.
  - intros Hz.
    assert (storing_exhaustions (trace st) = 0 ∧ storing_exhaustions tr = 0)%nat
      as [Hz0 Hz1] by lia.
    destruct (Hpre Hz1) as [q Hq]. specialize (Honce Hz0).
    rewrite Hq in Honce. rewrite <- app_assoc.
    refine (sublist_NoDup _ _ Honce _).
    apply sublist_app; [reflexivity|].
    rewrite <- app_assoc. apply sublist_app; [reflexivity|].
    apply sublist_inserts_l. reflexivity.
  - rewrite Hd, Hdom, list_to_set_app_L. reflexivity.
  - intros d Hd0. etransitivity; [apply Hsub; exact Hd0|exact Hgrow].
  - exact Hch.
Qed.

(** A flush of the current store. *)
Lemma run_inv_flush st files pending :
  run_inv st pending →
  run_inv (log (Flush (emb_dict st))
             (State (emb_dict st) (world st) files (trace st))) pending.
Proof.
  intros (Hnd & Hnew & Honce & Hdom & Hsub & Hch). unfold run_inv. simpl.
  rewrite put_ids_app, flushed_app, storing_exhaustions_app. simpl.
  rewrite app_nil_r, Nat.add_0_r.
  split; [exact Hnd|]. split; [exact Hnew|]. split; [exact Honce|].
  split; [exact Hdom|]. split.
  - intros d Hin. apply elem_of_app in Hin as [Hin|Hin]; [auto|].
    apply list_elem_of_singleton in Hin. subst d. reflexivity.
  - apply chain_snoc; assumption.
Qed.

Lemma run_inv_weaken st ids rest : run_inv st (ids ++ rest) → run_inv st rest.
Proof.
  intros (Hnd & Hnew & Honce & Hrest). split; [|split; [|split]].
  - apply NoDup_app in Hnd. tauto.
  - intros uid Hput Hin. apply (Hnew uid Hput). apply elem_of_app. auto.
  - intros Hz. refine (sublist_NoDup _ _ (Honce Hz) _).
    apply sublist_app; [reflexivity|]. apply sublist_inserts_l. reflexivity.
  - exact Hrest.
Qed.

Lemma run_inv_nil st pending : run_inv st pending → run_inv st [].
Proof.
  intros Hi. apply (run_inv_weaken st pending []).
  rewrite app_nil_r. exact Hi.
Qed.

End InvariantFacts.

(** ** The main loop *)

Section LoopFacts.

Variable F : Type.
Variable Fmean : list F -> F.
Variable Fstr : F -> string.
Variable W : Type.
Variable gpu_forward : W -> list string -> result (tensor3 F) * W.
Variable gpu_extract : W -> bool -> list (list F) -> nat -> option exn * W.
Variable empty_cache : W -> W.
Variable cpu_forward : W -> list string -> result (tensor3 F) * W.
Variable cpu_extract : W -> bool -> list (list F) -> nat -> option exn * W.
Variable to_device : W -> option exn * W.

Local Abbreviation safe_embed :=
  (safe_embed F Fmean W gpu_forward gpu_extract empty_cache
   cpu_forward cpu_extract to_device).
Local Abbreviation checkpoint := (checkpoint F Fstr W).
Local Abbreviation loop_body :=
  (loop_body F Fmean Fstr W gpu_forward gpu_extract empty_cache
   cpu_forward cpu_extract to_device).
Local Abbreviation for_loop :=
  (for_loop F Fmean Fstr W gpu_forward gpu_extract empty_cache
   cpu_forward cpu_extract to_device).
Local Abbreviation embed_fasta :=
  (embed_fasta F Fmean Fstr W gpu_forward gpu_extract empty_cache
   cpu_forward cpu_extract to_device).

Implicit Types st : state F W.
Implicit Types ls : loop_state F W.
Implicit Types batch : list (string * string * nat).

Lemma res_ct_sum batch : res_ct batch = sum_lens (map (fun m => m.2) batch).
Proof. induction batch as [|m batch IH]; simpl; congruence. Qed.

Lemma flush_cond_closes cfg batch uid spaced seq i n :
  flush_cond cfg (batch ++ [(uid, spaced, String.length seq)]) i n seq
  = closes cfg (map (fun m => m.2) batch ++ [String.length seq])
    || (i =? n)%nat.
Proof.
  unfold flush_cond, closes.
  rewrite res_ct_sum, map_app, !length_app, length_map, last_snoc. simpl.
  destruct (max_batch cfg <=? _)%Z, (max_residues cfg <=? _)%Z,
    (i =? n)%nat, (max_seq_len cfg <? _)%Z; reflexivity.
Qed.

Lemma checkpoint_effect cfg out_npz i n idx st st' r :
  checkpoint cfg out_npz i n idx st = (st', r) →
  ∃ tr, trace st' = trace st ++ tr
    ∧ submitted tr = []
    ∧ ∀ pending, run_inv st pending → run_inv st' pending.
Proof.
  unfold checkpoint. intros Hrun.
  destruct (save_every cfg =? 0)%Z.
  { inversion Hrun; subst. exists []. rewrite app_nil_r. auto. }
  destruct ((idx `mod` save_every cfg =? 0)%Z || (i =? n)%nat);
    inversion Hrun; subst.
  - exists [Flush (emb_dict st)].
    split; [reflexivity|]. split; [reflexivity|].
    intros pending. apply run_inv_flush.
  - exists []. rewrite app_nil_r. auto.
Qed.

(** One iteration: the unit is closed and handed to [safe_embed] exactly
    when [pack_lens] closes it; the invariant of the run is kept. *)
Lemma loop_body_spec cfg out_npz pp n i entry (rest : list (string * string))
    ls ls' r :
  (i =? n)%nat = bool_decide (rest = []) →
  loop_body cfg out_npz pp n i entry ls = (ls', r) →
  ∃ tr, trace (ls_state ls') = trace (ls_state ls) ++ tr
    ∧ (if closes cfg (map (fun m => m.2) (ls_batch ls) ++ [entry_len entry])
          || bool_decide (rest = [])
       then submitted tr = [map (fun m => m.2) (ls_batch ls) ++ [entry_len entry]]
            ∧ ls_batch ls' = []
       else submitted tr = [] ∧ r = None
            ∧ map (fun m => m.2) (ls_batch ls')
              = map (fun m => m.2) (ls_batch ls) ++ [entry_len entry])
    ∧ ∀ pending,
        run_inv (ls_state ls)
          (map (fun m => m.1.1) (ls_batch ls) ++ entry.1 :: pending) →
        run_inv (ls_state ls') (map (fun m => m.1.1) (ls_batch ls') ++ pending).
Proof.
  intros Hidx Hrun. unfold loop_body in Hrun.
  rewrite flush_cond_closes, Hidx in Hrun. fold (entry_len entry) in Hrun.
  destruct (closes cfg (map (fun m => m.2) (ls_batch ls) ++ [entry_len entry])
            || bool_decide (rest = [])) eqn:Hc; simpl in Hrun.
  2:{ inversion Hrun; subst. exists []. simpl. rewrite app_nil_r.
      split; [reflexivity|]. split.
      - rewrite map_app. auto.
      - intros pending. rewrite map_app, <- app_assoc. auto. }
  rewrite !map_app in Hrun. simpl in Hrun.
  set (ids := map (fun m => m.1.1) (ls_batch ls) ++ [entry.1]) in *.
  set (lens := map (fun m => m.2) (ls_batch ls) ++ [entry_len entry]) in *.
  match type of Hrun with context [safe_embed ids ?sp lens pp ?s] =>
    destruct (safe_embed ids sp lens pp s) as [st1 r1] eqn:Hemb end.
  unfold safe_embed in Hemb.
  apply safe_embed_rec_effect in Hemb
    as (tr & Hw & Hin & _ & Hx & _ & _ & Hs & Hf); [|lia].
  assert (∀ pending,
            run_inv (ls_state ls)
              (map (fun m => m.1.1) (ls_batch ls) ++ entry.1 :: pending) →
            run_inv st1 pending) as Hinv.
  { intros pending Hi.
    refine (run_inv_engine _ _ tr ids pending _ Hw Hin _ Hf).
    - apply run_inv_log; [reflexivity|reflexivity|].
      subst ids. rewrite <- app_assoc. exact Hi.
    - intros Hz. apply (Hx Hz). }
  destruct Hw as (Ht & Hrest).
  destruct r1 as [e|].
  - inversion Hrun; subst. exists (Submit ids lens :: tr). simpl.
    rewrite Ht. simpl. rewrite <- app_assoc, Hs. auto.
  - destruct (checkpoint cfg out_npz i n (ls_batch_idx ls + 1) st1)
      as [st2 r2] eqn:Hck.
    apply checkpoint_effect in Hck as (tr2 & Ht2 & Hs2 & Hinv2).
    inversion Hrun; subst. exists (Submit ids lens :: tr ++ tr2). simpl.
    rewrite Ht2, Ht. simpl. rewrite <- !app_assoc, submitted_app, Hs, Hs2.
    auto.
Qed.

Lemma for_loop_spec cfg out_npz pp n i entries ls ls' r :
  (i + length entries = S n)%nat →
  for_loop cfg out_npz pp n i entries ls = (ls', r) →
  ∃ tr, trace (ls_state ls') = trace (ls_state ls) ++ tr
    ∧ submitted tr `prefix_of`
        pack_lens cfg (map (fun m => m.2) (ls_batch ls)) (entry_len <$> entries)
    ∧ (r = None →
        submitted tr
        = pack_lens cfg (map (fun m => m.2) (ls_batch ls)) (entry_len <$> entries))
    ∧ (run_inv (ls_state ls)
         (map (fun m => m.1.1) (ls_batch ls) ++ entries.*1) →
       run_inv (ls_state ls') []).
Proof.
  revert i ls. induction entries as [|entry rest IH]; intros i ls Hi Hrun;
    simpl in Hrun.
  { inversion Hrun; subst. exists []. rewrite app_nil_r. simpl.
    split; [reflexivity|]. split; [reflexivity|]. split; [reflexivity|].
    apply run_inv_nil. }
  destruct (loop_body cfg out_npz pp n i entry ls) as [ls1 r1] eqn:Hbody.
  assert ((i =? n)%nat = bool_decide (rest = [])) as Hidx.
  { simpl in Hi. destruct rest; simpl in Hi.
    - rewrite bool_decide_eq_true_2 by reflexivity. apply Nat.eqb_eq. lia.
    - rewrite bool_decide_eq_false_2 by discriminate. apply Nat.eqb_neq. lia. }
  apply (loop_body_spec _ _ _ _ _ _ rest) in Hbody
    as (tr1 & Ht1 & Hpack & Hinv); [|exact Hidx].
  assert (bool_decide (entry_len <$> rest = []) = bool_decide (rest = [])) as Hbd
    by (destruct rest; reflexivity).
  csimpl. rewrite Hbd.
  destruct r1 as [e|].
  - inversion Hrun; subst. exists tr1. split; [exact Ht1|].
    destruct (closes cfg _ || bool_decide (rest = [])).
    + destruct Hpack as [-> _].
      split; [eexists; reflexivity|]. split; [discriminate|].
      intros Hi0. eapply run_inv_nil. apply Hinv. exact Hi0.
    + destruct Hpack as (_ & Hnone & _). discriminate.
  - apply IH in Hrun as (tr2 & Ht2 & Hpre & Heq & Hinv2); [|simpl in Hi; lia].
    exists (tr1 ++ tr2). rewrite Ht2, Ht1, <- app_assoc, submitted_app.
    split; [reflexivity|].
    destruct (closes cfg _ || bool_decide (rest = [])).
    + destruct Hpack as [-> Hb]. rewrite Hb in *. simpl in *.
      split; [apply (prefix_app [_]); exact Hpre|].
      split; [intros Hn; rewrite (Heq Hn); reflexivity|].
      intros Hi0. apply Hinv2, Hinv. exact Hi0.
    + destruct Hpack as (-> & _ & Hb). rewrite Hb in *. simpl.
      split; [exact Hpre|]. split; [exact Heq|].
      intros Hi0. apply Hinv2, Hinv. exact Hi0.
Qed.
Lemma insert_by_len_perm x (l : list (string * string)) :
  insert_by_len x l ≡ₚ x :: l.
Proof.
  induction l as [|y l IH]; simpl; [reflexivity|].
  destruct (String.length x.2 <? String.length y.2)%nat; [|reflexivity].
  rewrite IH. apply Permutation_swap.
Qed.

Lemma sort_by_len_desc_perm (items : list (string * string)) :
  sort_by_len_desc items ≡ₚ items.
Proof.
  unfold sort_by_len_desc. induction items as [|x l IH]; simpl; [reflexivity|].
  rewrite insert_by_len_perm, IH. reflexivity.
Qed.

(** The sort is stable: a list already in decreasing order of length is
    left as it is. *)
Lemma sort_by_len_desc_sorted (items : list (string * string)) :
  Sorted (fun a b => (String.length b.2 ≤ String.length a.2)%nat) items →
  sort_by_len_desc items = items.
Proof.
  unfold sort_by_len_desc. induction 1 as [|x l _ IH Hhd]; simpl; [reflexivity|].
  rewrite IH. destruct Hhd as [|y l Hxy]; simpl; [reflexivity|].
  replace (String.length x.2 <? String.length y.2)%nat with false
    by (symmetry; apply Nat.ltb_ge; exact Hxy).
  reflexivity.
Qed.

Lemma replace_char_length a b s :
  String.length (replace_char a b s) = String.length s.
Proof. induction s as [|c s IH]; simpl; congruence. Qed.

Lemma entry_len_length entry : entry_len entry = String.length entry.2.
Proof.
  unfold entry_len, normalize. rewrite !replace_char_length. reflexivity.
Qed.

(** The whole run: the units submitted are those of [pack_lens], and the
    invariant holds at the end. *)
Lemma embed_fasta_spec seqs out_npz pp cfg w0 files :
  let run := embed_fasta seqs out_npz pp cfg w0 files in
  submitted (trace run.1) `prefix_of`
    pack_lens cfg [] (entry_len <$> sort_by_len_desc seqs)
  ∧ (run.2 = None →
      seqs ≠ []
      ∧ submitted (trace run.1)
        = pack_lens cfg [] (entry_len <$> sort_by_len_desc seqs))
  ∧ (NoDup seqs.*1 → run_inv run.1 []).
Proof.
  unfold embed_fasta. destruct seqs as [|s0 seqs0] eqn:Hseqs.
  { simpl. split; [apply prefix_nil|]. split; [discriminate|].
    intros _. repeat split; simpl; try constructor; auto.
    - intros uid Hin. apply elem_of_nil in Hin. contradiction.
    - intros d Hd. apply elem_of_nil in Hd. contradiction.
    - intros k d d' Hk. rewrite lookup_nil in Hk. discriminate. }
  assert (seqs ≠ []) as Hne by (rewrite Hseqs; discriminate).
  rewrite <- Hseqs. clear Hseqs s0 seqs0.
  destruct (for_loop cfg out_npz pp (length (sort_by_len_desc seqs)) 1
              (sort_by_len_desc seqs) (LoopState (State ∅ w0 files []) [] 0))
    as [ls r] eqn:Hrun.
  apply for_loop_spec in Hrun as (tr & Ht & Hpre & Heq & Hinv); [|reflexivity].
  simpl in *. subst tr.
  split; [exact Hpre|]. split.
  - intros Hr. split; [exact Hne|exact (Heq Hr)].
  - intros Hnd.
    assert (NoDup (sort_by_len_desc seqs).*1) as Hnd'
      by (rewrite sort_by_len_desc_perm; exact Hnd).
    apply Hinv. repeat split; simpl; auto.
    + intros uid Hin. apply elem_of_nil in Hin. contradiction.
    + intros d Hd. apply elem_of_nil in Hd. contradiction.
    + intros k d d' Hk. rewrite lookup_nil in Hk. discriminate.
Qed.
(** C2, amended: in a run that ends normally the work units handed to
    [safe_embed] partition the sequences, in decreasing order of length; a
    unit is closed at the first sequence after whose addition the item count
    has reached [max_batch], or the cumulative residues have reached
    [max_residues], or the sequence just added is longer than [max_seq_len],
    or the input is exhausted.  The test is made after the sequence has been
    added, so for lengths [50, 40, 10, 10, 5] with [max_batch = 5] and
    [max_residues = 60] the units are [50, 40] and [10, 10, 5]. *)
Theorem packer_closes_units seqs out_npz pp cfg w0 files :
  (embed_fasta seqs out_npz pp cfg w0 files).2 = None →
  let units := submitted (trace (embed_fasta seqs out_npz pp cfg w0 files).1) in
  concat units = entry_len <$> sort_by_len_desc seqs
  ∧ (∀ pre u post, units = pre ++ u :: post →
       u ≠ []
       ∧ (post ≠ [] → closes cfg u = true)
       ∧ ∀ p q, u = p ++ q → p ≠ [] → q ≠ [] → closes cfg p = false)
  ∧ (map (fun e => String.length e.2) seqs = [50; 40; 10; 10; 5]%nat →
     max_batch cfg = 5%Z → max_residues cfg = 60%Z →
     (50 ≤ max_seq_len cfg)%Z →
     units = [[50; 40]; [10; 10; 5]]%nat).
Proof.
  intros Hok units.
  destruct (embed_fasta_spec seqs out_npz pp cfg w0 files) as (_ & Heq & _).
  destruct (Heq Hok) as [Hne Hunits]. fold units in Hunits.
  split; [|split].
  - rewrite Hunits, pack_lens_concat; [reflexivity|].
    intros Hnil. apply fmap_nil_inv in Hnil.
    apply Hne. apply Permutation_nil_r.
    rewrite <- Hnil. symmetry. apply sort_by_len_desc_perm.
  - intros pre u post Hdec. rewrite Hunits in Hdec.
    apply pack_lens_units in Hdec as ((q & Hu & Hq) & Hclose & Hopen).
    assert (u = q) as -> by (destruct pre; exact Hu).
    split; [exact Hq|]. split.
    + intros Hpost. apply Hclose. apply bool_decide_eq_false. exact Hpost.
    + intros p q' Hpq Hp Hq'. apply (Hopen p q' Hpq); [|exact Hq'].
      destruct pre; destruct p; simpl; try contradiction; lia.
  - intros Hlens Hmb Hmr Hms. rewrite Hunits.
    assert (entry_len <$> sort_by_len_desc seqs = [50; 40; 10; 10; 5]%nat) as ->.
    { rewrite sort_by_len_desc_sorted.
      - rewrite <- Hlens. apply map_ext. intros e. apply entry_len_length.
      - destruct seqs as [|s1 [|s2 [|s3 [|s4 [|s5 [|]]]]]]; try discriminate.
        simpl in Hlens. inversion Hlens as [[H1 H2 H3 H4 H5]].
        repeat constructor; lia. }
    unfold pack_lens, closes. simpl. rewrite Hmb, Hmr. simpl.
    repeat match goal with
           | |- context [(max_seq_len cfg <? ?b)%Z] =>
               replace (max_seq_len cfg <? b)%Z with false
                 by (symmetry; apply Z.ltb_ge; lia)
           end.
    reflexivity.
Qed.


(** The [auto_shrink] argument is never read. *)
Lemma for_loop_ignores_auto_shrink mr msl mb se out_npz pp n i entries ls :
  for_loop (Config mr msl mb se false) out_npz pp n i entries ls
  = for_loop (Config mr msl mb se true) out_npz pp n i entries ls.
Proof.
  revert i ls. induction entries as [|entry rest IH]; intros i ls; simpl;
    [reflexivity|].
  change (loop_body (Config mr msl mb se false) out_npz pp n i entry ls)
    with (loop_body (Config mr msl mb se true) out_npz pp n i entry ls).
  destruct (loop_body (Config mr msl mb se true) out_npz pp n i entry ls)
    as [ls1 [e|]]; [reflexivity|apply IH].
Qed.

Lemma embed_fasta_ignores_auto_shrink seqs out_npz pp mr msl mb se w0 files :
  embed_fasta seqs out_npz pp (Config mr msl mb se false) w0 files
  = embed_fasta seqs out_npz pp (Config mr msl mb se true) w0 files.
Proof.
  unfold embed_fasta. destruct seqs; [reflexivity|].
  rewrite for_loop_ignores_auto_shrink. reflexivity.
Qed.
End LoopFacts.

(** ** The stub encoder meets the assumptions made on the encoder *)

Section StubFacts.

Lemma stub_gpu_succeeds_or_exhausts T : succeeds_or_exhausts (Stub.gpu_forward T).
Proof.
  intros w batch. unfold Stub.gpu_forward.
  destruct (T <? Stub.n_residues batch)%nat; simpl.
  - reflexivity.
  - apply length_map.
Qed.



Lemma stub_extract_once_succeeds_or_exhausts :
  extract_succeeds_or_exhausts Stub.gpu_extract_exhausted_once.
Proof.
  intros w pp rep len e. unfold Stub.gpu_extract_exhausted_once.
  destruct ((w =? 1)%nat && (len =? 2)%nat); [|discriminate].
  intros [= <-]. reflexivity.
Qed.


Lemma stub_encode_memberwise (batch : list string) :
  Forall2 (fun s rep => ∃ pad, rep = Sample.enc s ++ pad) batch
    (t_rows (Stub.encode batch)).
Proof.
  unfold Stub.encode. simpl. generalize (Stub.longest batch). intros L.
  induction batch as [|s batch IH]; simpl; constructor; [|exact IH].
  eexists. reflexivity.
Qed.

Lemma stub_gpu_memberwise T : memberwise 2 Sample.enc (Stub.gpu_forward T).
Proof.
  intros w batch reps w'. unfold Stub.gpu_forward.
  destruct (T <? Stub.n_residues batch)%nat; [discriminate|].
  intros [= <- _]. split; [reflexivity|]. apply stub_encode_memberwise.
Qed.

Lemma stub_cpu_memberwise : memberwise 2 Sample.enc Stub.cpu_forward.
Proof.
  intros w batch reps w'. unfold Stub.cpu_forward.
  intros [= <- _]. split; [reflexivity|]. apply stub_encode_memberwise.
Qed.

(** The stub's encoding of a sequence has two coordinates per position. *)
Lemma imap_width {A} (f : nat → A → list Z) (l : list A) :
  (∀ p c, length (f p c) = 2%nat) →
  Forall (fun r => length r = 2%nat) (imap f l).
Proof.
  revert f. induction l as [|c l IH]; intros f Hf; [constructor|].
  rewrite imap_cons. constructor; [apply Hf|].
  apply IH. intros p c'. apply Hf.
Qed.

Lemma sample_enc_width s : Forall (fun r => length r = 2%nat) (Sample.enc s).
Proof. apply imap_width. reflexivity. Qed.

End StubFacts.

(** ** Worked examples *)

Section Examples.

(** C1, as stated, fails: the encoder answers every call and the only
    failure is one signal of exhaustion, raised while the second result is
    being stored.  The handler takes the unit up again: the call returns
    normally but ["p1"], stored before the signal, is written twice. *)
Lemma exhaustion_while_storing_writes_twice :
  succeeds_or_exhausts (Stub.gpu_forward 10)
  ∧ extract_succeeds_or_exhausts Stub.gpu_extract_exhausted_once
  ∧ Example.retried_unit.2 = None
  ∧ trace Example.retried_unit.1
    = [GpuCall ["M K V"; "A C"] None; Put "p1";
       GpuStoreFail "p2" Stub.cuda_oom;
       GpuCall ["M K V"] None; Put "p1";
       GpuCall ["A C"] None; Put "p2"]
  ∧ put_ids (trace Example.retried_unit.1) = ["p1"; "p1"; "p2"]
  ∧ put_ids (trace Example.retried_unit.1) ≠ ["p1"; "p2"].
Proof.
  split; [apply stub_gpu_succeeds_or_exhausts|].
  split; [apply stub_extract_once_succeeds_or_exhausts|].
  vm_compute. repeat split. discriminate.
Qed.


Lemma safe_embed_gpu_calls_bound_witness :
  ∃ tr, trace (Stub.safe_embed 0 ["a"; "b"; "c"] ["A B"; "C D"; "E"]
                 [2; 2; 1]%nat true Stub.st0).1 = trace Stub.st0 ++ tr
    ∧ (gpu_calls tr ≤ 2 * 3 - 1)%nat.
Proof.
  destruct (safe_embed_gpu_calls_bound Z Stub.Fmean nat (Stub.gpu_forward 0)
              Stub.gpu_extract Stub.empty_cache Stub.cpu_forward
              Stub.cpu_extract Stub.to_device
              ["a"; "b"; "c"] ["A B"; "C D"; "E"] [2; 2; 1]%nat true Stub.st0)
    as (tr & Ht & Hb & _); [simpl; lia|].
  exists tr. split; [exact Ht|exact Hb].
Defined.

(** With a GPU that refuses everything the bound is reached. *)
Example gpu_calls_worst_case :
  gpu_calls (trace (Stub.safe_embed 0 ["a"; "b"; "c"] ["A B"; "C D"; "E"]
                      [2; 2; 1]%nat true Stub.st0).1) = 5%nat.
Proof. vm_compute. reflexivity. Qed.



(** The last step of the secondary path fails: the vector of the member is
    already in the store when the exception leaves [safe_embed]. *)
Example fallback_stores_before_failing :
  Example.fallback_then_failure.2 = Some Stub.cuda_oom
  ∧ trace Example.fallback_then_failure.1
    = [GpuCall ["M K"] (Some Stub.cuda_oom); CpuCall ["M K"] None;
       Put "P12345"; ToDevice (Some Stub.cuda_oom)]
  ∧ emb_dict Example.fallback_then_failure.1 !! "P12345"
    = Some (Arr1 [76; 0]%Z).
Proof. vm_compute. repeat split. Qed.

(** C5, as stated, fails: ["p1"] is in the store, [safe_embed] returns
    normally and the entry now holds another vector. *)
Lemma put_on_present_id_overwrites :
  emb_dict Example.st_with_p1 !! "p1" = Some (Arr1 [7; 7]%Z)
  ∧ (Stub.safe_embed 10 ["p1"] ["M K V"] [3%nat] true Example.st_with_p1).2
    = None
  ∧ emb_dict (Stub.safe_embed 10 ["p1"] ["M K V"] [3%nat] true
                Example.st_with_p1).1 !! "p1"
    = Some (Arr1 [79; 1]%Z).
Proof. vm_compute. repeat split. Qed.

Lemma put_overwrites_silently_witness :
  (Stub.safe_embed 10 ["p1"] ["M K V"] [3%nat] true Example.st_with_p1).2 = None
  ∧ emb_dict (Stub.safe_embed 10 ["p1"] ["M K V"] [3%nat] true
                Example.st_with_p1).1 !! "p1"
    = Some (pool Stub.Fmean true 2 3
              [[77; 0]; [75; 1]; [86; 2]; [0; 0]]%Z)
  ∧ ∀ u, u ≠ "p1" →
      emb_dict (Stub.safe_embed 10 ["p1"] ["M K V"] [3%nat] true
                  Example.st_with_p1).1 !! u
      = emb_dict Example.st_with_p1 !! u.
Proof.
  apply (put_overwrites_silently Z Stub.Fmean nat (Stub.gpu_forward 10)
           Stub.gpu_extract Stub.empty_cache Stub.cpu_forward
           Stub.cpu_extract Stub.to_device
           "p1" "M K V" 3%nat true Example.st_with_p1 (Arr1 [7; 7]%Z)
           (Stub.encode ["M K V"]) 1%nat
           [[77; 0]; [75; 1]; [86; 2]; [0; 0]]%Z 1%nat).
  - reflexivity.
  - reflexivity.
  - reflexivity.
  - reflexivity.
Defined.

(** C2, as stated, fails: on the five sequences of lengths 50, 40, 10, 10
    and 5 the run ends normally and the units are [50, 40] and [10, 10, 5],
    not [50], [40, 10, 10] and [5]. *)
Lemma packing_example_differs :
  (Stub.embed_fasta 1000 Example.seqs "out.tsv" true Example.cfg 0%nat ∅).2
  = None
  ∧ submitted (trace (Stub.embed_fasta 1000 Example.seqs "out.tsv" true
                        Example.cfg 0%nat ∅).1)
    = [[50; 40]; [10; 10; 5]]%nat
  ∧ submitted (trace (Stub.embed_fasta 1000 Example.seqs "out.tsv" true
                        Example.cfg 0%nat ∅).1)
    ≠ [[50]; [40; 10; 10]; [5]]%nat.
Proof. vm_compute. repeat split. discriminate. Qed.

Lemma packer_closes_units_witness :
  submitted (trace (Stub.embed_fasta 1000 Example.seqs "out.tsv" true
                      Example.cfg 0%nat ∅).1)
  = [[50; 40]; [10; 10; 5]]%nat.
Proof.
  apply (packer_closes_units Z Stub.Fmean Stub.Fstr nat (Stub.gpu_forward 1000)
           Stub.gpu_extract Stub.empty_cache Stub.cpu_forward
           Stub.cpu_extract Stub.to_device
           Example.seqs "out.tsv" true Example.cfg 0%nat ∅).
  - vm_compute. reflexivity.
  - reflexivity.
  - reflexivity.
  - reflexivity.
  - vm_compute. discriminate.
Defined.

(** C3: [--auto_shrink] is not given and the GPU refuses the unit of two
    sequences; the run nevertheless splits the unit, embeds both halves and
    ends normally. *)
Theorem auto_shrink_off_still_recovers :
  auto_shrink Example.default_cfg = false
  ∧ (Stub.embed_fasta 4 Example.two_seqs "out.tsv" true
       Example.default_cfg 0%nat ∅).2 = None
  ∧ trace (Stub.embed_fasta 4 Example.two_seqs "out.tsv" true
             Example.default_cfg 0%nat ∅).1
    = [Submit ["p1"; "p2"] [3; 2]%nat;
       GpuCall ["M K V"; "A C"] (Some Stub.cuda_oom);
       GpuCall ["M K V"] None; Put "p1";
       GpuCall ["A C"] None; Put "p2";
       Flush (emb_dict (Stub.embed_fasta 4 Example.two_seqs "out.tsv" true
                          Example.default_cfg 0%nat ∅).1)]
  ∧ dom (emb_dict (Stub.embed_fasta 4 Example.two_seqs "out.tsv" true
                     Example.default_cfg 0%nat ∅).1) = {["p1"; "p2"]}.
Proof. vm_compute. repeat split. Qed.

(** C7, as stated, fails on an empty store: the destination keeps what it
    held instead of being replaced by the (empty) serialization. *)
Lemma flush_of_empty_store_keeps_file :
  save_ids_and_embeddings_tsv Stub.Fstr ∅ "out.tsv" Example.old_files
    !! "out.tsv" = Some "stale"
  ∧ save_ids_and_embeddings_tsv Stub.Fstr ∅ "out.tsv" Example.old_files
      !! "out.tsv"
    ≠ Some (tsv_of Stub.Fstr (∅ : gmap string (ndarray Z))).
Proof. vm_compute. split; [reflexivity|discriminate]. Qed.

Lemma flush_rewrites_whole_store_witness :
  ∃ kvs : list (string * ndarray Z),
    save_ids_and_embeddings_tsv Stub.Fstr
      {["b" := Arr1 [3; 4]%Z; "a" := Arr1 [1; 2]%Z]} "out.tsv"
      Example.old_files !! "out.tsv"
    = Some (String.concat ""
              (map (fun kv =>
                      kv.1 ++ tab
                      ++ join " " (map Stub.Fstr (reshape_flat kv.2)) ++ newline)%string
                 kvs))
    ∧ (∀ k v, (k, v) ∈ kvs ↔
         ({["b" := Arr1 [3; 4]%Z; "a" := Arr1 [1; 2]%Z]}
            : gmap string (ndarray Z)) !! k = Some v)
    ∧ StronglySorted str_lt (kvs.*1)
    ∧ ∀ p, p ≠ "out.tsv" →
        save_ids_and_embeddings_tsv Stub.Fstr
          {["b" := Arr1 [3; 4]%Z; "a" := Arr1 [1; 2]%Z]} "out.tsv"
          Example.old_files !! p = Example.old_files !! p.
Proof.
  apply (flush_rewrites_whole_store Z Stub.Fstr).
  intros Hempty. apply (f_equal (fun m => m !! "a")) in Hempty.
  vm_compute in Hempty. discriminate.
Defined.

(** What the file holds after that flush. *)
Example flush_example :
  save_ids_and_embeddings_tsv Stub.Fstr
    {["b" := Arr1 [3; 4]%Z; "a" := Arr1 [1; 2]%Z]} "out.tsv"
    Example.old_files !! "out.tsv"
  = Some ("a" ++ tab ++ "1 2" ++ newline ++ "b" ++ tab ++ "3 4" ++ newline)%string.
Proof. vm_compute. reflexivity. Qed.

Lemma per_protein_output_is_mean_witness :
  ∃ len pooled per_position,
    [2; 2; 1]%nat !! 1%nat = Some len
    ∧ emb_dict (Stub.safe_embed 1 ["a"; "b"; "c"] ["A B"; "C D"; "E"]
                  [2; 2; 1]%nat true Stub.st0).1 !! "b" = Some pooled
    ∧ emb_dict (Stub.safe_embed 1 ["a"; "b"; "c"] ["A B"; "C D"; "E"]
                  [2; 2; 1]%nat false Stub.st0).1 !! "b" = Some per_position
    ∧ positions 2 per_position = take len (Sample.enc "C D")
    ∧ pooled
      = squeeze1
          (map (fun j =>
                  arithmetic_mean Z.add 0%Z (fun x n => (x / Z.of_nat n)%Z)
                    (column j (positions 2 per_position)))
             (seq 0 2)).
Proof.
  destruct (per_protein_output_is_mean Z Stub.Fmean nat (Stub.gpu_forward 1)
              Stub.gpu_extract Stub.empty_cache Stub.cpu_forward
              Stub.cpu_extract Stub.to_device
              Z.add 0%Z (fun x n => (x / Z.of_nat n)%Z) 2%nat Sample.enc
              ["a"; "b"; "c"] ["A B"; "C D"; "E"] [2; 2; 1]%nat
              Stub.st0 Stub.st0 1%nat "b" "C D")
    as (len & pooled & per_position & H1 & H2 & H3 & H4 & H5 & _).
  - intros l. reflexivity.
  - apply stub_gpu_memberwise.
  - apply stub_cpu_memberwise.
  - apply sample_enc_width.
  - repeat constructor; set_solver.
  - reflexivity.
  - reflexivity.
  - repeat constructor; vm_compute; lia.
  - vm_compute. reflexivity.
  - vm_compute. reflexivity.
  - reflexivity.
  - reflexivity.
  - exists len, pooled, per_position.
    exact (conj H1 (conj H2 (conj H3 (conj H4 H5)))).
Defined.

(** The member ["b"] of that unit went through a split and the CPU
    fallback; its two results. *)
Example per_protein_output_example :
  emb_dict (Stub.safe_embed 1 ["a"; "b"; "c"] ["A B"; "C D"; "E"]
              [2; 2; 1]%nat false Stub.st0).1 !! "b"
  = Some (Arr2 2 [[67; 0]; [68; 1]]%Z)
  ∧ emb_dict (Stub.safe_embed 1 ["a"; "b"; "c"] ["A B"; "C D"; "E"]
                [2; 2; 1]%nat true Stub.st0).1 !! "b"
    = Some (Arr1 [67; 0]%Z).
Proof. vm_compute. split; reflexivity. Qed.

(** C9, as stated, fails: the encoder's output drifts from call to call and
    the device signals exhaustion while the second result of the unit is
    being stored.  The vector stored for ["p1"] by the first attempt is
    replaced by another one when the unit is taken up again; the run ends
    normally. *)
Lemma value_replaced_after_retry :
  Example.drifting_run.2 = None
  ∧ put_ids (trace Example.drifting_run.1) = ["p1"; "p1"; "p2"]
  ∧ trace Example.drifting_first_attempt.1
    `prefix_of` trace Example.drifting_run.1
  ∧ emb_dict Example.drifting_first_attempt.1 !! "p1" = Some (Arr1 [79; 1]%Z)
  ∧ emb_dict Example.drifting_run.1 !! "p1" = Some (Arr1 [80; 2]%Z).
Proof.
  split; [vm_compute; reflexivity|]. split; [vm_compute; reflexivity|].
  split; [|vm_compute; split; reflexivity].
  eexists. vm_compute. reflexivity.
Qed.


End Examples.

(** ** Reading the FASTA file *)

Section FastaFacts.

Implicit Types d : list (string * string).
Implicit Types r : Fasta.reader.

Lemma str_app_assoc (a b c : string) : ((a ++ b) ++ c)%string = (a ++ b ++ c)%string.
Proof.
  induction a as [|x a IH]; [reflexivity|].
  change (String x ((a ++ b) ++ c)%string = String x (a ++ b ++ c)%string).
  rewrite IH. reflexivity.
Qed.

Lemma str_app_nil_r (a : string) : (a ++ "")%string = a.
Proof.
  induction a as [|x a IH]; [reflexivity|].
  change (String x (a ++ "")%string = String x a). rewrite IH. reflexivity.
Qed.

Lemma dict_get_None k d : Fasta.dict_get k d = None ↔ k ∉ d.*1.
Proof.
  induction d as [|[k' v] d IH]; csimpl.
  - split; [intros _; apply not_elem_of_nil|reflexivity].
  - destruct (String.eqb_spec k k') as [->|Hne].
    + split; [discriminate|]. intros Hn. exfalso. apply Hn. left.
    + rewrite IH. rewrite not_elem_of_cons. tauto.
Qed.

Lemma dict_get_elem k v d : Fasta.dict_get k d = Some v → (k, v) ∈ d.
Proof.
  induction d as [|[k' v'] d IH]; simpl; [discriminate|].
  destruct (String.eqb_spec k k') as [->|Hne].
  - intros [= ->]. left.
  - intros Hg. right. auto.
Qed.

Lemma dict_get_set_eq k v d : Fasta.dict_get k (Fasta.dict_set k v d) = Some v.
Proof.
  induction d as [|[k' v'] d IH]; simpl.
  - rewrite String.eqb_refl. reflexivity.
  - destruct (String.eqb_spec k k') as [->|Hne]; simpl.
    + rewrite String.eqb_refl. reflexivity.
    + destruct (String.eqb_spec k k'); [contradiction|exact IH].
Qed.

Lemma dict_get_set_ne k k' v d :
  k ≠ k' → Fasta.dict_get k' (Fasta.dict_set k v d) = Fasta.dict_get k' d.
Proof.
  intros Hne. induction d as [|[k0 v0] d IH]; simpl.
  - destruct (String.eqb_spec k' k); [congruence|reflexivity].
  - destruct (String.eqb_spec k k0) as [->|Hk]; simpl.
    + destruct (String.eqb_spec k' k0); [congruence|reflexivity].
    + destruct (String.eqb_spec k' k0); [reflexivity|exact IH].
Qed.

(** Assigning to a key of the dictionary keeps the keys and their order;
    a new key goes last. *)
Lemma dict_set_keys k v d :
  (Fasta.dict_set k v d).*1 = if decide (k ∈ d.*1) then d.*1 else d.*1 ++ [k].
Proof.
  induction d as [|[k' v'] d IH]; [reflexivity|].
  destruct (decide (k ∈ ((k', v') :: d).*1)) as [Hin|Hout];
    simpl; destruct (String.eqb_spec k k') as [->|Hne]; csimpl;
    try reflexivity.
  - rewrite IH. apply elem_of_cons in Hin as [?|Hin]; [contradiction|].
    rewrite decide_True by exact Hin. reflexivity.
  - exfalso. apply Hout. left.
  - rewrite IH. rewrite decide_False; [reflexivity|].
    intros Hin. apply Hout. right. exact Hin.
Qed.

Lemma dict_set_NoDup k v d : NoDup d.*1 → NoDup (Fasta.dict_set k v d).*1.
Proof.
  intros Hnd. rewrite dict_set_keys. destruct (decide (k ∈ d.*1)); [exact Hnd|].
  apply NoDup_app. split; [exact Hnd|]. split.
  - intros x Hx Hk. apply list_elem_of_singleton in Hk. subst x. contradiction.
  - apply NoDup_singleton.
Qed.

Lemma dict_set_elem k v k' v' d :
  (k', v') ∈ Fasta.dict_set k v d → (k' = k ∧ v' = v) ∨ (k', v') ∈ d.
Proof.
  induction d as [|[k0 v0] d IH]; simpl.
  - intros Hin. apply list_elem_of_singleton in Hin. left. split; congruence.
  - destruct (String.eqb_spec k k0) as [->|Hne]; intros Hin;
      apply elem_of_cons in Hin as [Heq|Hin].
    + left. split; congruence.
    + right. right. exact Hin.
    + right. rewrite Heq. left.
    + apply IH in Hin as [?|?]; [left; assumption|right; right; assumption].
Qed.

Lemma loop_app ids_keep l1 l2 r :
  Fasta.loop ids_keep (l1 ++ l2) r
  = match Fasta.loop ids_keep l1 r with
    | inl e => inl e
    | inr r' => Fasta.loop ids_keep l2 r'
    end.
Proof.
  revert r. induction l1 as [|line l1 IH]; intros r; simpl; [reflexivity|].
  destruct (Fasta.step ids_keep line r); [reflexivity|apply IH].
Qed.

(** A property kept by every step is kept by the loop. *)
Lemma loop_preserves ids_keep (P : Fasta.reader → Prop) (all : list string) :
  (∀ line r r', line ∈ all → Fasta.step ids_keep line r = inr r' → P r → P r') →
  ∀ lines r r', lines ⊆ all → Fasta.loop ids_keep lines r = inr r' → P r → P r'.
Proof.
  intros Hstep lines. induction lines as [|line lines IH]; intros r r' Hsub Hrun HP;
    simpl in Hrun.
  - congruence.
  - destruct (Fasta.step ids_keep line r) as [e|r1] eqn:Hs; [discriminate|].
    apply (IH r1 r'); [set_solver|exact Hrun|].
    apply (Hstep line r r1); [set_solver|exact Hs|exact HP].
Qed.

Lemma chars_app (a b : string) :
  list_ascii_of_string (a ++ b)%string
  = list_ascii_of_string a ++ list_ascii_of_string b.
Proof.
  induction a as [|x a IH]; [reflexivity|].
  change (x :: list_ascii_of_string (a ++ b)%string
          = x :: (list_ascii_of_string a ++ list_ascii_of_string b)).
  rewrite IH. reflexivity.
Qed.

Lemma replace_char_chars a b s c :
  c ∈ list_ascii_of_string (replace_char a b s) →
  c = b ∨ (c ≠ a ∧ c ∈ list_ascii_of_string s).
Proof.
  induction s as [|x s IH]; simpl; intros Hin.
  - apply elem_of_nil in Hin. contradiction.
  - apply elem_of_cons in Hin as [->|Hin].
    + destruct (Ascii.eqb_spec x a) as [->|Hne]; [left; reflexivity|].
      right. split; [exact Hne|left].
    + apply IH in Hin as [?|[? ?]]; [left; assumption|].
      right. split; [assumption|right; assumption].
Qed.

(** A sanitized identifier holds neither ["/"] nor ["."]. *)
Lemma sanitize_chars u c :
  c ∈ list_ascii_of_string (Fasta.sanitize u) → c ≠ "/"%char ∧ c ≠ "."%char.
Proof.
  unfold Fasta.sanitize. intros Hin.
  apply replace_char_chars in Hin as [->|[Hdot Hin]].
  - split; discriminate.
  - apply replace_char_chars in Hin as [->|[Hslash _]].
    + split; discriminate.
    + split; assumption.
Qed.

Lemma remove_char_chars a s c :
  c ∈ list_ascii_of_string (Fasta.remove_char a s) →
  c ≠ a ∧ c ∈ list_ascii_of_string s.
Proof.
  induction s as [|x s IH]; simpl; intros Hin.
  - apply elem_of_nil in Hin. contradiction.
  - destruct (Ascii.eqb_spec x a) as [->|Hne].
    + apply IH in Hin as [? ?]. split; [assumption|right; assumption].
    + simpl in Hin. apply elem_of_cons in Hin as [->|Hin].
      * split; [exact Hne|left].
      * apply IH in Hin as [? ?]. split; [assumption|right; assumption].
Qed.

Lemma upper_ascii_not_lower c : is_lower (Fasta.upper_ascii c) = false.
Proof.
  unfold Fasta.upper_ascii, is_lower.
  destruct ((97 <=? nat_of_ascii c)%nat && (nat_of_ascii c <=? 122)%nat) eqn:Hl.
  - apply andb_true_iff in Hl as [H1 H2].
    apply Nat.leb_le in H1, H2.
    rewrite nat_ascii_embedding by lia.
    apply andb_false_iff. left. apply Nat.leb_gt. lia.
  - exact Hl.
Qed.

Lemma upper_chars s c :
  c ∈ list_ascii_of_string (Fasta.upper s) → is_lower c = false.
Proof.
  induction s as [|x s IH]; simpl; intros Hin.
  - apply elem_of_nil in Hin. contradiction.
  - apply elem_of_cons in Hin as [->|Hin]; [apply upper_ascii_not_lower|auto].
Qed.

(** What line 86 appends holds no dash and no lower-case letter. *)
Lemma clean_chars line c :
  c ∈ list_ascii_of_string (Fasta.clean line) →
  c ≠ "-"%char ∧ is_lower c = false.
Proof.
  unfold Fasta.clean. intros Hin.
  apply remove_char_chars in Hin as [Hd Hin].
  split; [exact Hd|]. eapply upper_chars. exact Hin.
Qed.

(** The four ways an iteration can go on without an error. *)
Lemma step_cases ids_keep line r r' :
  Fasta.step ids_keep line r = inr r' →
  (∃ u, header_of u line ∧ u ∈ ids_keep
        ∧ r' = Fasta.Reader
                 (Fasta.dict_set (Fasta.sanitize u) "" (Fasta.seqs r))
                 true (Fasta.sanitize u))
  ∨ (∃ u, header_of u line ∧ (u ∉ ids_keep)
          ∧ r' = Fasta.Reader (Fasta.seqs r) false u)
  ∨ (startswith ">" line = false ∧ Fasta.keep r = true
     ∧ ∃ v, Fasta.dict_get (Fasta.uid r) (Fasta.seqs r) = Some v
            ∧ r' = Fasta.Reader
                     (Fasta.dict_set (Fasta.uid r) (v ++ Fasta.clean line)%string
                        (Fasta.seqs r))
                     true (Fasta.uid r))
  ∨ (startswith ">" line = false ∧ Fasta.keep r = false ∧ r' = r).
Proof.
  unfold Fasta.step. intros Hs.
  destruct (startswith ">" line) eqn:Hh.
  - destruct (Fasta.first_token (Fasta.tail line)) as [u|] eqn:Ht; [|discriminate].
    destruct (bool_decide (u ∈ ids_keep)) eqn:Hk.
    + apply bool_decide_eq_true in Hk. inversion Hs; subst.
      left. exists u. repeat split; auto.
    + apply bool_decide_eq_false in Hk. inversion Hs; subst.
      right. left. exists u. repeat split; auto.
  - destruct (Fasta.keep r) eqn:Hk.
    + destruct (Fasta.dict_get (Fasta.uid r) (Fasta.seqs r)) as [v|] eqn:Hg;
        [|discriminate].
      inversion Hs; subst. right. right. left. repeat split; auto.
      exists v. auto.
    + inversion Hs; subst. right. right. right. auto.
Qed.

(** The keys stay distinct, and while [keep] holds the current identifier
    is a key: [seqs[uid] += ...] never misses. *)
Lemma step_keys_distinct ids_keep line r r' :
  Fasta.step ids_keep line r = inr r' →
  NoDup (Fasta.seqs r).*1
  ∧ (Fasta.keep r = true → Fasta.uid r ∈ (Fasta.seqs r).*1) →
  NoDup (Fasta.seqs r').*1
  ∧ (Fasta.keep r' = true → Fasta.uid r' ∈ (Fasta.seqs r').*1).
Proof.
  intros Hs [Hnd Hin].
  assert (∀ k v, k ∈ (Fasta.dict_set k v (Fasta.seqs r)).*1) as Hset.
  { intros k v. rewrite dict_set_keys. case_decide; [assumption|].
    apply elem_of_app. right. left. }
  apply step_cases in Hs
    as [(u & _ & _ & ->)|[(u & _ & _ & ->)|[(_ & Hk & v & _ & ->)|(_ & _ & ->)]]];
    simpl.
  - split; [apply dict_set_NoDup; exact Hnd|intros _; apply Hset].
  - split; [exact Hnd|discriminate].
  - split; [apply dict_set_NoDup; exact Hnd|intros _; apply Hset].
  - split; assumption.
Qed.
Lemma step_error ids_keep line r :
  (Fasta.keep r = true → Fasta.uid r ∈ (Fasta.seqs r).*1) →
  ∀ e, Fasta.step ids_keep line r = inl e ↔
       e = Fasta.IndexError ∧ blank_header line.
Proof.
  intros Hin e. unfold Fasta.step, blank_header.
  destruct (startswith ">" line) eqn:Hh.
  - destruct (Fasta.first_token (Fasta.tail line)) as [u|] eqn:Ht.
    + destruct (bool_decide (u ∈ ids_keep)); split; try discriminate;
        intros [_ [_ ?]]; discriminate.
    + split; [intros [= <-]; auto|intros [-> _]; reflexivity].
  - destruct (Fasta.keep r) eqn:Hk.
    + destruct (Fasta.dict_get (Fasta.uid r) (Fasta.seqs r)) as [v|] eqn:Hg.
      * split; [discriminate|intros [_ [? _]]; discriminate].
      * apply dict_get_None in Hg. exfalso. apply Hg, Hin. reflexivity.
    + split; [discriminate|intros [_ [? _]]; discriminate].
Qed.

Lemma loop_error ids_keep lines r :
  NoDup (Fasta.seqs r).*1
  ∧ (Fasta.keep r = true → Fasta.uid r ∈ (Fasta.seqs r).*1) →
  ∀ e, Fasta.loop ids_keep lines r = inl e ↔
       e = Fasta.IndexError ∧ Exists blank_header lines.
Proof.
  revert r. induction lines as [|line lines IH]; intros r Hinv e; simpl.
  - split; [discriminate|]. intros [_ Hex]. apply Exists_nil in Hex. contradiction.
  - destruct (Fasta.step ids_keep line r) as [e1|r1] eqn:Hs.
    + apply step_error in Hs as [-> Hb]; [|apply Hinv].
      split; [intros [= <-]; split; [reflexivity|left; exact Hb]|].
      intros [-> _]. reflexivity.
    + rewrite (IH r1) by (eapply step_keys_distinct; eauto).
      split; intros [-> Hex]; (split; [reflexivity|]).
      * right. exact Hex.
      * apply Exists_cons in Hex as [Hb|Hex]; [|exact Hex].
        exfalso.
        assert (Fasta.step ids_keep line r = inl Fasta.IndexError) as Hs'
          by (apply step_error; [apply Hinv|auto]).
        congruence.
Qed.

(** [read_fasta] fails exactly when some header line holds no identifier,
    and then with the [IndexError] of [split()[0]]; the allow-list plays no
    part in it. *)
Theorem read_fasta_fails_on_blank_header lines ids_keep e :
  Fasta.read_fasta lines ids_keep = inl e
  ↔ e = Fasta.IndexError ∧ Exists blank_header lines.
Proof.
  unfold Fasta.read_fasta.
  destruct (Fasta.loop ids_keep lines (Fasta.Reader [] false "")) as [e1|r1] eqn:Hl.
  - apply loop_error in Hl as [-> Hex].
    + split; [intros [= <-]; auto|intros [-> _]; reflexivity].
    + simpl. split; [constructor|discriminate].
  - split; [discriminate|]. intros [-> Hex].
    assert (Fasta.loop ids_keep lines (Fasta.Reader [] false "")
            = inl Fasta.IndexError) as Hl'.
    { apply loop_error; [simpl; split; [constructor|discriminate]|auto]. }
    congruence.
Qed.

Lemma read_fasta_NoDup lines ids_keep d :
  Fasta.read_fasta lines ids_keep = inr d → NoDup d.*1.
Proof.
  unfold Fasta.read_fasta.
  destruct (Fasta.loop ids_keep lines (Fasta.Reader [] false "")) as [e1|r1] eqn:Hl;
    [discriminate|]. intros [= <-].
  eapply (loop_preserves ids_keep
            (fun r => NoDup (Fasta.seqs r).*1
                      ∧ (Fasta.keep r = true → Fasta.uid r ∈ (Fasta.seqs r).*1))
            lines); [| |exact Hl|].
  - intros line r r' _ Hs. eapply step_keys_distinct. exact Hs.
  - reflexivity.
  - simpl. split; [constructor|discriminate].
Qed.

Lemma read_fasta_key_origin lines ids_keep d k :
  Fasta.read_fasta lines ids_keep = inr d → k ∈ d.*1 →
  ∃ line u, line ∈ lines ∧ header_of u line ∧ u ∈ ids_keep
            ∧ k = Fasta.sanitize u.
Proof.
  unfold Fasta.read_fasta.
  destruct (Fasta.loop ids_keep lines (Fasta.Reader [] false "")) as [e1|r1] eqn:Hl;
    [discriminate|]. intros [= <-].
  set (P := fun r : Fasta.reader =>
              ∀ k, k ∈ (Fasta.seqs r).*1 →
                ∃ line u, line ∈ lines ∧ header_of u line ∧ u ∈ ids_keep
                          ∧ k = Fasta.sanitize u).
  assert (P r1) as HP; [|apply HP].
  eapply (loop_preserves ids_keep P lines); [| |exact Hl|].
  - intros line r r' Hline Hs HPr k0 Hk.
    apply step_cases in Hs
      as [(u & Hh & Hu & ->)|[(u & _ & _ & ->)|[(_ & _ & v & Hg & ->)|(_ & _ & ->)]]];
      simpl in Hk; try (apply HPr; exact Hk).
    + rewrite dict_set_keys in Hk. case_decide; [apply HPr; exact Hk|].
      apply elem_of_app in Hk as [Hk|Hk]; [apply HPr; exact Hk|].
      apply list_elem_of_singleton in Hk. subst k0. exists line, u. auto.
    + rewrite dict_set_keys in Hk. case_decide; [apply HPr; exact Hk|].
      apply elem_of_app in Hk as [Hk|Hk]; [apply HPr; exact Hk|].
      apply list_elem_of_singleton in Hk. subst k0. apply HPr.
      apply dict_get_elem in Hg.
      apply (list_elem_of_fmap_2 fst) in Hg. exact Hg.
  - reflexivity.
  - intros k0 Hk. simpl in Hk. apply elem_of_nil in Hk. contradiction.
Qed.

(** The keys of the dictionary [read_fasta] returns are pairwise distinct;
    each is the sanitized identifier of a header of the file whose raw
    identifier is in the allow-list, and holds neither ["/"] nor ["."]. *)
Theorem read_fasta_keys lines ids_keep d :
  Fasta.read_fasta lines ids_keep = inr d →
  NoDup d.*1
  ∧ ∀ k, k ∈ d.*1 →
      (∃ line u, line ∈ lines ∧ header_of u line ∧ u ∈ ids_keep
                 ∧ k = Fasta.sanitize u)
      ∧ ∀ c, c ∈ list_ascii_of_string k → c ≠ "/"%char ∧ c ≠ "."%char.
Proof.
  intros Hrun. split; [eapply read_fasta_NoDup; exact Hrun|].
  intros k Hk.
  pose proof (read_fasta_key_origin _ _ _ _ Hrun Hk) as Horigin.
  split; [exact Horigin|].
  destruct Horigin as (line & u & _ & _ & _ & ->).
  intros c. apply sanitize_chars.
Qed.

(** The sequences [read_fasta] returns hold no dash and no lower-case
    letter. *)
Theorem read_fasta_values lines ids_keep d k v c :
  Fasta.read_fasta lines ids_keep = inr d →
  (k, v) ∈ d → c ∈ list_ascii_of_string v →
  c ≠ "-"%char ∧ is_lower c = false.
Proof.
  unfold Fasta.read_fasta.
  destruct (Fasta.loop ids_keep lines (Fasta.Reader [] false "")) as [e1|r1] eqn:Hl;
    [discriminate|]. intros [= <-].
  set (P := fun r : Fasta.reader =>
              ∀ k v c, (k, v) ∈ Fasta.seqs r → c ∈ list_ascii_of_string v →
                       c ≠ "-"%char ∧ is_lower c = false).
  assert (P r1) as HP; [|apply HP].
  eapply (loop_preserves ids_keep P lines); [| |exact Hl|].
  - intros line r r' _ Hs HPr k0 v0 c0 Hkv Hc.
    apply step_cases in Hs
      as [(u & _ & _ & ->)|[(u & _ & _ & ->)|[(_ & _ & v1 & Hg & ->)|(_ & _ & ->)]]];
      simpl in Hkv; try (eapply HPr; eauto; fail).
    + apply dict_set_elem in Hkv as [[-> ->]|Hkv]; [|eapply HPr; eauto].
      apply elem_of_nil in Hc. contradiction.
    + apply dict_set_elem in Hkv as [[-> ->]|Hkv]; [|eapply HPr; eauto].
      rewrite chars_app in Hc. apply elem_of_app in Hc as [Hc|Hc].
      * apply dict_get_elem in Hg. eapply HPr; eauto.
      * eapply clean_chars. exact Hc.
  - reflexivity.
  - intros k0 v0 c0 Hkv. simpl in Hkv. apply elem_of_nil in Hkv. contradiction.
Qed.
(** Lines that are not headers are appended, cleaned, to the current
    record. *)
Lemma loop_body_lines ids_keep body r acc :
  Fasta.keep r = true →
  Fasta.dict_get (Fasta.uid r) (Fasta.seqs r) = Some acc →
  Forall (fun l => startswith ">" l = false) body →
  ∃ r', Fasta.loop ids_keep body r = inr r'
        ∧ Fasta.keep r' = true ∧ Fasta.uid r' = Fasta.uid r
        ∧ Fasta.dict_get (Fasta.uid r) (Fasta.seqs r')
          = Some (acc ++ foldr (fun l s => Fasta.clean l ++ s) "" body)%string.
Proof.
  intros Hk Hg Hbody. revert r acc Hk Hg.
  induction Hbody as [|line body Hline _ IH]; intros r acc Hk Hg; simpl.
  - exists r. rewrite str_app_nil_r. auto.
  - unfold Fasta.step. rewrite Hline, Hk, Hg.
    destruct (IH (Fasta.Reader
                    (Fasta.dict_set (Fasta.uid r) (acc ++ Fasta.clean line)%string
                       (Fasta.seqs r)) true (Fasta.uid r))
                 (acc ++ Fasta.clean line)%string)
      as (r' & Hl & Hk' & Hu' & Hg'); [reflexivity|apply dict_get_set_eq|].
    simpl in *. exists r'. rewrite <- str_app_assoc. auto.
Qed.

(** What follows does not touch the record of [k] as long as no later
    header is sanitized to [k]. *)
Lemma loop_frame ids_keep k post r r' :
  Fasta.loop ids_keep post r = inr r' →
  Forall (fun l => ∀ u, header_of u l → u ∈ ids_keep → Fasta.sanitize u ≠ k) post →
  (Fasta.keep r = false ∨ Fasta.uid r ≠ k
   ∨ match post with h :: _ => startswith ">" h = true | [] => True end) →
  Fasta.dict_get k (Fasta.seqs r') = Fasta.dict_get k (Fasta.seqs r).
Proof.
  intros Hl Hpost. revert r Hl.
  induction Hpost as [|line post Hline _ IH]; intros r Hl Hst; simpl in Hl.
  - congruence.
  - destruct (Fasta.step ids_keep line r) as [e1|r1] eqn:Hs; [discriminate|].
    apply step_cases in Hs
      as [(u & Hh & Hu & ->)|[(u & _ & _ & ->)|[(Hn & Hk & v & _ & ->)|(Hn & Hkf & ->)]]].
    + rewrite (IH _ Hl); simpl.
      * apply dict_get_set_ne. apply Hline; assumption.
      * right. left. apply Hline; assumption.
    + rewrite (IH _ Hl); simpl; auto.
    + assert (Fasta.uid r ≠ k) as Hne.
      { destruct Hst as [Hf|[Hne|Hh]]; [congruence|exact Hne|congruence]. }
      rewrite (IH _ Hl); simpl; [apply dict_get_set_ne; exact Hne|auto].
    + apply (IH _ Hl). left. exact Hkf.
Qed.

(** The record kept for an identifier is the last one of the file that is
    sanitized to it: the cleaned lines between its header and the next
    header, concatenated.  An earlier record with the same sanitized
    identifier is lost. *)
Theorem read_fasta_last_record lines ids_keep d pre hdr body post u :
  Fasta.read_fasta lines ids_keep = inr d →
  lines = pre ++ hdr :: body ++ post →
  header_of u hdr → u ∈ ids_keep →
  Forall (fun l => startswith ">" l = false) body →
  match post with h :: _ => startswith ">" h = true | [] => True end →
  Forall (fun l => ∀ u', header_of u' l → u' ∈ ids_keep →
                        Fasta.sanitize u' ≠ Fasta.sanitize u) post →
  Fasta.dict_get (Fasta.sanitize u) d
  = Some (foldr (fun l s => Fasta.clean l ++ s)%string "" body).
Proof.
  unfold Fasta.read_fasta. intros Hrun -> [Hh Ht] Hu Hbody Hnext Hpost.
  destruct (Fasta.loop ids_keep (pre ++ hdr :: body ++ post)
              (Fasta.Reader [] false "")) as [e1|r'] eqn:Hl; [discriminate|].
  inversion Hrun; subst d. clear Hrun.
  rewrite loop_app in Hl.
  destruct (Fasta.loop ids_keep pre (Fasta.Reader [] false "")) as [e1|r1];
    [discriminate|].
  simpl in Hl. unfold Fasta.step in Hl. rewrite Hh, Ht in Hl.
  rewrite bool_decide_eq_true_2 in Hl by exact Hu.
  rewrite loop_app in Hl.
  destruct (loop_body_lines ids_keep body
              (Fasta.Reader
                 (Fasta.dict_set (Fasta.sanitize u) "" (Fasta.seqs r1))
                 true (Fasta.sanitize u)) "")
    as (r3 & Hl3 & Hk3 & Hu3 & Hg3);
    [reflexivity|apply dict_get_set_eq|exact Hbody|].
  rewrite Hl3 in Hl. simpl in Hg3.
  rewrite (loop_frame ids_keep (Fasta.sanitize u) post r3 r' Hl Hpost); auto.
Qed.
End FastaFacts.

(*PENDING
(** ** The whole run *)

Section RunFacts.

Variable F : Type.
Variable Fmean : list F -> F.
Variable Fstr : F -> string.
Variable W : Type.
Variable gpu_forward : W -> list string -> result (tensor3 F) * W.
Variable gpu_extract : W -> bool -> list (list F) -> nat -> option exn * W.
Variable empty_cache : W -> W.
Variable cpu_forward : W -> list string -> result (tensor3 F) * W.
Variable cpu_extract : W -> bool -> list (list F) -> nat -> option exn * W.
Variable to_device : W -> option exn * W.

Local Abbreviation safe_embed_rec :=
  (safe_embed_rec F Fmean W gpu_forward gpu_extract empty_cache
   cpu_forward cpu_extract to_device).
Local Abbreviation safe_embed :=
  (safe_embed F Fmean W gpu_forward gpu_extract empty_cache
   cpu_forward cpu_extract to_device).
Local Abbreviation checkpoint := (checkpoint F Fstr W).
Local Abbreviation loop_body :=
  (loop_body F Fmean Fstr W gpu_forward gpu_extract empty_cache
   cpu_forward cpu_extract to_device).
Local Abbreviation for_loop :=
  (for_loop F Fmean Fstr W gpu_forward gpu_extract empty_cache
   cpu_forward cpu_extract to_device).
Local Abbreviation embed_fasta :=
  (embed_fasta F Fmean Fstr W gpu_forward gpu_extract empty_cache
   cpu_forward cpu_extract to_device).

Implicit Types st : state F W.
Implicit Types ls : loop_state F W.
Implicit Types batch : list (string * string * nat).

(** The three ways [checkpoint] can go. *)
Lemma checkpoint_cases cfg out_npz i n idx st st' r :
  checkpoint cfg out_npz i n idx st = (st', r) →
  (save_every cfg = 0%Z ∧ st' = st ∧ r = Some zero_division)
  ∨ (save_every cfg ≠ 0%Z ∧ r = None
     ∧ ((idx `mod` save_every cfg =? 0)%Z || (i =? n)%nat) = true
     ∧ st' = log (Flush (emb_dict st))
               (State (emb_dict st) (world st)
                  (save_ids_and_embeddings_tsv Fstr (emb_dict st) out_npz (fs st))
                  (trace st)))
  ∨ (save_every cfg ≠ 0%Z ∧ r = None
     ∧ ((idx `mod` save_every cfg =? 0)%Z || (i =? n)%nat) = false
     ∧ st' = st).
Proof.
  unfold checkpoint. intros Hrun.
  destruct (save_every cfg =? 0)%Z eqn:Hse.
  - apply Z.eqb_eq in Hse. inversion Hrun; subst. left. auto.
  - apply Z.eqb_neq in Hse.
    destruct ((idx `mod` save_every cfg =? 0)%Z || (i =? n)%nat) eqn:Hc;
      inversion Hrun; subst.
    + right. left. auto.
    + right. right. auto.
Qed.

(** The two ways an iteration can go: the unit stays open, or it is closed
    and handed to [safe_embed], then to [checkpoint] when that returned. *)
Lemma loop_body_cases cfg out_npz pp n i entry ls ls' r :
  loop_body cfg out_npz pp n i entry ls = (ls', r) →
  let seq := normalize entry.2 in
  let batch :=
    ls_batch ls ++ [(entry.1, join " " (chars seq), String.length seq)] in
  let ids := map (fun m => m.1.1) batch in
  let lens := map (fun m => m.2) batch in
  (flush_cond cfg batch i n seq = false
   ∧ ls' = LoopState (ls_state ls) batch (ls_batch_idx ls) ∧ r = None)
  ∨ (flush_cond cfg batch i n seq = true
     ∧ ∃ st1 r1 tr,
         safe_embed ids (map (fun m => m.1.2) batch) lens pp
           (log (Submit ids lens) (ls_state ls)) = (st1, r1)
         ∧ writes (log (Submit ids lens) (ls_state ls)) st1 tr
         ∧ put_ids tr `prefix_of` ids
         ∧ (r1 = None → put_ids tr = ids)
         ∧ submitted tr = [] ∧ flushed tr = []
         ∧ match r1 with
           | Some e => ls' = LoopState st1 [] (ls_batch_idx ls + 1) ∧ r = Some e
           | None =>
               ∃ st2, checkpoint cfg out_npz i n (ls_batch_idx ls + 1) st1 = (st2, r)
                      ∧ ls' = LoopState st2 [] (ls_batch_idx ls + 1)
           end).
Proof.
  intros Hrun seq batch ids lens. unfold loop_body in Hrun.
  fold seq in Hrun. fold batch in Hrun.
  destruct (flush_cond cfg batch i n seq) eqn:Hc; simpl in Hrun.
  2:{ left. inversion Hrun; subst. auto. }
  right. split; [reflexivity|].
  fold ids in Hrun. fold lens in Hrun.
  match type of Hrun with context [safe_embed ids ?sp lens pp ?s] =>
    destruct (safe_embed ids sp lens pp s) as [st1 r1] eqn:Hemb end.
  unfold safe_embed in Hemb.
  apply safe_embed_rec_effect in Hemb
    as (tr & Hw & Hp & Hall & _ & _ & Hs & Hf); [|lia].
  exists st1, r1, tr. split; [reflexivity|].
  repeat (split; [assumption|]).
  destruct r1 as [e|].
  - inversion Hrun; subst. auto.
  - destruct (checkpoint cfg out_npz i n (ls_batch_idx ls + 1) st1)
      as [st2 r2] eqn:Hck.
    inversion Hrun; subst. exists st2. auto.
Qed.

(** A property of the loop state kept by every iteration is kept by the
    loop. *)
Lemma for_loop_preserves (P : loop_state F W → Prop) cfg out_npz pp n :
  (∀ i entry ls ls' r,
     loop_body cfg out_npz pp n i entry ls = (ls', r) → P ls → P ls') →
  ∀ entries i ls ls' r,
    for_loop cfg out_npz pp n i entries ls = (ls', r) → P ls → P ls'.
Proof.
  intros Hstep entries. induction entries as [|entry rest IH];
    intros i ls ls' r Hrun HP; simpl in Hrun.
  - inversion Hrun; subst. exact HP.
  - destruct (loop_body cfg out_npz pp n i entry ls) as [ls1 r1] eqn:Hbody.
    pose proof (Hstep _ _ _ _ _ Hbody HP) as HP1.
    destruct r1 as [e|]; [inversion Hrun; subst; exact HP1|].
    eapply IH; eauto.
Qed.

(** The destination holds the serialization of the last store flushed, or
    what it held before the run when nothing was flushed; no other file is
    touched. *)
Lemma loop_body_files (files : gmap string string) cfg out_npz pp n i entry
    ls ls' r :
  loop_body cfg out_npz pp n i entry ls = (ls', r) →
  (∀ p, p ≠ out_npz → fs (ls_state ls) !! p = files !! p)
  ∧ fs (ls_state ls) !! out_npz
    = match last (flushed (trace (ls_state ls))) with
      | None => files !! out_npz
      | Some d => Some (tsv_of Fstr d)
      end →
  (∀ p, p ≠ out_npz → fs (ls_state ls') !! p = files !! p)
  ∧ fs (ls_state ls') !! out_npz
    = match last (flushed (trace (ls_state ls'))) with
      | None => files !! out_npz
      | Some d => Some (tsv_of Fstr d)
      end.
Proof.
  intros Hbody [Hother Hout].
  apply loop_body_cases in Hbody
    as [(_ & -> & _)|(_ & st1 & r1 & tr & _ & Hw & _ & Hall & _ & Hf & Hrest)].
  { simpl. auto. }
  destruct Hw as (Ht & Hfs & Hdom & _). simpl in Ht, Hfs, Hdom.
  assert ((∀ p, p ≠ out_npz → fs st1 !! p = files !! p)
          ∧ fs st1 !! out_npz
            = match last (flushed (trace st1)) with
              | None => files !! out_npz
              | Some d => Some (tsv_of Fstr d)
              end) as [Hother1 Hout1].
  { rewrite Hfs, Ht, !flushed_app, Hf. simpl. rewrite !app_nil_r. auto. }
  destruct r1 as [e|].
  { destruct Hrest as [-> _]. simpl. auto. }
  destruct Hrest as (st2 & Hck & ->). simpl.
  apply checkpoint_cases in Hck
    as [(_ & -> & _)|[(_ & _ & _ & ->)|(_ & _ & _ & ->)]]; auto.
  simpl. rewrite flushed_app. simpl. rewrite last_snoc.
  assert (emb_dict st1 ≠ ∅) as Hne.
  { intros Hempty. apply (f_equal dom) in Hempty.
    rewrite Hdom, (Hall eq_refl), dom_empty_L in Hempty.
    rewrite map_app in Hempty. simpl in Hempty.
    rewrite list_to_set_app_L in Hempty. set_solver. }
  unfold save_ids_and_embeddings_tsv.
  destruct (decide (emb_dict st1 = ∅)) as [|_]; [contradiction|].
  split.
  - intros p Hp. rewrite lookup_insert_ne by congruence. auto.
  - apply lookup_insert_eq.
Qed.

(** The keys of the store are the identifiers written so far. *)
Lemma loop_body_dom cfg out_npz pp n i entry ls ls' r :
  loop_body cfg out_npz pp n i entry ls = (ls', r) →
  dom (emb_dict (ls_state ls)) = list_to_set (put_ids (trace (ls_state ls))) →
  dom (emb_dict (ls_state ls')) = list_to_set (put_ids (trace (ls_state ls'))).
Proof.
  intros Hbody Hd.
  apply loop_body_cases in Hbody
    as [(_ & -> & _)|(_ & st1 & r1 & tr & _ & Hw & _ & _ & _ & _ & Hrest)].
  { simpl. exact Hd. }
  destruct Hw as (Ht & _ & Hdom & _). simpl in Ht, Hdom.
  assert (dom (emb_dict st1) = list_to_set (put_ids (trace st1))) as Hd1.
  { rewrite Hdom, Ht, Hd, !put_ids_app, !list_to_set_app_L. simpl.
    set_solver. }
  destruct r1 as [e|].
  { destruct Hrest as [-> _]. exact Hd1. }
  destruct Hrest as (st2 & Hck & ->). simpl.
  apply checkpoint_cases in Hck
    as [(_ & -> & _)|[(_ & _ & _ & ->)|(_ & _ & _ & ->)]]; auto.
  simpl. rewrite put_ids_app. simpl. rewrite app_nil_r. exact Hd1.
Qed.
(** In a run of the loop that ends normally every entry has been handed to
    [safe_embed] and written, in order, and no unit is left open. *)
Lemma for_loop_complete cfg out_npz pp n i entries ls ls' :
  (i + length entries = S n)%nat →
  for_loop cfg out_npz pp n i entries ls = (ls', None) →
  put_ids (trace (ls_state ls')) ++ map (fun m => m.1.1) (ls_batch ls')
  = put_ids (trace (ls_state ls)) ++ map (fun m => m.1.1) (ls_batch ls)
    ++ entries.*1
  ∧ (entries ≠ [] →
     ls_batch ls' = []
     ∧ last (flushed (trace (ls_state ls'))) = Some (emb_dict (ls_state ls'))).
Proof.
  revert i ls. induction entries as [|entry rest IH]; intros i ls Hi Hrun;
    simpl in Hrun.
  { inversion Hrun; subst. rewrite app_nil_r. split; [reflexivity|congruence]. }
  destruct (loop_body cfg out_npz pp n i entry ls) as [ls1 r1] eqn:Hbody.
  destruct r1 as [e|]; [discriminate|].
  assert (rest = [] → (i =? n)%nat = true) as Hlast.
  { intros ->. simpl in Hi. apply Nat.eqb_eq. lia. }
  pose proof Hrun as Hrun0.
  apply IH in Hrun as [Hputs Hend]; [|simpl in Hi; lia].
  apply loop_body_cases in Hbody
    as [(Hc & -> & _)|(_ & st1 & r1 & tr & _ & Hw & _ & Hall & _ & Hf & Hrest)].
  - simpl in *. split.
    + rewrite Hputs, map_app. simpl. rewrite <- !app_assoc. reflexivity.
    + intros _. destruct rest as [|e2 rest]; [|apply Hend; discriminate].
      unfold flush_cond in Hc. rewrite (Hlast eq_refl) in Hc.
      rewrite orb_true_r in Hc. discriminate.
  - destruct r1 as [e|]; [destruct Hrest as [_ ?]; discriminate|].
    destruct Hrest as (st2 & Hck & ->). simpl in *.
    destruct Hw as (Ht & _). simpl in Ht.
    assert (put_ids (trace st2) = put_ids (trace st1)
            ∧ (rest = [] → last (flushed (trace st2)) = Some (emb_dict st2)))
      as [Hp2 Hl2].
    { apply checkpoint_cases in Hck
        as [(_ & _ & ?)|[(_ & _ & _ & ->)|(_ & _ & Hno & ->)]];
        [discriminate| |].
      - simpl. rewrite put_ids_app, flushed_app. simpl.
        rewrite app_nil_r, last_snoc. auto.
      - split; [reflexivity|]. intros Hr. rewrite (Hlast Hr) in Hno.
        rewrite orb_true_r in Hno. discriminate. }
    split.
    + rewrite Hputs, Hp2, Ht, !put_ids_app, (Hall eq_refl), map_app. simpl.
      rewrite <- !app_assoc. reflexivity.
    + intros _. destruct rest as [|e2 rest]; [|apply Hend; discriminate].
      simpl in Hrun0. inversion Hrun0; subst ls'. simpl.
      split; [reflexivity|apply Hl2; reflexivity].
Qed.
Lemma embed_fasta_unfold seqs out_npz pp cfg w0 files :
  seqs ≠ [] →
  embed_fasta seqs out_npz pp cfg w0 files
  = let '(ls, r) :=
      for_loop cfg out_npz pp (length (sort_by_len_desc seqs)) 1
        (sort_by_len_desc seqs) (LoopState (State ∅ w0 files []) [] 0) in
    (ls_state ls, r).
Proof. intros Hne. unfold embed_fasta. destruct seqs; [contradiction|reflexivity]. Qed.

Lemma sort_by_len_desc_nil seqs : sort_by_len_desc seqs = [] → seqs = [].
Proof.
  intros Hnil. apply Permutation_nil_r. rewrite <- Hnil.
  symmetry. apply sort_by_len_desc_perm.
Qed.

Lemma embed_fasta_complete seqs out_npz pp cfg w0 files :
  (embed_fasta seqs out_npz pp cfg w0 files).2 = None →
  put_ids (trace (embed_fasta seqs out_npz pp cfg w0 files).1)
  = (sort_by_len_desc seqs).*1
  ∧ dom (emb_dict (embed_fasta seqs out_npz pp cfg w0 files).1)
    = list_to_set seqs.*1
  ∧ (NoDup seqs.*1 →
     size (emb_dict (embed_fasta seqs out_npz pp cfg w0 files).1) = length seqs).
Proof.
  intros Hok.
  assert (seqs ≠ []) as Hne by (intros ->; discriminate).
  rewrite embed_fasta_unfold in * by exact Hne.
  destruct (for_loop cfg out_npz pp (length (sort_by_len_desc seqs)) 1
              (sort_by_len_desc seqs) (LoopState (State ∅ w0 files []) [] 0))
    as [ls r] eqn:Hrun.
  simpl in Hok. subst r. simpl.
  pose proof Hrun as Hrun'.
  apply for_loop_complete in Hrun as [Hputs Hend]; [|reflexivity].
  destruct Hend as [Hb _];
    [intros Hnil; apply Hne, sort_by_len_desc_nil; exact Hnil|].
  rewrite Hb in Hputs. simpl in Hputs. rewrite app_nil_r in Hputs.
  assert (dom (emb_dict (ls_state ls)) = list_to_set (put_ids (trace (ls_state ls))))
    as Hdom.
  { apply (for_loop_preserves
             (fun ls => dom (emb_dict (ls_state ls))
                        = list_to_set (put_ids (trace (ls_state ls))))
             cfg out_npz pp _) in Hrun'; [exact Hrun'| |].
    - intros i entry ls1 ls2 r1. apply loop_body_dom.
    - simpl. rewrite dom_empty_L. reflexivity. }
  assert (dom (emb_dict (ls_state ls)) = list_to_set seqs.*1) as Hdom'.
  { rewrite Hdom, Hputs. apply list_to_set_perm_L.
    apply fmap_Permutation, sort_by_len_desc_perm. }
  split; [exact Hputs|]. split; [exact Hdom'|].
  intros Hnd. rewrite <- size_dom, Hdom', size_list_to_set by exact Hnd.
  apply length_fmap.
Qed.

(** Completeness: a run that ends normally has written every sequence of
    the input, in decreasing order of length, and the store holds exactly
    their identifiers. *)
Theorem run_embeds_every_sequence seqs out_npz pp cfg w0 files :
  (embed_fasta seqs out_npz pp cfg w0 files).2 = None →
  put_ids (trace (embed_fasta seqs out_npz pp cfg w0 files).1)
  = (sort_by_len_desc seqs).*1
  ∧ dom (emb_dict (embed_fasta seqs out_npz pp cfg w0 files).1)
    = list_to_set seqs.*1
  ∧ (NoDup seqs.*1 →
     size (emb_dict (embed_fasta seqs out_npz pp cfg w0 files).1) = length seqs).
Proof. apply embed_fasta_complete. Qed.

Lemma embed_fasta_files seqs out_npz pp cfg w0 (files : gmap string string) :
  (∀ p, p ≠ out_npz →
     fs (embed_fasta seqs out_npz pp cfg w0 files).1 !! p = files !! p)
  ∧ fs (embed_fasta seqs out_npz pp cfg w0 files).1 !! out_npz
    = match last (flushed (trace (embed_fasta seqs out_npz pp cfg w0 files).1)) with
      | None => files !! out_npz
      | Some d => Some (tsv_of Fstr d)
      end.
Proof.
  destruct (decide (seqs = [])) as [->|Hne]; [simpl; auto|].
  rewrite embed_fasta_unfold by exact Hne.
  destruct (for_loop cfg out_npz pp (length (sort_by_len_desc seqs)) 1
              (sort_by_len_desc seqs) (LoopState (State ∅ w0 files []) [] 0))
    as [ls r] eqn:Hrun.
  simpl.
  apply (for_loop_preserves
           (fun ls =>
              (∀ p, p ≠ out_npz → fs (ls_state ls) !! p = files !! p)
              ∧ fs (ls_state ls) !! out_npz
                = match last (flushed (trace (ls_state ls))) with
                  | None => files !! out_npz
                  | Some d => Some (tsv_of Fstr d)
                  end)
           cfg out_npz pp _) in Hrun; [exact Hrun| |].
  - intros i entry ls1 ls2 r1. apply loop_body_files.
  - simpl. auto.
Qed.

(** Whatever happens in a run, no file other than the destination changes,
    and the destination holds the serialization of the last store flushed,
    or still what it held before the run when nothing was flushed. *)
Theorem destination_holds_last_snapshot seqs out_npz pp cfg w0
    (files : gmap string string) :
  (∀ p, p ≠ out_npz →
     fs (embed_fasta seqs out_npz pp cfg w0 files).1 !! p = files !! p)
  ∧ fs (embed_fasta seqs out_npz pp cfg w0 files).1 !! out_npz
    = match last (flushed (trace (embed_fasta seqs out_npz pp cfg w0 files).1)) with
      | None => files !! out_npz
      | Some d => Some (tsv_of Fstr d)
      end.
Proof. apply embed_fasta_files. Qed.

(** A run that ends normally leaves in the destination the serialization
    of the complete final store. *)
Theorem run_ends_with_full_flush seqs out_npz pp cfg w0
    (files : gmap string string) :
  (embed_fasta seqs out_npz pp cfg w0 files).2 = None →
  fs (embed_fasta seqs out_npz pp cfg w0 files).1 !! out_npz
  = Some (tsv_of Fstr (emb_dict (embed_fasta seqs out_npz pp cfg w0 files).1))
  ∧ last (flushed (trace (embed_fasta seqs out_npz pp cfg w0 files).1))
    = Some (emb_dict (embed_fasta seqs out_npz pp cfg w0 files).1).
Proof.
  intros Hok.
  destruct (embed_fasta_files seqs out_npz pp cfg w0 files) as [_ Hout].
  assert (seqs ≠ []) as Hne by (intros ->; discriminate).
  assert (last (flushed (trace (embed_fasta seqs out_npz pp cfg w0 files).1))
          = Some (emb_dict (embed_fasta seqs out_npz pp cfg w0 files).1)) as Hlast.
  { rewrite embed_fasta_unfold in * by exact Hne.
    destruct (for_loop cfg out_npz pp (length (sort_by_len_desc seqs)) 1
                (sort_by_len_desc seqs) (LoopState (State ∅ w0 files []) [] 0))
      as [ls r] eqn:Hrun.
    simpl in Hok. subst r. simpl.
    apply for_loop_complete in Hrun as [_ Hend]; [|reflexivity].
    apply Hend. intros Hnil. apply Hne, sort_by_len_desc_nil. exact Hnil. }
  rewrite Hlast in Hout. split; assumption.
Qed.
Lemma for_loop_save_every_zero cfg out_npz pp n i entries ls ls' r :
  save_every cfg = 0%Z → entries ≠ [] → (i + length entries = S n)%nat →
  for_loop cfg out_npz pp n i entries ls = (ls', r) →
  fs (ls_state ls') = fs (ls_state ls)
  ∧ (∃ tr, trace (ls_state ls') = trace (ls_state ls) ++ tr
           ∧ length (submitted tr) = 1%nat ∧ flushed tr = [])
  ∧ (r = Some zero_division
     ∨ ∃ ids spaced lens st e,
         (safe_embed ids spaced lens pp st).2 = Some e ∧ r = Some e).
Proof.
  intros Hse. revert i ls.
  induction entries as [|entry rest IH]; intros i ls Hne Hi Hrun; [congruence|].
  simpl in Hrun.
  destruct (loop_body cfg out_npz pp n i entry ls) as [ls1 r1] eqn:Hbody.
  apply loop_body_cases in Hbody
    as [(Hc & -> & ->)|(_ & st1 & r2 & tr & Hemb & Hw & _ & _ & Hs & Hf & Hrest)].
  - destruct rest as [|e2 rest].
    { unfold flush_cond in Hc.
      replace (i =? n)%nat with true in Hc
        by (symmetry; apply Nat.eqb_eq; simpl in Hi; lia).
      rewrite orb_true_r in Hc. discriminate. }
    apply IH in Hrun; [exact Hrun|discriminate|simpl in *; lia].
  - destruct Hw as (Ht & Hfs & _). simpl in Ht, Hfs.
    destruct r2 as [e|].
    + destruct Hrest as [-> ->]. inversion Hrun; subst. simpl.
      split; [exact Hfs|]. split.
      * eexists. rewrite Ht, <- app_assoc. split; [reflexivity|].
        simpl. rewrite Hs, Hf. auto.
      * right. eexists _, _, _, _, e. rewrite Hemb. auto.
    + destruct Hrest as (st2 & Hck & ->).
      apply checkpoint_cases in Hck
        as [(_ & -> & ->)|[(Hnz & _)|(Hnz & _)]]; try contradiction.
      inversion Hrun; subst. simpl.
      split; [exact Hfs|]. split; [|left; reflexivity].
      eexists. rewrite Ht, <- app_assoc. split; [reflexivity|].
      simpl. rewrite Hs, Hf. auto.
Qed.

(** With [save_every = 0] a run never ends normally: it stops at the first
    unit, with the [ZeroDivisionError] of [batch_idx % save_every] unless
    [safe_embed] failed on that unit, and nothing is flushed: the file
    system is left as it was. *)
Theorem zero_save_every_aborts seqs out_npz pp cfg w0 (files : gmap string string) :
  save_every cfg = 0%Z → seqs ≠ [] →
  fs (embed_fasta seqs out_npz pp cfg w0 files).1 = files
  ∧ flushed (trace (embed_fasta seqs out_npz pp cfg w0 files).1) = []
  ∧ length (submitted (trace (embed_fasta seqs out_npz pp cfg w0 files).1)) = 1%nat
  ∧ ((embed_fasta seqs out_npz pp cfg w0 files).2 = Some zero_division
     ∨ ∃ ids spaced lens st e,
         (safe_embed ids spaced lens pp st).2 = Some e
         ∧ (embed_fasta seqs out_npz pp cfg w0 files).2 = Some e).
Proof.
  intros Hse Hne. rewrite embed_fasta_unfold by exact Hne.
  destruct (for_loop cfg out_npz pp (length (sort_by_len_desc seqs)) 1
              (sort_by_len_desc seqs) (LoopState (State ∅ w0 files []) [] 0))
    as [ls r] eqn:Hrun.
  apply for_loop_save_every_zero in Hrun
    as (Hfs & (tr & Ht & Hs & Hf) & Hr); auto.
  - simpl in *. subst tr. auto.
  - intros Hnil. apply Hne, sort_by_len_desc_nil. exact Hnil.
Qed.
Lemma insert_by_len_HdRel y x (l : list (string * string)) :
  HdRel (fun a b => (String.length b.2 ≤ String.length a.2)%nat) y l →
  (String.length x.2 ≤ String.length y.2)%nat →
  HdRel (fun a b => (String.length b.2 ≤ String.length a.2)%nat) y
    (insert_by_len x l).
Proof.
  intros Hhd Hxy. destruct Hhd as [|z l Hz]; simpl.
  - constructor. exact Hxy.
  - destruct (String.length x.2 <? String.length z.2)%nat;
      constructor; assumption.
Qed.

(** Line 171 gives the entries by decreasing length. *)
Lemma sort_by_len_desc_Sorted (items : list (string * string)) :
  Sorted (fun a b => (String.length b.2 ≤ String.length a.2)%nat)
    (sort_by_len_desc items).
Proof.
  unfold sort_by_len_desc. induction items as [|x items IH]; simpl.
  - constructor.
  - induction IH as [|y l Hs IHl Hhd]; simpl.
    + repeat constructor.
    + destruct (String.length x.2 <? String.length y.2)%nat eqn:Hlt.
      * apply Nat.ltb_lt in Hlt. constructor; [exact IHl|].
        apply insert_by_len_HdRel; [exact Hhd|lia].
      * apply Nat.ltb_ge in Hlt. constructor; [constructor; assumption|].
        constructor. exact Hlt.
Qed.

(** In a run that ends normally the sequences are handed to [safe_embed] by
    decreasing length: the lengths of the units, put end to end, never
    increase, and they are the lengths of the input sequences. *)
Theorem units_by_decreasing_length seqs out_npz pp cfg w0 files :
  (embed_fasta seqs out_npz pp cfg w0 files).2 = None →
  Sorted (fun a b => (b ≤ a)%nat)
    (concat (submitted (trace (embed_fasta seqs out_npz pp cfg w0 files).1)))
  ∧ concat (submitted (trace (embed_fasta seqs out_npz pp cfg w0 files).1))
    ≡ₚ (fun e => String.length e.2) <$> seqs.
Proof.
  intros Hok.
  destruct (embed_fasta_spec F Fmean Fstr W gpu_forward empty_cache cpu_forward
              to_device seqs out_npz pp cfg w0 files) as (_ & Heq & _).
  destruct (Heq Hok) as [Hne ->].
  rewrite pack_lens_concat.
  2:{ intros Hnil. apply fmap_nil_inv in Hnil.
      apply Hne, sort_by_len_desc_nil. exact Hnil. }
  simpl. split.
  - apply (Sorted_fmap _
             (fun a b : string * string =>
                (String.length b.2 ≤ String.length a.2)%nat)).
    + intros a b Hab. rewrite !entry_len_length. exact Hab.
    + apply sort_by_len_desc_Sorted.
  - rewrite sort_by_len_desc_perm.
    replace (entry_len <$> seqs) with ((fun e => String.length e.2) <$> seqs);
      [reflexivity|].
    apply list_fmap_ext. intros k e _. symmetry. apply entry_len_length.
Qed.
Lemma filter_seq_shift (f : nat → bool) (m : nat) :
  length (List.filter f (seq 2 m))
  = length (List.filter (fun j => f (S j)) (seq 1 m)).
Proof.
  rewrite <- (seq_shift m 1).
  generalize (seq 1 m). intros l. induction l as [|x l IH]; simpl; [reflexivity|].
  destruct (f (S x)); simpl; rewrite IH; reflexivity.
Qed.

Lemma filter_cons_length (f : nat → bool) (a : nat) (l : list nat) :
  length (List.filter f (a :: l))
  = ((if f a then 1 else 0) + length (List.filter f l))%nat.
Proof. simpl. destruct (f a); reflexivity. Qed.

Lemma flush_count_step (se : Z) (c m2 : nat) (due : bool) :
  m2 ≠ 0%nat →
  due = ((Z.of_nat c + 1) `mod` se =? 0)%Z →
  ((if due then 1 else 0)
   + length (List.filter
               (fun j => (Z.of_nat (S c + j) mod se =? 0)%Z || (j =? m2)%nat)
               (seq 1 m2)))%nat
  = length (List.filter
              (fun j => (Z.of_nat (c + j) mod se =? 0)%Z || (j =? S m2)%nat)
              (seq 1 (S m2))).
Proof.
  intros Hm ->.
  change (seq 1 (S m2)) with (1%nat :: seq 2 m2).
  rewrite filter_cons_length, filter_seq_shift. cbv beta.
  replace (1 =? S m2)%nat with false
    by (symmetry; apply Nat.eqb_neq; lia).
  rewrite orb_false_r.
  replace (Z.of_nat (c + 1)) with (Z.of_nat c + 1)%Z by lia.
  f_equal. f_equal. apply List.filter_ext. intros j.
  replace (c + S j)%nat with (S c + j)%nat by lia. reflexivity.
Qed.

(** When the loop ends normally, starting with [c] units already closed,
    the flushes made are those that [flush_due] names. *)
Lemma for_loop_flushes cfg out_npz pp n i entries ls ls' (c : nat) :
  (i + length entries = S n)%nat →
  ls_batch_idx ls = Z.of_nat c →
  for_loop cfg out_npz pp n i entries ls = (ls', None) →
  ∃ tr, trace (ls_state ls') = trace (ls_state ls) ++ tr
    ∧ (entries ≠ [] → submitted tr ≠ [])
    ∧ length (flushed tr)
      = length (List.filter
                  (fun j => (Z.of_nat (c + j) mod save_every cfg =? 0)%Z
                            || (j =? length (submitted tr))%nat)
                  (seq 1 (length (submitted tr)))).
Proof.
  revert i ls c. induction entries as [|entry rest IH]; intros i ls c Hi Hc Hrun;
    simpl in Hrun.
  { inversion Hrun; subst. exists []. rewrite app_nil_r. simpl.
    split; [reflexivity|]. split; [congruence|reflexivity]. }
  destruct (loop_body cfg out_npz pp n i entry ls) as [ls1 r1] eqn:Hbody.
  destruct r1 as [e|]; [discriminate|].
  apply loop_body_cases in Hbody
    as [(Hfc & -> & _)|(_ & st1 & r1 & tr & _ & Hw & _ & _ & Hs & Hf & Hrest)].
  - destruct rest as [|e2 rest].
    { unfold flush_cond in Hfc.
      replace (i =? n)%nat with true in Hfc
        by (symmetry; apply Nat.eqb_eq; simpl in Hi; lia).
      rewrite orb_true_r in Hfc. discriminate. }
    apply (IH _ _ c) in Hrun as (tr2 & Ht2 & Hne2 & Hcount);
      [|simpl in *; lia|exact Hc].
    exists tr2. split; [exact Ht2|]. split; [intros _; apply Hne2; discriminate|].
    exact Hcount.
  - destruct r1 as [e|]; [destruct Hrest as [_ ?]; discriminate|].
    destruct Hrest as (st2 & Hck & ->).
    destruct Hw as (Ht & _). simpl in Ht.
    pose proof Hrun as Hrun0.
    apply (IH _ _ (S c)) in Hrun as (tr2 & Ht2 & Hne2 & Hcount);
      [|simpl in *; lia|simpl; lia].
    simpl in Ht2.
    assert (∃ trc, trace st2 = trace st1 ++ trc
                   ∧ submitted trc = []
                   ∧ length (flushed trc)
                     = if ((Z.of_nat c + 1) `mod` save_every cfg =? 0)%Z
                          || bool_decide (rest = [])
                       then 1%nat else 0%nat) as (trc & Htc & Hsc & Hfc).
    { assert ((i =? n)%nat = bool_decide (rest = [])) as Hin.
      { destruct rest; simpl in Hi.
        - rewrite bool_decide_eq_true_2 by reflexivity. apply Nat.eqb_eq. lia.
        - rewrite bool_decide_eq_false_2 by discriminate. apply Nat.eqb_neq. lia. }
      rewrite <- Hin, <- Hc.
      apply checkpoint_cases in Hck
        as [(_ & _ & ?)|[(_ & _ & Hdue & ->)|(_ & _ & Hdue & ->)]];
        [discriminate| |]; rewrite Hdue.
      - exists [Flush (emb_dict st1)]. auto.
      - exists []. rewrite app_nil_r. auto. }
    exists ([Submit (map (fun m => m.1.1)
                       (ls_batch ls
                        ++ [(entry.1, join " " (chars (normalize entry.2)),
                             String.length (normalize entry.2))]))
               (map (fun m => m.2)
                  (ls_batch ls
                   ++ [(entry.1, join " " (chars (normalize entry.2)),
                        String.length (normalize entry.2))]))]
            ++ tr ++ trc ++ tr2).
    split; [rewrite Ht2, Htc, Ht, <- !app_assoc; reflexivity|].
    rewrite !submitted_app, !flushed_app, Hs, Hf, Hsc.
    change (submitted [Submit ?a ?b]) with [b].
    change (flushed [Submit ?a ?b]) with (@nil (gmap string (ndarray F))).
    rewrite !app_nil_l. cbn [app length].
    split; [discriminate|].
    rewrite length_app, Hfc, Hcount.
    destruct rest as [|e2 rest].
    + simpl in Hrun0. inversion Hrun0; subst ls'. assert (tr2 = []) as ->.
      { eapply app_inv_head. rewrite app_nil_r. symmetry. exact Ht2. }
      rewrite bool_decide_eq_true_2 by reflexivity. rewrite orb_true_r.
      simpl. rewrite orb_true_r. reflexivity.
    + rewrite bool_decide_eq_false_2 by discriminate. rewrite orb_false_r.
      apply flush_count_step; [|reflexivity].
      assert (submitted tr2 ≠ []) as Hm by (apply Hne2; discriminate).
      destruct (submitted tr2); [congruence|discriminate].
Qed.

(** In a run that ends normally, with [m] units, the number of flushes is
    the number of [k] between 1 and [m] such that [save_every] divides [k]
    or [k = m]. *)
Theorem flush_schedule seqs out_npz pp cfg w0 files :
  (embed_fasta seqs out_npz pp cfg w0 files).2 = None →
  length (flushed (trace (embed_fasta seqs out_npz pp cfg w0 files).1))
  = length
      (List.filter
         (flush_due (save_every cfg)
            (length (submitted (trace (embed_fasta seqs out_npz pp cfg w0 files).1))))
         (seq 1 (length (submitted
                           (trace (embed_fasta seqs out_npz pp cfg w0 files).1))))).
Proof.
  intros Hok.
  assert (seqs ≠ []) as Hne by (intros ->; discriminate).
  rewrite embed_fasta_unfold in * by exact Hne.
  destruct (for_loop cfg out_npz pp (length (sort_by_len_desc seqs)) 1
              (sort_by_len_desc seqs) (LoopState (State ∅ w0 files []) [] 0))
    as [ls r] eqn:Hrun.
  simpl in Hok. subst r. simpl.
  apply (for_loop_flushes _ _ _ _ _ _ _ _ 0%nat) in Hrun
    as (tr & Ht & _ & Hcount); [|reflexivity|reflexivity].
  simpl in Ht. subst tr. exact Hcount.
Qed.
(** From the file to the store.  Whatever the two text files hold, when
    [read_fasta] returns, the run on its result never writes an identifier
    twice; when the run ends normally the store has one entry for each key
    of the dictionary read. *)
Theorem pipeline_one_entry_per_record lines ids_keep d out_npz pp cfg w0 files :
  Fasta.read_fasta lines ids_keep = inr d →
  NoDup (put_ids (trace (embed_fasta d out_npz pp cfg w0 files).1))
  ∧ ((embed_fasta d out_npz pp cfg w0 files).2 = None →
     dom (emb_dict (embed_fasta d out_npz pp cfg w0 files).1) = list_to_set d.*1
     ∧ size (emb_dict (embed_fasta d out_npz pp cfg w0 files).1) = length d).
Proof.
  intros Hread. pose proof (read_fasta_NoDup _ _ _ Hread) as Hnd.
  split.
  - destruct (embed_fasta_spec F Fmean Fstr W gpu_forward empty_cache cpu_forward
                to_device d out_npz pp cfg w0 files) as (_ & _ & Hinv).
    destruct (Hinv Hnd) as (Hputs & _). rewrite app_nil_r in Hputs. exact Hputs.
  - intros Hok.
    destruct (embed_fasta_complete d out_npz pp cfg w0 files Hok)
      as (_ & Hdom & Hsize).
    split; [exact Hdom|apply Hsize; exact Hnd].
Qed.

(** When no header of the file has its identifier in the allow-list,
    [read_fasta] returns an empty dictionary and [embed_fasta] raises
    [ValueError] at once: the encoder is not called and no file is
    touched. *)
Theorem no_match_raises_value_error lines ids_keep d out_npz pp cfg w0
    (files : gmap string string) :
  (∀ line u, line ∈ lines → header_of u line → u ∉ ids_keep) →
  Fasta.read_fasta lines ids_keep = inr d →
  d = []
  ∧ embed_fasta d out_npz pp cfg w0 files
    = (State ∅ w0 files [],
       Some (Exn ValueError "Empty FASTA or no IDs matched")).
Proof.
  intros Hnone Hread.
  assert (d = []) as ->; [|split; reflexivity].
  destruct d as [|[k v] d]; [reflexivity|]. exfalso.
  destruct (read_fasta_key_origin lines ids_keep ((k, v) :: d) k Hread)
    as (line & u & Hline & Hh & Hu & _); [left|].
  exact (Hnone line u Hline Hh Hu).
Qed.
End RunFacts.

(** ** The recovery engine: failures, partial results, independence of the
    splits *)

Section EngineMore.

Variable F : Type.
Variable Fmean : list F -> F.
Variable W : Type.
Variable gpu_forward : W -> list string -> result (tensor3 F) * W.
Variable gpu_extract : W -> bool -> list (list F) -> nat -> option exn * W.
Variable empty_cache : W -> W.
Variable cpu_forward : W -> list string -> result (tensor3 F) * W.
Variable cpu_extract : W -> bool -> list (list F) -> nat -> option exn * W.
Variable to_device : W -> option exn * W.

Local Abbreviation store_loop := (store_loop F Fmean W gpu_extract).
Local Abbreviation cpu_fallback :=
  (cpu_fallback F Fmean W cpu_forward cpu_extract to_device).
Local Abbreviation safe_embed_rec :=
  (safe_embed_rec F Fmean W gpu_forward gpu_extract empty_cache
   cpu_forward cpu_extract to_device).
Local Abbreviation safe_embed :=
  (safe_embed F Fmean W gpu_forward gpu_extract empty_cache
   cpu_forward cpu_extract to_device).

Implicit Types st : state F W.
Implicit Types tr : list (event F).

(** Whatever the encoder does, [safe_embed] writes the members of the unit
    in order and stops at the first failure: what was written stays (there
    is no rollback), every other entry of the store is as before, and no
    file is touched. *)
Theorem safe_embed_keeps_partial_results ids seqs lens pp st :
  ∃ tr, trace (safe_embed ids seqs lens pp st).1 = trace st ++ tr
    ∧ put_ids tr `prefix_of` ids
    ∧ ((safe_embed ids seqs lens pp st).2 = None → put_ids tr = ids)
    ∧ dom (emb_dict (safe_embed ids seqs lens pp st).1)
      = dom (emb_dict st) ∪ list_to_set (put_ids tr)
    ∧ (∀ uid, uid ∉ put_ids tr →
         emb_dict (safe_embed ids seqs lens pp st).1 !! uid = emb_dict st !! uid)
    ∧ fs (safe_embed ids seqs lens pp st).1 = fs st.
Proof.
  unfold safe_embed.
  destruct (safe_embed_rec (length ids) ids seqs lens pp st) as [st' r] eqn:Hrun.
  apply safe_embed_rec_effect in Hrun
    as (tr & (Ht & Hfs & Hd & Hk) & Hp & Hall & _); [|lia].
  exists tr. simpl. auto 10.
Qed.

Lemma cpu_fallback_cause ids seqs lens pp st st' e :
  cpu_fallback ids seqs lens pp st = (st', Some e) →
  e = index_error
  ∨ ∃ tr0 ev, trace st' = trace st ++ tr0 ++ [ev] ∧ secondary_failure e ev.
Proof.
  unfold cpu_fallback. intros Hrun.
  destruct ids as [|uid ids]; [inversion Hrun; auto|].
  destruct (cpu_forward (world st) seqs) as [[reps|e0] w] eqn:Hc.
  2:{ inversion Hrun; subst. right. exists [], (CpuCall seqs (Some e)).
      split; reflexivity. }
  destruct (lens !! 0%nat) as [len|]; [|inversion Hrun; auto].
  destruct (t_rows reps !! 0%nat) as [rep|]; [|inversion Hrun; auto].
  match type of Hrun with context [to_device ?x] =>
    destruct (to_device x) as [r' w'] eqn:Ht end.
  inversion Hrun; subst. right.
  exists [CpuCall seqs None; Put uid], (ToDevice (Some e)).
  split; [|reflexivity]. simpl. rewrite <- !app_assoc. reflexivity.
Qed.

Lemma safe_embed_rec_cause fuel ids seqs lens pp st st' e :
  (length ids ≤ fuel)%nat →
  safe_embed_rec fuel ids seqs lens pp st = (st', Some e) →
  e = index_error
  ∨ ∃ tr0 ev, trace st' = trace st ++ tr0 ++ [ev]
              ∧ (primary_failure e ev ∨ secondary_failure e ev).
Proof.
  revert ids seqs lens st st'.
  induction fuel as [|fuel IH]; intros ids seqs lens st st' Hfuel Hrun;
    simpl in Hrun;
    destruct (gpu_forward (world st) seqs) as [[reps|e0] w] eqn:Hg.
  1,3: apply store_loop_effect in Hrun as (_ & _ & _ & _ & [?|Hr]);
    [discriminate|inversion Hr; auto].
  all: destruct (is_oom e0) eqn:Hoom;
    [| inversion Hrun; subst; right;
       exists [], (GpuCall seqs (Some e)); split; [reflexivity|];
       left; split; [reflexivity|exact Hoom] ].
  all: destruct (1 <? length ids)%nat eqn:Hlen;
    [ apply Nat.ltb_lt in Hlen | apply Nat.ltb_ge in Hlen ].
  1: lia.
  2:{ change (Nat.divmod (length ids) 1 0 1).1 with (length ids / 2)%nat in Hrun.
      set (mid := (length ids / 2)%nat) in *.
      assert (1 ≤ mid ∧ mid < length ids)%nat as [Hm1 Hm2]
        by (subst mid; split; [apply Nat.div_le_lower_bound|apply Nat.div_lt]; lia).
      match type of Hrun with context [safe_embed_rec fuel ?a ?b ?c ?d ?s] =>
        destruct (safe_embed_rec fuel a b c d s) as [st3 r1] eqn:Hleft end.
      destruct r1 as [e1|].
      - inversion Hrun; subst.
        apply IH in Hleft as [?|(tr0 & ev & Ht & Hev)];
          [left; assumption| |rewrite length_take; lia].
        right. exists (GpuCall seqs (Some e0) :: tr0), ev.
        split; [|exact Hev]. rewrite Ht. simpl. rewrite <- !app_assoc. reflexivity.
      - apply safe_embed_rec_effect in Hleft as (tr1 & (Ht1 & _) & _);
          [|rewrite length_take; lia].
        apply IH in Hrun as [?|(tr0 & ev & Ht & Hev)];
          [left; assumption| |rewrite length_drop; lia].
        right. exists (GpuCall seqs (Some e0) :: tr1 ++ tr0), ev.
        split; [|exact Hev]. rewrite Ht, Ht1. simpl.
        rewrite <- !app_assoc. reflexivity. }
  all: apply cpu_fallback_cause in Hrun as [?|(tr0 & ev & Ht & Hev)];
    [left; assumption|].
  all: right; exists (GpuCall seqs (Some e0) :: tr0), ev;
    split; [|right; exact Hev];
    rewrite Ht; simpl; rewrite <- !app_assoc; reflexivity.
Qed.

(** Why [safe_embed] fails.  An exception leaving [safe_embed] is the
    [IndexError] of a missing length or row, or the exception raised by the
    last step of the run, unchanged: a call on the primary device that
    raised something else than an out-of-memory [RuntimeError], or a step of
    the CPU fallback.  After the failing step nothing more is done. *)
Theorem safe_embed_failure_cause ids seqs lens pp st e :
  (safe_embed ids seqs lens pp st).2 = Some e →
  e = index_error
  ∨ ∃ tr0 ev,
      trace (safe_embed ids seqs lens pp st).1 = trace st ++ tr0 ++ [ev]
      ∧ (primary_failure e ev ∨ secondary_failure e ev).
Proof.
  unfold safe_embed.
  destruct (safe_embed_rec (length ids) ids seqs lens pp st) as [st' r] eqn:Hrun.
  simpl. intros ->. eapply safe_embed_rec_cause; [|exact Hrun]. lia.
Qed.

(** Rows past the true length do not count. *)
Lemma pool_padding pp H len (rep pad : list (list F)) :
  (len ≤ length rep)%nat →
  pool Fmean pp H len (rep ++ pad) = pool Fmean pp H len rep.
Proof.
  intros Hlen. unfold pool, truncate. rewrite take_app_le by exact Hlen.
  reflexivity.
Qed.

Lemma safe_embed_rec_values H enc fuel ids seqs lens pp st st' :
  memberwise H enc gpu_forward → memberwise H enc cpu_forward →
  (length ids ≤ fuel)%nat → NoDup ids →
  length seqs = length ids → length lens = length ids →
  Forall2 (fun s len => (len ≤ length (enc s))%nat) seqs lens →
  safe_embed_rec fuel ids seqs lens pp st = (st', None) →
  ∀ k uid s len,
    ids !! k = Some uid → seqs !! k = Some s → lens !! k = Some len →
    emb_dict st' !! uid = Some (pool Fmean pp H len (enc s)).
Proof.
  intros Hgpu Hcpu. revert ids seqs lens st st'.
  induction fuel as [|fuel IH];
    intros ids seqs lens st st' Hfuel Hnd Hs Hl Hfit Hrun k uid s len Hk Hsk Hlk;
    simpl in Hrun;
    destruct (gpu_forward (world st) seqs) as [[reps|e0] w] eqn:Hg.
  1,3: destruct (Hgpu _ _ _ _ Hg) as [HH Hrows];
    destruct (store_loop_lookup F Fmean W _ _ _ _ _ _ _ Hrun Hnd k uid Hk)
      as (len' & rep & Hlen' & Hrep & Hv);
    simpl in Hlen', Hrep; rewrite Hlk in Hlen'; inversion Hlen'; subst len';
    destruct (Forall2_lookup_lr _ _ _ _ _ _ Hrows Hsk Hrep) as [pad ->];
    rewrite Hv, HH, pool_padding; [reflexivity|];
    apply (Forall2_lookup_lr _ _ _ _ _ _ Hfit Hsk Hlk).
  all: destruct (is_oom e0); [|discriminate].
  all: destruct (1 <? length ids)%nat eqn:Hlen;
    [ apply Nat.ltb_lt in Hlen | apply Nat.ltb_ge in Hlen ].
  1: lia.
  2:{ change (Nat.divmod (length ids) 1 0 1).1 with (length ids / 2)%nat in Hrun.
      set (mid := (length ids / 2)%nat) in *.
      assert (1 ≤ mid ∧ mid < length ids)%nat as [Hm1 Hm2]
        by (subst mid; split; [apply Nat.div_le_lower_bound|apply Nat.div_lt]; lia).
      match type of Hrun with context [safe_embed_rec fuel ?a ?b ?c ?d ?s] =>
        destruct (safe_embed_rec fuel a b c d s) as [st3 r1] eqn:Hleft end.
      destruct r1 as [e1|]; [discriminate|].
      rewrite <- (take_drop mid ids) in Hnd.
      apply NoDup_app in Hnd as (Hndl & Hdisj & Hndr).
      destruct (decide (k < mid)%nat) as [Hlt|Hge].
      - pose proof Hrun as Hright.
        apply safe_embed_rec_effect in Hright
          as (tr2 & (_ & _ & _ & Hkeep) & _ & Hall & _);
          [|rewrite length_drop; lia].
        rewrite Hkeep.
        + apply (IH (take mid ids) (take mid seqs) (take mid lens) _ st3
                   ltac:(rewrite length_take; lia) Hndl
                   ltac:(rewrite !length_take; lia)
                   ltac:(rewrite !length_take; lia)
                   ltac:(apply Forall2_take; exact Hfit) Hleft k);
            rewrite lookup_take_lt by exact Hlt; assumption.
        + rewrite (Hall eq_refl). apply Hdisj.
          apply list_elem_of_lookup. exists k.
          rewrite lookup_take_lt by exact Hlt. exact Hk.
      - apply (IH (drop mid ids) (drop mid seqs) (drop mid lens) st3 st'
                 ltac:(rewrite length_drop; lia) Hndr
                 ltac:(rewrite !length_drop; lia)
                 ltac:(rewrite !length_drop; lia)
                 ltac:(apply Forall2_drop; exact Hfit) Hrun (k - mid)%nat);
          rewrite lookup_drop;
          (replace (mid + (k - mid))%nat with k by lia); assumption. }
  all: destruct ids as [|uid0 [|]]; try (simpl in Hlen; lia);
    [rewrite lookup_nil in Hk; discriminate|].
  all: destruct k as [|k]; [|rewrite lookup_cons, lookup_nil in Hk; discriminate].
  all: simpl in Hk; inversion Hk; subst uid0.
  all: unfold cpu_fallback in Hrun; simpl in Hrun.
  all: destruct (cpu_forward (empty_cache w) seqs) as [[reps|e1] w1] eqn:Hc;
    [|discriminate].
  all: destruct (Hcpu _ _ _ _ Hc) as [HH Hrows].
  all: rewrite Hlk in Hrun.
  all: destruct (t_rows reps !! 0%nat) as [rep|] eqn:Hrep; [|discriminate].
  all: destruct (Forall2_lookup_lr _ _ _ _ _ _ Hrows Hsk Hrep) as [pad ->].
  all: match type of Hrun with context [to_device ?x] =>
         destruct (to_device x) as [r' w'] end.
  all: inversion Hrun; subst; simpl.
  all: rewrite lookup_insert_eq, pool_padding; [reflexivity|].
  all: apply (Forall2_lookup_lr _ _ _ _ _ _ Hfit Hsk Hlk).
Qed.

(** Independence of the splits.  With encoders that work member by member,
    whatever halvings and CPU fallbacks a successful call went through, the
    vector stored for a member is the pooling of the encoding of that member
    alone, cut to its length. *)
Theorem split_independent H enc ids seqs lens pp st k uid s len :
  memberwise H enc gpu_forward → memberwise H enc cpu_forward →
  NoDup ids → length seqs = length ids → length lens = length ids →
  Forall2 (fun s len => (len ≤ length (enc s))%nat) seqs lens →
  (safe_embed ids seqs lens pp st).2 = None →
  ids !! k = Some uid → seqs !! k = Some s → lens !! k = Some len →
  emb_dict (safe_embed ids seqs lens pp st).1 !! uid
  = Some (pool Fmean pp H len (enc s)).
Proof.
  intros Hgpu Hcpu Hnd Hs Hl Hfit Hok. unfold safe_embed in *.
  destruct (safe_embed_rec (length ids) ids seqs lens pp st) as [st' r] eqn:Hrun.
  simpl in *. subst r.
  eapply safe_embed_rec_values; eauto.
Qed.
End EngineMore.

(** ** Shapes, successive flushes, and the small text functions *)

Section ShapeFacts.

Variable F : Type.
Variable Fmean : list F -> F.
Variable Fstr : F -> string.

Lemma reshape_flat_squeeze1 (v : list F) : reshape_flat (squeeze1 v) = v.
Proof. destruct v as [|x [|y v]]; reflexivity. Qed.

Lemma reshape_flat_squeeze2 H (rows : list (list F)) :
  reshape_flat (squeeze2 H rows) = concat rows.
Proof.
  destruct rows as [|r [|r' rows]]; simpl.
  - destruct (H =? 1)%nat; reflexivity.
  - rewrite reshape_flat_squeeze1, app_nil_r. reflexivity.
  - destruct (H =? 1)%nat; reflexivity.
Qed.

Lemma concat_length_uniform H (rows : list (list F)) :
  Forall (fun r => length r = H) rows →
  length (concat rows) = (length rows * H)%nat.
Proof.
  induction 1 as [|r rows Hr _ IH]; simpl; [reflexivity|].
  rewrite length_app, IH, Hr. reflexivity.
Qed.

(** The number of values written on a line.  In per-protein mode it is the
    hidden size, whatever the length of the sequence; in per-position mode
    it is the hidden size times the number of positions kept, so the lines
    of sequences of different lengths differ in width. *)
Theorem values_per_line H len (rep : list (list F)) :
  Forall (fun r => length r = H) rep →
  length (reshape_flat (pool Fmean true H len rep)) = H
  ∧ length (reshape_flat (pool Fmean false H len rep))
    = (Nat.min len (length rep) * H)%nat.
Proof.
  intros Hwf. unfold pool, truncate. split.
  - rewrite reshape_flat_squeeze1. unfold mean_dim0.
    rewrite length_map, length_seq. reflexivity.
  - rewrite reshape_flat_squeeze2, (concat_length_uniform H).
    + rewrite length_take. reflexivity.
    + apply Forall_take. exact Hwf.
Qed.

(** Successive flushes.  A flush of a non-empty store wipes out what an
    earlier flush to the same destination wrote; in particular flushing
    the same store twice gives the same file system as flushing it once. *)
Theorem later_flush_supersedes (d1 d2 : gmap string (ndarray F)) tsv_path
    (files : gmap string string) :
  d2 ≠ ∅ →
  save_ids_and_embeddings_tsv Fstr d2 tsv_path
    (save_ids_and_embeddings_tsv Fstr d1 tsv_path files)
  = save_ids_and_embeddings_tsv Fstr d2 tsv_path files
  ∧ save_ids_and_embeddings_tsv Fstr d1 tsv_path
      (save_ids_and_embeddings_tsv Fstr d1 tsv_path files)
    = save_ids_and_embeddings_tsv Fstr d1 tsv_path files.
Proof.
  intros Hne. unfold save_ids_and_embeddings_tsv.
  destruct (decide (d2 = ∅)) as [|_]; [contradiction|].
  destruct (decide (d1 = ∅)) as [_|_]; split; try reflexivity;
    apply insert_insert_eq.
Qed.

End ShapeFacts.

Section TextFacts.

(** Line 181 character by character: U, Z and O become X, every other
    character stays; the length does not change. *)
Theorem normalize_chars (seq : string) :
  list_ascii_of_string (normalize seq)
  = map (fun c => if (Ascii.eqb c "U" || Ascii.eqb c "Z" || Ascii.eqb c "O")%bool
                  then "X"%char else c)
      (list_ascii_of_string seq)
  ∧ String.length (normalize seq) = String.length seq.
Proof.
  split.
  - unfold normalize. induction seq as [|c seq IH]; simpl; [reflexivity|].
    rewrite IH. f_equal.
    destruct (Ascii.eqb_spec c "U") as [->|HU]; [reflexivity|].
    destruct (Ascii.eqb_spec c "Z") as [->|HZ]; [reflexivity|].
    destruct (Ascii.eqb_spec c "O") as [->|HO]; reflexivity.
  - unfold normalize. rewrite !replace_char_length. reflexivity.
Qed.

Lemma lstrip_first (s : string) c s' :
  Fasta.lstrip s = String c s' → Fasta.is_space c = false.
Proof.
  induction s as [|x s IH]; simpl; [discriminate|].
  destruct (Fasta.is_space x) eqn:Hx; [exact IH|].
  intros [= <- <-]. exact Hx.
Qed.

Lemma take_nonspace_chars (s : string) c :
  c ∈ list_ascii_of_string (Fasta.take_nonspace s) → Fasta.is_space c = false.
Proof.
  induction s as [|x s IH]; simpl; intros Hin.
  - apply elem_of_nil in Hin. contradiction.
  - destruct (Fasta.is_space x) eqn:Hx.
    + apply elem_of_nil in Hin. contradiction.
    + simpl in Hin. apply elem_of_cons in Hin as [->|Hin]; [exact Hx|auto].
Qed.

(** An identifier read from a header is not empty and holds no white
    space. *)
Lemma first_token_spec (s u : string) :
  Fasta.first_token s = Some u →
  u ≠ "" ∧ ∀ c, c ∈ list_ascii_of_string u → Fasta.is_space c = false.
Proof.
  unfold Fasta.first_token.
  destruct (Fasta.lstrip s) as [|c t] eqn:Hl; [discriminate|].
  intros [= <-]. pose proof (lstrip_first _ _ _ Hl) as Hc.
  split.
  - simpl. rewrite Hc. discriminate.
  - intros c0. apply (take_nonspace_chars (String c t)).
Qed.

(** Entries of the allow-list that are empty or hold white space (a blank
    line of the list file gives the empty entry) never match: the result of
    [read_fasta] depends only on the other entries. *)
Theorem read_fasta_ignores_dead_entries lines (ids1 ids2 : gset string) :
  (∀ u, u ≠ "" →
        (∀ c, c ∈ list_ascii_of_string u → Fasta.is_space c = false) →
        (u ∈ ids1 ↔ u ∈ ids2)) →
  Fasta.read_fasta lines ids1 = Fasta.read_fasta lines ids2.
Proof.
  intros Hsame. unfold Fasta.read_fasta.
  assert (∀ line r, Fasta.step ids1 line r = Fasta.step ids2 line r) as Hstep.
  { intros line r. unfold Fasta.step.
    destruct (startswith ">" line); [|reflexivity].
    destruct (Fasta.first_token (Fasta.tail line)) as [u|] eqn:Ht; [|reflexivity].
    apply first_token_spec in Ht as [Hne Hsp].
    rewrite (bool_decide_ext _ _ (Hsame u Hne Hsp)). reflexivity. }
  assert (∀ r, Fasta.loop ids1 lines r = Fasta.loop ids2 lines r) as Hloop.
  { induction lines as [|line lines IH]; intros r; simpl; [reflexivity|].
    rewrite Hstep. destruct (Fasta.step ids2 line r); [reflexivity|apply IH]. }
  rewrite Hloop. reflexivity.
Qed.

End TextFacts.

(** ** More worked examples *)

Section MoreExamples.

Lemma stub_gpu_memberwise T : memberwise 2 Sample.enc (Stub.gpu_forward T).
Proof.
  intros w batch reps w'. unfold Stub.gpu_forward.
  destruct (T <? Stub.n_residues batch)%nat; [discriminate|].
  intros [= <- _]. split; [reflexivity|]. simpl.
  generalize (Stub.longest batch). intros L.
  induction batch as [|s batch IH]; simpl; constructor; [|exact IH].
  eexists. reflexivity.
Qed.

Lemma stub_cpu_memberwise : memberwise 2 Sample.enc Stub.cpu_forward.
Proof.
  intros w batch reps w'. unfold Stub.cpu_forward.
  intros [= <- _]. split; [reflexivity|]. simpl.
  generalize (Stub.longest batch). intros L.
  induction batch as [|s batch IH]; simpl; constructor; [|exact IH].
  eexists. reflexivity.
Qed.

Example read_fasta_sample :
  Fasta.read_fasta Sample.lines Sample.ids_keep = inr [("a_b_1", "CCGG")].
Proof. vm_compute. reflexivity. Qed.

Example read_fasta_blank_header :
  Fasta.read_fasta ["ACGT"; ">  " ++ newline; "ACGT"]%string ∅
  = inl Fasta.IndexError.
Proof. vm_compute. reflexivity. Qed.

Lemma read_fasta_keys_witness :
  NoDup [("a_b_1", "CCGG")].*1
  ∧ ∀ k, k ∈ [("a_b_1", "CCGG")].*1 →
      (∃ line u, line ∈ Sample.lines ∧ header_of u line ∧ u ∈ Sample.ids_keep
                 ∧ k = Fasta.sanitize u)
      ∧ ∀ c, c ∈ list_ascii_of_string k → c ≠ "/"%char ∧ c ≠ "."%char.
Proof.
  apply (read_fasta_keys Sample.lines Sample.ids_keep [("a_b_1", "CCGG")]).
  vm_compute. reflexivity.
Defined.

Lemma read_fasta_values_witness :
  "G"%char ≠ "-"%char ∧ is_lower "G" = false.
Proof.
  apply (read_fasta_values Sample.lines Sample.ids_keep
           [("a_b_1", "CCGG")] "a_b_1" "CCGG" "G").
  - vm_compute. reflexivity.
  - left.
  - vm_compute. set_solver.
Defined.

Lemma read_fasta_last_record_witness :
  Fasta.dict_get (Fasta.sanitize "a.b/1") [("a_b_1", "CCGG")]
  = Some (foldr (fun l s => Fasta.clean l ++ s)%string ""
            ["cc" ++ newline; "g-g"]%string).
Proof.
  apply (read_fasta_last_record Sample.lines Sample.ids_keep
           [("a_b_1", "CCGG")]
           [">a/b.1 first record" ++ newline; "acg-t" ++ newline;
            ">zz" ++ newline; "AAA" ++ newline]%string
           (">a.b/1" ++ newline)%string
           ["cc" ++ newline; "g-g"]%string [] "a.b/1").
  - vm_compute. reflexivity.
  - reflexivity.
  - split; vm_compute; reflexivity.
  - unfold Sample.ids_keep. set_solver.
  - repeat constructor.
  - exact I.
  - constructor.
Defined.

Lemma read_fasta_ignores_dead_entries_witness :
  Fasta.read_fasta Sample.lines (Fasta.load_ids Sample.ids_lines)
  = Fasta.read_fasta Sample.lines Sample.ids_keep.
Proof.
  apply (read_fasta_ignores_dead_entries Sample.lines).
  intros u Hne Hsp.
  assert (Fasta.load_ids Sample.ids_lines
          = ({["a/b.1"; ""; "a.b/1"; "x y"]} : gset string)) as ->
    by (vm_compute; reflexivity).
  unfold Sample.ids_keep. split; [|set_solver].
  intros Hin.
  assert (u = "a/b.1" ∨ u = "" ∨ u = "a.b/1" ∨ u = "x y") as [-> | [-> | [-> | ->] ] ]
    by set_solver; try set_solver.
  specialize (Hsp " "%char). exfalso.
  assert (Fasta.is_space " " = false) as Hbad
    by (apply Hsp; vm_compute; set_solver).
  vm_compute in Hbad. discriminate.
Defined.

Lemma run_embeds_every_sequence_witness :
  put_ids (trace (Stub.embed_fasta 55 Example.seqs "out.tsv" true
                    Example.cfg 0%nat ∅).1)
  = (sort_by_len_desc Example.seqs).*1
  ∧ dom (emb_dict (Stub.embed_fasta 55 Example.seqs "out.tsv" true
                     Example.cfg 0%nat ∅).1)
    = list_to_set Example.seqs.*1
  ∧ (NoDup Example.seqs.*1 →
     size (emb_dict (Stub.embed_fasta 55 Example.seqs "out.tsv" true
                       Example.cfg 0%nat ∅).1) = length Example.seqs).
Proof.
  apply (run_embeds_every_sequence Z Stub.Fmean Stub.Fstr nat
           (Stub.gpu_forward 55) Stub.gpu_extract Stub.empty_cache Stub.cpu_forward Stub.cpu_extract
           Stub.to_device Example.seqs "out.tsv" true Example.cfg 0%nat ∅).
  vm_compute. reflexivity.
Defined.

Lemma run_ends_with_full_flush_witness :
  fs (Stub.embed_fasta 55 Example.seqs "out.tsv" true Example.cfg 0%nat
        Example.old_files).1 !! "out.tsv"
  = Some (tsv_of Stub.Fstr
            (emb_dict (Stub.embed_fasta 55 Example.seqs "out.tsv" true
                         Example.cfg 0%nat Example.old_files).1))
  ∧ last (flushed (trace (Stub.embed_fasta 55 Example.seqs "out.tsv" true
                            Example.cfg 0%nat Example.old_files).1))
    = Some (emb_dict (Stub.embed_fasta 55 Example.seqs "out.tsv" true
                        Example.cfg 0%nat Example.old_files).1).
Proof.
  apply (run_ends_with_full_flush Z Stub.Fmean Stub.Fstr nat
           (Stub.gpu_forward 55) Stub.gpu_extract Stub.empty_cache Stub.cpu_forward Stub.cpu_extract
           Stub.to_device Example.seqs "out.tsv" true Example.cfg 0%nat
           Example.old_files).
  vm_compute. reflexivity.
Defined.

Lemma zero_save_every_aborts_witness :
  fs (Stub.embed_fasta 4 Example.two_seqs "out.tsv" true
        Sample.cfg_save_every_0 0%nat Example.old_files).1 = Example.old_files
  ∧ flushed (trace (Stub.embed_fasta 4 Example.two_seqs "out.tsv" true
                      Sample.cfg_save_every_0 0%nat Example.old_files).1) = []
  ∧ length (submitted (trace (Stub.embed_fasta 4 Example.two_seqs "out.tsv" true
                                Sample.cfg_save_every_0 0%nat
                                Example.old_files).1)) = 1%nat.
Proof.
  destruct (zero_save_every_aborts Z Stub.Fmean Stub.Fstr nat
              (Stub.gpu_forward 4) Stub.gpu_extract Stub.empty_cache Stub.cpu_forward Stub.cpu_extract
              Stub.to_device Example.two_seqs "out.tsv" true
              Sample.cfg_save_every_0 0%nat Example.old_files)
    as (H1 & H2 & H3 & _); [reflexivity|discriminate|].
  exact (conj H1 (conj H2 H3)).
Defined.

(** With the stub the exception is the [ZeroDivisionError]. *)
Example zero_save_every_example :
  (Stub.embed_fasta 4 Example.two_seqs "out.tsv" true
     Sample.cfg_save_every_0 0%nat Example.old_files).2 = Some zero_division.
Proof. vm_compute. reflexivity. Qed.

Lemma units_by_decreasing_length_witness :
  Sorted (fun a b => (b ≤ a)%nat)
    (concat (submitted (trace (Stub.embed_fasta 55 Example.seqs "out.tsv" true
                                 Example.cfg 0%nat ∅).1)))
  ∧ concat (submitted (trace (Stub.embed_fasta 55 Example.seqs "out.tsv" true
                                Example.cfg 0%nat ∅).1))
    ≡ₚ (fun e => String.length e.2) <$> Example.seqs.
Proof.
  apply (units_by_decreasing_length Z Stub.Fmean Stub.Fstr nat
           (Stub.gpu_forward 55) Stub.gpu_extract Stub.empty_cache Stub.cpu_forward Stub.cpu_extract
           Stub.to_device Example.seqs "out.tsv" true Example.cfg 0%nat ∅).
  vm_compute. reflexivity.
Defined.

Lemma flush_schedule_witness :
  length (flushed (trace (Stub.embed_fasta 55 Example.seqs "out.tsv" true
                            Example.cfg 0%nat ∅).1))
  = length
      (List.filter
         (flush_due (save_every Example.cfg)
            (length (submitted (trace (Stub.embed_fasta 55 Example.seqs
                                         "out.tsv" true Example.cfg 0%nat ∅).1))))
         (seq 1 (length (submitted
                           (trace (Stub.embed_fasta 55 Example.seqs "out.tsv"
                                     true Example.cfg 0%nat ∅).1))))).
Proof.
  apply (flush_schedule Z Stub.Fmean Stub.Fstr nat
           (Stub.gpu_forward 55) Stub.gpu_extract Stub.empty_cache Stub.cpu_forward Stub.cpu_extract
           Stub.to_device Example.seqs "out.tsv" true Example.cfg 0%nat ∅).
  vm_compute. reflexivity.
Defined.

(** Two units and the default [save_every]: one flush, at the end. *)
Example flush_schedule_example :
  length (submitted (trace (Stub.embed_fasta 55 Example.seqs "out.tsv" true
                              Example.cfg 0%nat ∅).1)) = 2%nat
  ∧ length (flushed (trace (Stub.embed_fasta 55 Example.seqs "out.tsv" true
                              Example.cfg 0%nat ∅).1)) = 1%nat.
Proof. vm_compute. split; reflexivity. Qed.

Lemma pipeline_one_entry_per_record_witness :
  NoDup (put_ids (trace (Stub.embed_fasta 55 [("a_b_1", "CCGG")] "out.tsv" true
                           Example.default_cfg 0%nat ∅).1)).
Proof.
  apply (pipeline_one_entry_per_record Z Stub.Fmean Stub.Fstr nat
           (Stub.gpu_forward 55) Stub.gpu_extract Stub.empty_cache Stub.cpu_forward Stub.cpu_extract
           Stub.to_device Sample.lines Sample.ids_keep [("a_b_1", "CCGG")]
           "out.tsv" true Example.default_cfg 0%nat ∅).
  vm_compute. reflexivity.
Defined.

Lemma no_match_raises_value_error_witness :
  ([] : list (string * string)) = []
  ∧ Stub.embed_fasta 55 [] "out.tsv" true Example.default_cfg 0%nat
      Example.old_files
    = (State ∅ 0%nat Example.old_files [],
       Some (Exn ValueError "Empty FASTA or no IDs matched")).
Proof.
  apply (no_match_raises_value_error Z Stub.Fmean Stub.Fstr nat
           (Stub.gpu_forward 55) Stub.gpu_extract Stub.empty_cache Stub.cpu_forward Stub.cpu_extract
           Stub.to_device Sample.lines ∅ [] "out.tsv" true
           Example.default_cfg 0%nat Example.old_files).
  - intros line u _ _. set_solver.
  - vm_compute. reflexivity.
Defined.

Lemma safe_embed_failure_cause_witness :
  Stub.cpu_oom = index_error
  ∨ ∃ tr0 ev,
      trace (safe_embed Z Stub.Fmean nat (Stub.gpu_forward 0) Stub.gpu_extract Stub.empty_cache
               Stub.cpu_forward_failing Stub.cpu_extract Stub.to_device
               ["P12345"] ["M K"] [2%nat] true Stub.st0).1
      = trace Stub.st0 ++ tr0 ++ [ev]
      ∧ (primary_failure Stub.cpu_oom ev ∨ secondary_failure Stub.cpu_oom ev).
Proof.
  apply (safe_embed_failure_cause Z Stub.Fmean nat (Stub.gpu_forward 0)
           Stub.gpu_extract Stub.empty_cache Stub.cpu_forward_failing Stub.cpu_extract Stub.to_device
           ["P12345"] ["M K"] [2%nat] true Stub.st0 Stub.cpu_oom).
  vm_compute. reflexivity.
Defined.

Lemma split_independent_witness :
  emb_dict (Stub.safe_embed 1 ["a"; "b"; "c"] ["A B"; "C D"; "E"]
              [2; 2; 1]%nat true Stub.st0).1 !! "b"
  = Some (pool Stub.Fmean true 2 2 (Sample.enc "C D")).
Proof.
  apply (split_independent Z Stub.Fmean nat (Stub.gpu_forward 1)
           Stub.gpu_extract Stub.empty_cache Stub.cpu_forward Stub.cpu_extract Stub.to_device
           2%nat Sample.enc ["a"; "b"; "c"] ["A B"; "C D"; "E"] [2; 2; 1]%nat
           true Stub.st0 1%nat "b" "C D" 2%nat).
  - apply stub_gpu_memberwise.
  - apply stub_cpu_memberwise.
  - repeat constructor; set_solver.
  - reflexivity.
  - reflexivity.
  - repeat constructor; vm_compute; lia.
  - vm_compute. reflexivity.
  - reflexivity.
  - reflexivity.
  - reflexivity.
Defined.

Lemma values_per_line_witness :
  length (reshape_flat (pool Stub.Fmean true 2 3
                          [[77; 0]; [75; 1]; [86; 2]; [0; 0]]%Z)) = 2%nat
  ∧ length (reshape_flat (pool Stub.Fmean false 2 3
                            [[77; 0]; [75; 1]; [86; 2]; [0; 0]]%Z))
    = (Nat.min 3 (length [[77; 0]; [75; 1]; [86; 2]; [0; 0]]%Z) * 2)%nat.
Proof.
  apply (values_per_line Z Stub.Fmean 2 3 [[77; 0]; [75; 1]; [86; 2]; [0; 0]]%Z).
  repeat constructor.
Defined.

Lemma later_flush_supersedes_witness :
  save_ids_and_embeddings_tsv Stub.Fstr {["b" := Arr1 [3; 4]%Z]} "out.tsv"
    (save_ids_and_embeddings_tsv Stub.Fstr {["a" := Arr1 [1; 2]%Z]} "out.tsv"
       Example.old_files)
  = save_ids_and_embeddings_tsv Stub.Fstr {["b" := Arr1 [3; 4]%Z]} "out.tsv"
      Example.old_files.
Proof.
  apply (later_flush_supersedes Z Stub.Fstr
           {["a" := Arr1 [1; 2]%Z]} {["b" := Arr1 [3; 4]%Z]} "out.tsv"
           Example.old_files).
  intros Hempty. apply (f_equal (fun m => m !! "b")) in Hempty.
  vm_compute in Hempty. discriminate.
Defined.
End MoreExamples.
PENDING*)
